(** * TinyLLM: a shallow embedding of [minillm/model.py]

    The character-level language model of the repository, embedded
    function by function.  Python floats are read as real numbers
    ([R]); strings as lists of characters; lists that the code updates
    by index as Rocq lists whose reads and writes raise [IndexError]
    out of range, as Python does; dictionaries as insertion-ordered
    association lists whose lookup raises [KeyError]; the module-wide
    random generator as the stream of values it hands out.  Methods
    that mutate the object return the updated object. *)

From Stdlib Require Import Ascii String DecimalString.
From Stdlib Require Import Reals Lra Lia Arith ZArith PeanoNat Bool List Permutation
  Sorted.
Import ListNotations.

Local Open Scope R_scope.

(** ** Exceptions and the result monad *)

Inductive exn : Type :=
| ValueError (msg : string)
| KeyError
| IndexError
| ZeroDivisionError.

Inductive result (A : Type) : Type :=
| Ok (a : A)
| Raise (e : exn).

Arguments Ok {A} a.
Arguments Raise {A} e.

Definition bind {A B : Type} (r : result A) (k : A -> result B) : result B :=
  match r with
  | Ok a => k a
  | Raise e => Raise e
  end.

Declare Scope py_scope.
Delimit Scope py_scope with py.
Notation "x <- e ;; k" := (bind e (fun x => k))
  (at level 61, e at next level, right associativity) : py_scope.
Notation "' p <- e ;; k" := (bind e (fun p => k))
  (at level 61, p pattern, e at next level, right associativity) : py_scope.
Local Open Scope py_scope.

(** ** Python list primitives *)

Definition Vector : Type := list R.
Definition Matrix : Type := list (list R).

(** [l[i]] *)
Definition getitem {A : Type} (l : list A) (i : nat) : result A :=
  match nth_error l i with
  | Some a => Ok a
  | None => Raise IndexError
  end.

Fixpoint replace_nth {A : Type} (l : list A) (i : nat) (v : A) : list A :=
  match l, i with
  | [], _ => []
  | _ :: t, O => v :: t
  | h :: t, S i' => h :: replace_nth t i' v
  end.

(** [l[i] = v] *)
Definition setitem {A : Type} (l : list A) (i : nat) (v : A) : result (list A) :=
  if (i <? length l)%nat then Ok (replace_nth l i v) else Raise IndexError.

(** [m[i][j]] *)
Definition getitem2 (m : Matrix) (i j : nat) : result R :=
  row <- getitem m i ;; getitem row j.

(** [m[i][j] = v]: the row object is fetched, then updated in place. *)
Definition setitem2 (m : Matrix) (i j : nat) (v : R) : result Matrix :=
  row <- getitem m i ;;
  row' <- setitem row j v ;;
  setitem m i row'.

(** [for i in range(start, start + n): s = body i s] *)
Fixpoint for_range_from {St : Type} (start n : nat)
    (body : nat -> St -> result St) (s : St) : result St :=
  match n with
  | O => Ok s
  | S n' => s' <- body start s ;; for_range_from (S start) n' body s'
  end.

Definition for_range {St : Type} (n : nat) (body : nat -> St -> result St)
    (s : St) : result St :=
  for_range_from 0 n body s.

(** [for x in xs: s = body x s] *)
Fixpoint for_each {A St : Type} (xs : list A) (body : A -> St -> result St)
    (s : St) : result St :=
  match xs with
  | [] => Ok s
  | x :: t => s' <- body x s ;; for_each t body s'
  end.

(** [enumerate(xs)] *)
Definition enumerate {A : Type} (xs : list A) : list (nat * A) :=
  combine (seq 0 (length xs)) xs.

(** [[f(x) for x in xs]] with a fallible [f], evaluated left to right. *)
Fixpoint mapM {A B : Type} (f : A -> result B) (xs : list A) : result (list B) :=
  match xs with
  | [] => Ok []
  | x :: t => y <- f x ;; ys <- mapM f t ;; Ok (y :: ys)
  end.

(** ** Module-level helpers of [model.py] *)

(** [zeros(rows, cols)] *)
Definition zeros (rows cols : nat) : Matrix := repeat (repeat 0 cols) rows.

(** [sum(xs)]: the accumulator starts at zero and adds from the left. *)
Definition py_sum (xs : list R) : R := fold_left Rplus xs 0.

(** [max(xs)]: the first maximal element; [ValueError] on an empty list. *)
Definition py_max (xs : list R) : result R :=
  match xs with
  | [] => Raise (ValueError "max() arg is an empty sequence")
  | x :: t => Ok (fold_left (fun acc v => if Rlt_dec acc v then v else acc) t x)
  end.

(** [max(range(n), key=...)]: the first index whose key is maximal. *)
Definition py_max_key (n : nat) (key : nat -> R) : result nat :=
  match seq 0 n with
  | [] => Raise (ValueError "max() arg is an empty sequence")
  | i :: t =>
      Ok (fold_left (fun best j => if Rlt_dec (key best) (key j) then j else best) t i)
  end.

(** [a / b] on floats. *)
Definition py_div (a b : R) : result R :=
  if Req_dec_T b 0 then Raise ZeroDivisionError else Ok (a / b).

(** [math.log(x)] *)
Definition py_log (x : R) : result R :=
  if Rlt_dec 0 x then Ok (ln x) else Raise (ValueError "math domain error").

(** [matvec(mat, vec)]; [zip] stops at the shorter of its arguments. *)
Definition matvec (mat : Matrix) (vec : Vector) : Vector :=
  map (fun row => py_sum (map (fun mv => fst mv * snd mv) (combine row vec))) mat.

(** [add_inplace(target, src)] *)
Definition add_inplace (target src : Vector) : result Vector :=
  for_each (enumerate src)
    (fun iv tgt => t <- getitem tgt (fst iv) ;; setitem tgt (fst iv) (t + snd iv))
    target.

(** [max(0.0, v)] returns [v] only when [v > 0.0]. *)
Definition relu (vec : Vector) : Vector :=
  map (fun v => if Rlt_dec 0 v then v else 0) vec.

(** [softmax(vec)] *)
Definition softmax (vec : Vector) : result Vector :=
  max_v <- py_max vec ;;
  let exps := map (fun v => exp (v - max_v)) vec in
  let total := py_sum exps in
  mapM (fun e => py_div e total) exps.

(** ** Strings, dictionaries and the pseudo-random source *)

Definition str : Type := list ascii.

(** [s[i:j]] for [0 <= i <= j]; slices are clamped to the string. *)
Definition py_slice {A : Type} (s : list A) (i j : nat) : list A :=
  firstn (j - i) (skipn i s).

(** [s[-n:]]: the last [n] elements, and the whole list when [n] is
    zero (then [-n] is index 0) or exceeds the length. *)
Definition py_last {A : Type} (n : nat) (s : list A) : list A :=
  if (n =? 0)%nat then s else skipn (length s - n) s.

(** [s.rjust(width)] *)
Definition rjust (s : str) (width : nat) : str :=
  repeat " "%char (width - length s) ++ s.

Definition dict (K V : Type) : Type := list (K * V).

(** [d[k] = v]: an existing key keeps its place, a new key goes last. *)
Fixpoint dict_set {K V : Type} (eqb : K -> K -> bool) (d : dict K V) (k : K) (v : V)
  : dict K V :=
  match d with
  | [] => [(k, v)]
  | (k', v') :: t =>
      if eqb k' k then (k', v) :: t else (k', v') :: dict_set eqb t k v
  end.

(** [d[k]] *)
Fixpoint dict_get {K V : Type} (eqb : K -> K -> bool) (d : dict K V) (k : K)
  : result V :=
  match d with
  | [] => Raise KeyError
  | (k', v) :: t => if eqb k' k then Ok v else dict_get eqb t k
  end.

(** [set(text)], listed by first occurrence. *)
Fixpoint py_set (text : str) : list ascii :=
  match text with
  | [] => []
  | c :: t => if existsb (Ascii.eqb c) (py_set t) then py_set t else c :: py_set t
  end.

Definition char_le (a b : ascii) : bool := (nat_of_ascii a <=? nat_of_ascii b)%nat.

Fixpoint insert_sorted (c : ascii) (l : list ascii) : list ascii :=
  match l with
  | [] => [c]
  | h :: t => if char_le c h then c :: h :: t else h :: insert_sorted c t
  end.

(** [sorted(xs)]: ascending by code point. *)
Definition sorted (xs : list ascii) : list ascii := fold_right insert_sorted [] xs.

(** The values [random.random()] returns, in call order. *)
Definition draws : Type := nat -> R.

(** [random.uniform(a, b)] is [a + (b - a) * random()]; the counter is
    the number of values drawn so far. *)
Definition uniform (rnd : draws) (a b : R) (k : nat) : R * nat :=
  (a + (b - a) * rnd k, S k).

Fixpoint random_row (rnd : draws) (cols : nat) (scale : R) (k : nat) : Vector * nat :=
  match cols with
  | O => ([], k)
  | S c =>
      let (x, k1) := uniform rnd (- scale) scale k in
      let (xs, k2) := random_row rnd c scale k1 in
      (x :: xs, k2)
  end.

(** [random_matrix(rows, cols, scale)] *)
Fixpoint random_matrix (rnd : draws) (rows cols : nat) (scale : R) (k : nat)
  : Matrix * nat :=
  match rows with
  | O => ([], k)
  | S r =>
      let (row, k1) := random_row rnd cols scale k in
      let (rest, k2) := random_matrix rnd r cols scale k1 in
      (row :: rest, k2)
  end.

(** ** The model *)

Record Dataset : Type := mkDataset {
  inputs : list (list nat);
  targets : list nat
}.

Record TinyLLM : Type := mkTinyLLM {
  context : nat;
  embed_dim : nat;
  hidden_dim : nat;
  learning_rate : R;
  vocab : list ascii;
  stoi : dict ascii nat;
  itos : dict nat ascii;
  dataset : Dataset;
  E : Matrix;
  W1 : Matrix;
  b1 : Vector;
  W2 : Matrix;
  b2 : Vector
}.

(** The forward cache, a dictionary with five fixed keys in the source. *)
Record Cache : Type := mkCache {
  x_indices : list nat;
  x_flat : Vector;
  hidden : Vector;
  hidden_raw : Vector;
  probs : Vector
}.

(** *** Data preparation *)

Definition _build_vocab (text : str) : list ascii * dict ascii nat * dict nat ascii :=
  let vocab := sorted (py_set text) in
  let stoi :=
    fold_left (fun d ic => dict_set Ascii.eqb d (snd ic) (fst ic)) (enumerate vocab) [] in
  let itos := fold_left (fun d ci => dict_set Nat.eqb d (snd ci) (fst ci)) stoi [] in
  (vocab, stoi, itos).

Definition encode_with (stoi : dict ascii nat) (chars : str) : result (list nat) :=
  mapM (dict_get Ascii.eqb stoi) chars.

Definition _encode (self : TinyLLM) (chars : str) : result (list nat) :=
  encode_with (stoi self) chars.

(** [_build_dataset] runs inside [__init__], when only [context] and
    [stoi] of the object are in place; they are its arguments here. *)
Definition _build_dataset (context : nat) (stoi : dict ascii nat) (text : str)
  : result Dataset :=
  ' (ins, tgs) <-
    for_range (length text - context)
      (fun i acc =>
         let window := py_slice text i (i + context) in
         target <- getitem text (i + context) ;;
         enc <- encode_with stoi window ;;
         t <- dict_get Ascii.eqb stoi target ;;
         Ok (fst acc ++ [enc], snd acc ++ [t]))
      ([], []) ;;
  Ok (mkDataset ins tgs).

(** [TinyLLM.__init__]; [rnd] is the value stream of the generator after
    the optional [random.seed(seed)]. *)
Definition __init__ (rnd : draws) (text : str) (context embed_dim hidden_dim : nat)
    (learning_rate : R) : result TinyLLM :=
  if (length text <=? context)%nat
  then Raise (ValueError "Training text must be longer than context window")
  else
    let '(vocab, stoi, itos) := _build_vocab text in
    dataset <- _build_dataset context stoi text ;;
    let vocab_size := length vocab in
    let input_dim := (context * embed_dim)%nat in
    let (E, k1) := random_matrix rnd vocab_size embed_dim (5 / 10) 0 in
    let (W1, k2) := random_matrix rnd hidden_dim input_dim (1 / 10) k1 in
    let b1 := repeat 0 hidden_dim in
    let (W2, k3) := random_matrix rnd vocab_size hidden_dim (1 / 10) k2 in
    let b2 := repeat 0 vocab_size in
    Ok (mkTinyLLM context embed_dim hidden_dim learning_rate vocab stoi itos dataset
          E W1 b1 W2 b2).

(** *** Forward pass *)

Definition _forward (self : TinyLLM) (x_idx : list nat) : result (Vector * Cache) :=
  embed_vectors <- mapM (getitem (E self)) x_idx ;;
  let x_flat := concat embed_vectors in
  hidden_raw <- add_inplace (matvec (W1 self) x_flat) (b1 self) ;;
  let hidden := relu hidden_raw in
  logits <- add_inplace (matvec (W2 self) hidden) (b2 self) ;;
  probs <- softmax logits ;;
  Ok (probs, mkCache x_idx x_flat hidden hidden_raw probs).

(** *** Backward pass *)

(** Lines 155-189 of [_backward]: everything up to the gradient of the
    flattened input.  Returns [(grad_W1, grad_b1, grad_W2, grad_b2,
    grad_x_flat)]. *)
Definition backward_dense (self : TinyLLM) (cache : Cache) (target_idx : nat)
  : result (Matrix * Vector * Matrix * Vector * Vector) :=
  let vocab_size := length (vocab self) in
  let input_dim := (context self * embed_dim self)%nat in
  g <- getitem (probs cache) target_idx ;;
  grad_logits <- setitem (probs cache) target_idx (g - 1) ;;
  let grad_b2 := grad_logits in
  ' (grad_W2, grad_hidden) <-
    for_range vocab_size
      (fun i st =>
         for_range (hidden_dim self)
           (fun j st =>
              gl <- getitem grad_logits i ;;
              h <- getitem (hidden cache) j ;;
              gW2 <- setitem2 (fst st) i j (gl * h) ;;
              gh <- getitem (snd st) j ;;
              w <- getitem2 (W2 self) i j ;;
              gh' <- setitem (snd st) j (gh + w * gl) ;;
              Ok (gW2, gh'))
           st)
      (zeros vocab_size (hidden_dim self), repeat 0 (hidden_dim self)) ;;
  grad_hidden <-
    for_each (enumerate (hidden_raw cache))
      (fun jr gh => if Rle_dec (snd jr) 0 then setitem gh (fst jr) 0 else Ok gh)
      grad_hidden ;;
  let grad_b1 := grad_hidden in
  ' (grad_W1, grad_x_flat) <-
    for_range (hidden_dim self)
      (fun j st =>
         for_range input_dim
           (fun k st =>
              gh <- getitem grad_hidden j ;;
              x <- getitem (x_flat cache) k ;;
              gW1 <- setitem2 (fst st) j k (gh * x) ;;
              gx <- getitem (snd st) k ;;
              w <- getitem2 (W1 self) j k ;;
              gx' <- setitem (snd st) k (gx + w * gh) ;;
              Ok (gW1, gx'))
           st)
      (zeros (hidden_dim self) input_dim, repeat 0 input_dim) ;;
  Ok (grad_W1, grad_b1, grad_W2, grad_b2, grad_x_flat).

(** Lines 191-194 of [_backward]: the embedding gradient. *)
Definition embedding_grad (self : TinyLLM) (x_indices : list nat) (grad_x_flat : Vector)
  : result Matrix :=
  for_each (enumerate x_indices)
    (fun pv gE =>
       for_range (embed_dim self)
         (fun d gE =>
            cur <- getitem2 gE (snd pv) d ;;
            x <- getitem grad_x_flat (fst pv * embed_dim self + d) ;;
            setitem2 gE (snd pv) d (cur + x))
         gE)
    (zeros (length (vocab self)) (embed_dim self)).

Definition Grads : Type := (Matrix * Matrix * Vector * Matrix * Vector)%type.

Definition _backward (self : TinyLLM) (cache : Cache) (target_idx : nat) : result Grads :=
  ' (grad_W1, grad_b1, grad_W2, grad_b2, grad_x_flat) <-
    backward_dense self cache target_idx ;;
  grad_E <- embedding_grad self (x_indices cache) grad_x_flat ;;
  Ok (grad_E, grad_W1, grad_b1, grad_W2, grad_b2).

(** *** Training *)

(** [for i in range(rows): for j in range(cols): m[i][j] = f(m[i][j], g[i][j])] *)
Definition mat_update (rows cols : nat) (f : R -> R -> R) (m g : Matrix) : result Matrix :=
  for_range rows
    (fun i m =>
       for_range cols
         (fun j m =>
            a <- getitem2 m i j ;;
            b <- getitem2 g i j ;;
            setitem2 m i j (f a b))
         m)
    m.

(** The same loop with the bias line [v[i] = f(v[i], gv[i])] after the
    inner loop, as in the [W1]/[b1] and [W2]/[b2] loops. *)
Definition mat_vec_update (rows cols : nat) (f : R -> R -> R)
    (m g : Matrix) (v gv : Vector) : result (Matrix * Vector) :=
  for_range rows
    (fun i st =>
       m' <- for_range cols
               (fun j m =>
                  a <- getitem2 m i j ;;
                  b <- getitem2 g i j ;;
                  setitem2 m i j (f a b))
               (fst st) ;;
       a <- getitem (snd st) i ;;
       b <- getitem gv i ;;
       v' <- setitem (snd st) i (f a b) ;;
       Ok (m', v'))
    (m, v).

Definition _apply_grads (self : TinyLLM) (grads : Grads) : result TinyLLM :=
  let '(grad_E, grad_W1, grad_b1, grad_W2, grad_b2) := grads in
  let lr := learning_rate self in
  let step := fun p g => p - lr * g in
  E' <- mat_update (length (E self)) (embed_dim self) step (E self) grad_E ;;
  ' (W1', b1') <-
    mat_vec_update (hidden_dim self) (context self * embed_dim self) step
      (W1 self) grad_W1 (b1 self) grad_b1 ;;
  ' (W2', b2') <-
    mat_vec_update (length (vocab self)) (hidden_dim self) step
      (W2 self) grad_W2 (b2 self) grad_b2 ;;
  Ok (mkTinyLLM (context self) (embed_dim self) (hidden_dim self) (learning_rate self)
        (vocab self) (stoi self) (itos self) (dataset self) E' W1' b1' W2' b2').

(** The guard constant [1e-12]. *)
Definition eps : R := / 1000000000000.

(** The accumulators of one epoch: the running loss and the five
    running gradient totals. *)
Definition accumulate (self : TinyLLM) (xt : list nat * nat) (acc : R * Grads)
  : result (R * Grads) :=
  let '(total_loss, (tE, tW1, tb1, tW2, tb2)) := acc in
  ' (probs, cache) <- _forward self (fst xt) ;;
  p <- getitem probs (snd xt) ;;
  l <- py_log (p + eps) ;;
  ' (gE, gW1, gb1, gW2, gb2) <- _backward self cache (snd xt) ;;
  tE' <- mat_update (length (vocab self)) (embed_dim self) Rplus tE gE ;;
  ' (tW1', tb1') <-
    mat_vec_update (hidden_dim self) (context self * embed_dim self) Rplus
      tW1 gW1 tb1 gb1 ;;
  ' (tW2', tb2') <-
    mat_vec_update (length (vocab self)) (hidden_dim self) Rplus tW2 gW2 tb2 gb2 ;;
  Ok (total_loss + - l, (tE', tW1', tb1', tW2', tb2')).

(** [for i ...: for j ...: m[i][j] *= c] *)
Definition mat_scale (rows cols : nat) (c : R) (m : Matrix) : result Matrix :=
  for_range rows
    (fun i m =>
       for_range cols
         (fun j m => a <- getitem2 m i j ;; setitem2 m i j (a * c))
         m)
    m.

Definition mat_vec_scale (rows cols : nat) (c : R) (m : Matrix) (v : Vector)
  : result (Matrix * Vector) :=
  for_range rows
    (fun i st =>
       m' <- for_range cols
               (fun j m => a <- getitem2 m i j ;; setitem2 m i j (a * c))
               (fst st) ;;
       a <- getitem (snd st) i ;;
       v' <- setitem (snd st) i (a * c) ;;
       Ok (m', v'))
    (m, v).

(** The totals of one pass over the dataset, before averaging. *)
Definition epoch_totals (self : TinyLLM) : result (R * Grads) :=
  for_each (combine (inputs (dataset self)) (targets (dataset self)))
    (accumulate self)
    (0, (zeros (length (vocab self)) (embed_dim self),
         zeros (hidden_dim self) (context self * embed_dim self),
         repeat 0 (hidden_dim self),
         zeros (length (vocab self)) (hidden_dim self),
         repeat 0 (length (vocab self)))).

(** The mean gradient of one epoch: lines 228-266 of [train]. *)
Definition epoch_grads (self : TinyLLM) (num_samples : nat) : result (R * Grads) :=
  ' (total_loss, (tE, tW1, tb1, tW2, tb2)) <- epoch_totals self ;;
  inv_n <- py_div 1 (INR num_samples) ;;
  aE <- mat_scale (length (vocab self)) (embed_dim self) inv_n tE ;;
  ' (aW1, ab1) <-
    mat_vec_scale (hidden_dim self) (context self * embed_dim self) inv_n tW1 tb1 ;;
  ' (aW2, ab2) <- mat_vec_scale (length (vocab self)) (hidden_dim self) inv_n tW2 tb2 ;;
  Ok (total_loss, (aE, aW1, ab1, aW2, ab2)).

(** [epoch % report_every] on Python integers. *)
Definition py_mod (a b : Z) : result Z :=
  if (b =? 0)%Z then Raise ZeroDivisionError else Ok (a mod b)%Z.

(** The body of the epoch loop.  The progress line itself is not
    modelled; the arithmetic that produces it is. *)
Definition train_epoch (num_samples : nat) (report_every : Z) (epoch : nat)
    (self : TinyLLM) : result TinyLLM :=
  ' (total_loss, grads) <- epoch_grads self num_samples ;;
  self' <- _apply_grads self grads ;;
  r <- py_mod (Z.of_nat epoch) report_every ;;
  if (r =? 0)%Z
  then avg_loss <- py_div total_loss (INR num_samples) ;; Ok self'
  else Ok self'.

Definition train (self : TinyLLM) (epochs report_every : Z) : result TinyLLM :=
  let num_samples := length (inputs (dataset self)) in
  for_range_from 1 (Z.to_nat epochs) (train_epoch num_samples report_every) self.

(** *** Evaluation *)

Definition loss (self : TinyLLM) : result R :=
  total_loss <-
    for_each (combine (inputs (dataset self)) (targets (dataset self)))
      (fun xt total_loss =>
         ' (probs, _) <- _forward self (fst xt) ;;
         p <- getitem probs (snd xt) ;;
         l <- py_log (p + eps) ;;
         Ok (total_loss + - l))
      0 ;;
  py_div total_loss (INR (length (inputs (dataset self)))).

(** *** Generation *)

Definition nat_to_str (n : nat) : string := NilEmpty.string_of_uint (Nat.to_uint n).

Definition predict_next (self : TinyLLM) (context_text : str) : result (ascii * Vector) :=
  if negb (length context_text =? context self)%nat
  then Raise (ValueError ("context_text must be length " ++ nat_to_str (context self)))
  else
    idxs <- _encode self context_text ;;
    ' (probs, _) <- _forward self idxs ;;
    best <- py_max_key (length probs) (fun i => nth i probs 0) ;;
    ch <- dict_get Nat.eqb (itos self) best ;;
    Ok (ch, probs).

Definition newline : ascii := "010"%char.

(** The generation loop, with its [break] on a newline. *)
Fixpoint sample_loop (self : TinyLLM) (n : nat) (generated : str) : result str :=
  match n with
  | O => Ok generated
  | S n' =>
      ' (next_ch, _) <- predict_next self (py_last (context self) generated) ;;
      let generated := generated ++ [next_ch] in
      if Ascii.eqb next_ch newline then Ok generated else sample_loop self n' generated
  end.

Definition sample (self : TinyLLM) (seed : str) (max_new : Z) : result str :=
  let seed := if (length seed <? context self)%nat then rjust seed (context self) else seed in
  let seed := py_last (context self) seed in
  sample_loop self (Z.to_nat max_new) seed.

(** * Vocabulary of the specifications *)

(** [m] has [r] rows of [c] columns each. *)
Definition shape (r c : nat) (m : Matrix) : Prop :=
  length m = r /\ forall i, (i < r)%nat -> length (nth i m []) = c.

(** The value of [m[i][j]]. *)
Definition el (m : Matrix) (i j : nat) : R := nth j (nth i m []) 0.

(** [m] after [m[i][j] = v]. *)
Definition mset (m : Matrix) (i j : nat) (v : R) : Matrix :=
  replace_nth m i (replace_nth (nth i m []) j v).

(** What one pass of an inner loop over row [i] achieves: cell [j] of
    the row becomes [phi j] of its old value, other rows are kept. *)
Definition row_spec (rows cols i : nat) (phi : nat -> R -> R) (m0 m' : Matrix) : Prop :=
  shape rows cols m' /\
  (forall j, (j < cols)%nat -> el m' i j = phi j (el m0 i j)) /\
  (forall i' j, i' <> i -> el m' i' j = el m0 i' j).

(** The context positions that hold vocabulary index [v], ascending. *)
Definition positions_of (v : nat) (xs : list nat) : list nat :=
  map fst (filter (fun pv => (snd pv =? v)%nat) (enumerate xs)).

(** The invariant of model objects: the symbol tables mirror the
    vocabulary, the tensors have the shapes fixed at construction and
    the dataset holds windows of valid indices.  [__init__] establishes
    it and every update of [train] keeps it. *)
Record wf_model (m : TinyLLM) : Prop := mk_wf {
  wf_vocab : vocab m <> [];
  wf_stoi : forall c i,
      dict_get Ascii.eqb (stoi m) c = Ok i <-> nth_error (vocab m) i = Some c;
  wf_itos : forall c i,
      nth_error (vocab m) i = Some c -> dict_get Nat.eqb (itos m) i = Ok c;
  wf_E : shape (length (vocab m)) (embed_dim m) (E m);
  wf_W1 : shape (hidden_dim m) (context m * embed_dim m) (W1 m);
  wf_b1 : length (b1 m) = hidden_dim m;
  wf_W2 : shape (length (vocab m)) (hidden_dim m) (W2 m);
  wf_b2 : length (b2 m) = length (vocab m);
  wf_inputs :
    Forall (fun x => length x = context m /\
                     Forall (fun i => (i < length (vocab m))%nat) x)
      (inputs (dataset m));
  wf_targets : Forall (fun t => (t < length (vocab m))%nat) (targets (dataset m));
  wf_pairs : length (inputs (dataset m)) = length (targets (dataset m))
}.

(** The index a symbol table assigns to a character. *)
Definition index_in (stoi : dict ascii nat) (c : ascii) : nat :=
  match dict_get Ascii.eqb stoi c with
  | Ok i => i
  | Raise _ => 0%nat
  end.

(** What [__init__] returns when the text is long enough. *)
Definition built (rnd : draws) (text : str) (context embed_dim hidden_dim : nat)
    (learning_rate : R) : TinyLLM :=
  let vocab := sorted (py_set text) in
  let stoi := map (fun ic => (snd ic, fst ic)) (enumerate vocab) in
  let r1 := random_matrix rnd (length vocab) embed_dim (5 / 10) 0 in
  let r2 := random_matrix rnd hidden_dim (context * embed_dim) (1 / 10) (snd r1) in
  let r3 := random_matrix rnd (length vocab) hidden_dim (1 / 10) (snd r2) in
  mkTinyLLM context embed_dim hidden_dim learning_rate vocab stoi (enumerate vocab)
    (mkDataset
       (map (fun i => map (index_in stoi) (py_slice text i (i + context)))
          (seq 0 (length text - context)))
       (map (fun i => index_in stoi (nth (i + context) text " "%char))
          (seq 0 (length text - context))))
    (fst r1) (fst r2) (repeat 0 hidden_dim) (fst r3) (repeat 0 (length vocab)).

(** The elements of the five parameter tensors. *)
Inductive slot : Type :=
| in_E (i j : nat)
| in_W1 (i j : nat)
| in_b1 (i : nat)
| in_W2 (i j : nat)
| in_b2 (i : nat).

(** The slots that exist in a model of the given dimensions. *)
Definition in_range (m : TinyLLM) (s : slot) : Prop :=
  match s with
  | in_E i j => (i < length (vocab m))%nat /\ (j < embed_dim m)%nat
  | in_W1 i j => (i < hidden_dim m)%nat /\ (j < context m * embed_dim m)%nat
  | in_b1 i => (i < hidden_dim m)%nat
  | in_W2 i j => (i < length (vocab m))%nat /\ (j < hidden_dim m)%nat
  | in_b2 i => (i < length (vocab m))%nat
  end.

(** The parameter, and the gradient, stored at a slot. *)
Definition param_at (m : TinyLLM) (s : slot) : R :=
  match s with
  | in_E i j => el (E m) i j
  | in_W1 i j => el (W1 m) i j
  | in_b1 i => nth i (b1 m) 0
  | in_W2 i j => el (W2 m) i j
  | in_b2 i => nth i (b2 m) 0
  end.

Definition grad_at (g : Grads) (s : slot) : R :=
  let '(gE, gW1, gb1, gW2, gb2) := g in
  match s with
  | in_E i j => el gE i j
  | in_W1 i j => el gW1 i j
  | in_b1 i => nth i gb1 0
  | in_W2 i j => el gW2 i j
  | in_b2 i => nth i gb2 0
  end.

(** Gradient tensors with the shapes of the parameters. *)
Definition grads_shaped (m : TinyLLM) (g : Grads) : Prop :=
  let '(gE, gW1, gb1, gW2, gb2) := g in
  shape (length (vocab m)) (embed_dim m) gE /\
  shape (hidden_dim m) (context m * embed_dim m) gW1 /\
  length gb1 = hidden_dim m /\
  shape (length (vocab m)) (hidden_dim m) gW2 /\
  length gb2 = length (vocab m).

(** The gradient of one dataset pair at the current parameters. *)
Definition sample_grads (self : TinyLLM) (xt : list nat * nat) : result Grads :=
  ' (p, cache) <- _forward self (fst xt) ;; _backward self cache (snd xt).

(** A training pair: [context] valid indices and a valid target. *)
Definition valid_pair (m : TinyLLM) (xt : list nat * nat) : Prop :=
  length (fst xt) = context m /\
  Forall (fun i => (i < length (vocab m))%nat) (fst xt) /\
  (snd xt < length (vocab m))%nat.

(** The dataset as the training loop reads it: [zip(inputs, targets)]. *)
Definition dataset_pairs (m : TinyLLM) : list (list nat * nat) :=
  combine (inputs (dataset m)) (targets (dataset m)).

(** What the update leaves alone. *)
Definition same_frame (m m' : TinyLLM) : Prop :=
  context m' = context m /\ embed_dim m' = embed_dim m /\
  hidden_dim m' = hidden_dim m /\ learning_rate m' = learning_rate m /\
  vocab m' = vocab m /\ stoi m' = stoi m /\ itos m' = itos m /\
  dataset m' = dataset m.

(** One full-batch gradient-descent step from [m] to [m']: the
    gradients of all dataset pairs are taken at the parameters of [m],
    and every parameter element moves against their mean; nothing else
    changes and the tensors keep their shapes. *)
Definition full_batch_step (m m' : TinyLLM) : Prop :=
  exists gs,
    mapM (sample_grads m) (dataset_pairs m) = Ok gs /\
    same_frame m m' /\
    wf_model m' /\
    forall s, in_range m s ->
      param_at m' s =
      param_at m s -
      learning_rate m *
        (py_sum (map (fun g => grad_at g s) gs) / INR (length (dataset_pairs m))).

(** [steps n m m']: [n] full-batch steps in sequence lead from [m] to [m']. *)
Inductive steps : nat -> TinyLLM -> TinyLLM -> Prop :=
| steps_done (m : TinyLLM) : steps 0 m m
| steps_more (n : nat) (m1 m2 m3 : TinyLLM) :
    full_batch_step m1 m2 -> steps n m2 m3 -> steps (S n) m1 m3.

(** Every character of [s] occurs in the vocabulary. *)
Definition in_vocab (m : TinyLLM) (s : str) : Prop :=
  Forall (fun c => In c (vocab m)) s.

(** The string generation starts from: the seed, left-padded when it
    is shorter than the context, cut to its last [context] characters. *)
Definition initial_window (m : TinyLLM) (seed : str) : str :=
  py_last (context m)
    (if (length seed <? context m)%nat then rjust seed (context m) else seed).

(** Every character of [suffix] is the greedy prediction from the
    last [context] characters of what precedes it. *)
Definition greedy_suffix (m : TinyLLM) (g suffix : str) : Prop :=
  forall k, (k < length suffix)%nat ->
    exists p, predict_next m (py_last (context m) (g ++ firstn k suffix)) =
              Ok (nth k suffix newline, p).

(** The scenario of the test suite: text ["abcabcabc"], [context = 2],
    [embed_dim = 3], [hidden_dim = 6], [learning_rate = 0.3], with a
    generator that always draws zero. *)
Definition demo_text : str := list_ascii_of_string "abcabcabc".

Definition demo : TinyLLM := built (fun _ => 0) demo_text 2 3 6 (3 / 10).

(** The models a program can hold: the one [__init__] returns, and
    the one left by each parameter update of [train]. *)
Inductive reachable (rnd : draws) (text : str) (ctx embed hid : nat) (lr : R)
  : TinyLLM -> Prop :=
| reach_init (m : TinyLLM) :
    __init__ rnd text ctx embed hid lr = Ok m -> reachable rnd text ctx embed hid lr m
| reach_update (m m' : TinyLLM) (total : R) (g : Grads) :
    reachable rnd text ctx embed hid lr m ->
    epoch_grads m (length (inputs (dataset m))) = Ok (total, g) ->
    _apply_grads m g = Ok m' ->
    reachable rnd text ctx embed hid lr m'.

(** Strict order of characters by code point. *)
Definition char_lt (a b : ascii) : Prop := (nat_of_ascii a < nat_of_ascii b)%nat.

(** Looking a list of indices up in [itos], one by one. *)
Definition decode (m : TinyLLM) (idxs : list nat) : result str :=
  mapM (dict_get Nat.eqb (itos m)) idxs.

(** The sum of products [matvec] forms for one row. *)
Definition dot (row vec : Vector) : R :=
  py_sum (map (fun mv => fst mv * snd mv) (combine row vec)).

(** * Properties *)

(** ** Index reads and writes *)

Lemma bind_ok {A B : Type} (r : result A) (k : A -> result B) (b : B) :
  bind r k = Ok b -> exists a, r = Ok a /\ k a = Ok b.
Proof. destruct r as [a|e]; simpl; intros H; [eauto | discriminate]. Qed.

Lemma getitem_ok {A : Type} (l : list A) (i : nat) (d : A) :
  (i < length l)%nat -> getitem l i = Ok (nth i l d).
Proof.
  intros H. unfold getitem.
  rewrite (nth_error_nth' l d H). reflexivity.
Qed.

Lemma getitem_inv {A : Type} (l : list A) (i : nat) (a : A) :
  getitem l i = Ok a -> nth_error l i = Some a.
Proof. unfold getitem. destruct (nth_error l i); intros H; inversion H; reflexivity. Qed.

Lemma getitem_out {A : Type} (l : list A) (i : nat) :
  (length l <= i)%nat -> getitem l i = Raise IndexError.
Proof.
  intros H. unfold getitem.
  apply nth_error_None in H. rewrite H. reflexivity.
Qed.

Lemma setitem_ok {A : Type} (l : list A) (i : nat) (v : A) :
  (i < length l)%nat -> setitem l i v = Ok (replace_nth l i v).
Proof.
  intros H. unfold setitem.
  destruct (Nat.ltb_spec i (length l)); [reflexivity | lia].
Qed.

Lemma length_replace_nth {A : Type} (l : list A) (i : nat) (v : A) :
  length (replace_nth l i v) = length l.
Proof.
  revert i; induction l as [|h t IH]; intros [|i]; simpl; auto.
Qed.

Lemma nth_replace_nth_eq {A : Type} (l : list A) (i : nat) (v d : A) :
  (i < length l)%nat -> nth i (replace_nth l i v) d = v.
Proof.
  revert i; induction l as [|h t IH]; intros [|i] H; simpl in *; try lia; auto.
  apply IH; lia.
Qed.

Lemma nth_replace_nth_neq {A : Type} (l : list A) (i j : nat) (v d : A) :
  i <> j -> nth j (replace_nth l i v) d = nth j l d.
Proof.
  revert i j; induction l as [|h t IH]; intros [|i] [|j] H; simpl; auto; try lia.
Qed.

(** ** Loops carry invariants *)

Lemma for_range_from_inv {St : Type} (P : nat -> St -> Prop)
    (body : nat -> St -> result St) (n start : nat) (s0 : St) :
  P start s0 ->
  (forall i s, (start <= i < start + n)%nat -> P i s ->
               exists s', body i s = Ok s' /\ P (S i) s') ->
  exists s', for_range_from start n body s0 = Ok s' /\ P (start + n)%nat s'.
Proof.
  revert start s0. induction n as [|n IH]; intros start s0 H0 Hstep; simpl.
  - exists s0. rewrite Nat.add_0_r. auto.
  - destruct (Hstep start s0) as [s1 [Hb H1]]; [lia | exact H0 |].
    rewrite Hb. simpl.
    destruct (IH (S start) s1 H1) as [s2 [Hr H2]].
    + intros i s Hi Hs. apply Hstep; [lia | exact Hs].
    + exists s2. split; [exact Hr |].
      replace (start + S n)%nat with (S start + n)%nat by lia. exact H2.
Qed.

Lemma for_range_inv {St : Type} (P : nat -> St -> Prop)
    (body : nat -> St -> result St) (n : nat) (s0 : St) :
  P 0%nat s0 ->
  (forall i s, (i < n)%nat -> P i s -> exists s', body i s = Ok s' /\ P (S i) s') ->
  exists s', for_range n body s0 = Ok s' /\ P n s'.
Proof.
  intros H0 Hstep.
  destruct (for_range_from_inv P body n 0 s0 H0) as [s' [Hr Hp]].
  - intros i s Hi. apply Hstep. lia.
  - exists s'. split; assumption.
Qed.

(** ** Matrices: shape, element, single-cell update *)

Lemma getitem2_ok (r c : nat) (m : Matrix) (i j : nat) :
  shape r c m -> (i < r)%nat -> (j < c)%nat -> getitem2 m i j = Ok (el m i j).
Proof.
  intros [Hl Hr] Hi Hj. unfold getitem2, el.
  rewrite (getitem_ok m i []) by lia. simpl.
  apply getitem_ok. rewrite Hr by lia. exact Hj.
Qed.

Lemma setitem2_ok (r c : nat) (m : Matrix) (i j : nat) (v : R) :
  shape r c m -> (i < r)%nat -> (j < c)%nat -> setitem2 m i j v = Ok (mset m i j v).
Proof.
  intros [Hl Hr] Hi Hj. unfold setitem2, mset.
  rewrite (getitem_ok m i []) by lia. simpl.
  rewrite setitem_ok by (rewrite Hr by lia; exact Hj). simpl.
  apply setitem_ok. lia.
Qed.

Lemma shape_mset (r c : nat) (m : Matrix) (i j : nat) (v : R) :
  shape r c m -> shape r c (mset m i j v).
Proof.
  intros [Hl Hr]. unfold mset. split.
  - rewrite length_replace_nth. exact Hl.
  - intros k Hk. destruct (Nat.eq_dec i k) as [->|Hne].
    + rewrite nth_replace_nth_eq by lia.
      rewrite length_replace_nth. apply Hr. exact Hk.
    + rewrite nth_replace_nth_neq by exact Hne. apply Hr. exact Hk.
Qed.

Lemma el_mset_same (r c : nat) (m : Matrix) (i j : nat) (v : R) :
  shape r c m -> (i < r)%nat -> (j < c)%nat -> el (mset m i j v) i j = v.
Proof.
  intros [Hl Hr] Hi Hj. unfold el, mset.
  rewrite nth_replace_nth_eq by lia.
  apply nth_replace_nth_eq. rewrite Hr by lia. exact Hj.
Qed.

Lemma el_mset_other (r c : nat) (m : Matrix) (i j i' j' : nat) (v : R) :
  shape r c m -> (i < r)%nat -> (i', j') <> (i, j) ->
  el (mset m i j v) i' j' = el m i' j'.
Proof.
  intros [Hl Hr] Hi Hne. unfold el, mset.
  destruct (Nat.eq_dec i i') as [<-|Hi'].
  - rewrite nth_replace_nth_eq by lia.
    apply nth_replace_nth_neq. intros ->. apply Hne. reflexivity.
  - rewrite nth_replace_nth_neq by exact Hi'. reflexivity.
Qed.

Lemma shape_zeros (r c : nat) : shape r c (zeros r c).
Proof.
  unfold zeros. split.
  - apply repeat_length.
  - intros i Hi. rewrite nth_repeat_lt by exact Hi. apply repeat_length.
Qed.

Lemma el_zeros (r c i j : nat) : el (zeros r c) i j = 0.
Proof.
  unfold el, zeros.
  destruct (Nat.lt_ge_cases i r) as [Hi|Hi].
  - rewrite nth_repeat_lt by exact Hi. apply nth_repeat.
  - rewrite (nth_overflow (repeat (repeat 0 c) r)).
    + destruct j; reflexivity.
    + rewrite repeat_length. exact Hi.
Qed.

(** ** Nested loops over a matrix *)

Lemma row_loop_spec (rows cols i : nat) (phi : nat -> R -> R)
    (body : nat -> Matrix -> result Matrix) (m0 : Matrix) :
  shape rows cols m0 -> (i < rows)%nat ->
  (forall j m, (j < cols)%nat -> shape rows cols m ->
               body j m = Ok (mset m i j (phi j (el m i j)))) ->
  exists m', for_range cols body m0 = Ok m' /\ row_spec rows cols i phi m0 m'.
Proof.
  intros Hs Hi Hbody.
  pose (P := fun (j : nat) (m : Matrix) =>
    shape rows cols m /\
    (forall j', (j' < j)%nat -> el m i j' = phi j' (el m0 i j')) /\
    (forall j', (j <= j')%nat -> el m i j' = el m0 i j') /\
    (forall i' j', i' <> i -> el m i' j' = el m0 i' j')).
  destruct (for_range_inv P body cols m0) as [m' [Hr [Hs' [Hdone [_ Hoth]]]]].
  - unfold P. repeat split; try apply Hs; intros; try lia; reflexivity.
  - intros j m Hj [Hsm [Hlo [Hhi Hoth]]].
    exists (mset m i j (phi j (el m i j))). split; [apply Hbody; assumption|].
    unfold P. split; [apply shape_mset; exact Hsm|]. split; [|split].
    + intros j' Hj'. destruct (Nat.eq_dec j' j) as [->|Hne].
      * rewrite (el_mset_same rows cols) by assumption.
        rewrite Hhi by lia. reflexivity.
      * rewrite (el_mset_other rows cols) by (try assumption; congruence).
        apply Hlo. lia.
    + intros j' Hj'.
      rewrite (el_mset_other rows cols) by (try assumption; intros [=]; lia).
      apply Hhi. lia.
    + intros i' j' Hne.
      rewrite (el_mset_other rows cols) by (try assumption; congruence).
      apply Hoth. exact Hne.
  - exists m'. split; [exact Hr|]. repeat split; try apply Hs'; assumption.
Qed.

Lemma mat_loop_spec (rows cols : nat) (phi : nat -> nat -> R -> R)
    (body : nat -> Matrix -> result Matrix) (m0 : Matrix) :
  shape rows cols m0 ->
  (forall i m, (i < rows)%nat -> shape rows cols m ->
               exists m', body i m = Ok m' /\ row_spec rows cols i (phi i) m m') ->
  exists m', for_range rows body m0 = Ok m' /\ shape rows cols m' /\
             forall i j, (i < rows)%nat -> (j < cols)%nat ->
                         el m' i j = phi i j (el m0 i j).
Proof.
  intros Hs Hbody.
  pose (P := fun (i : nat) (m : Matrix) =>
    shape rows cols m /\
    (forall i' j, (i' < i)%nat -> (j < cols)%nat -> el m i' j = phi i' j (el m0 i' j)) /\
    (forall i' j, (i <= i')%nat -> el m i' j = el m0 i' j)).
  destruct (for_range_inv P body rows m0) as [m' [Hr [Hs' [Hdone _]]]].
  - unfold P. split; [exact Hs|]. split; intros; [lia | reflexivity].
  - intros i m Hi [Hsm [Hlo Hhi]].
    destruct (Hbody i m Hi Hsm) as [m' [Hb [Hs' [Hrow Hoth]]]].
    exists m'. split; [exact Hb|]. unfold P. split; [exact Hs'|]. split.
    + intros i' j Hi' Hj. destruct (Nat.eq_dec i' i) as [->|Hne].
      * rewrite Hrow by exact Hj. rewrite Hhi by lia. reflexivity.
      * rewrite Hoth by exact Hne. apply Hlo; [lia | exact Hj].
    + intros i' j Hi'. rewrite Hoth by lia. apply Hhi. lia.
  - exists m'. auto.
Qed.

Lemma mat_vec_loop_spec (rows cols : nat) (phi : nat -> nat -> R -> R)
    (psi : nat -> R -> R) (body : nat -> Matrix * Vector -> result (Matrix * Vector))
    (m0 : Matrix) (v0 : Vector) :
  shape rows cols m0 -> length v0 = rows ->
  (forall i m v, (i < rows)%nat -> shape rows cols m -> length v = rows ->
     exists m', body i (m, v) = Ok (m', replace_nth v i (psi i (nth i v 0))) /\
                row_spec rows cols i (phi i) m m') ->
  exists m' v', for_range rows body (m0, v0) = Ok (m', v') /\
    shape rows cols m' /\ length v' = rows /\
    (forall i j, (i < rows)%nat -> (j < cols)%nat -> el m' i j = phi i j (el m0 i j)) /\
    (forall i, (i < rows)%nat -> nth i v' 0 = psi i (nth i v0 0)).
Proof.
  intros Hs Hv Hbody.
  pose (P := fun (i : nat) (st : Matrix * Vector) =>
    shape rows cols (fst st) /\ length (snd st) = rows /\
    (forall i' j, (i' < i)%nat -> (j < cols)%nat ->
                  el (fst st) i' j = phi i' j (el m0 i' j)) /\
    (forall i' j, (i <= i')%nat -> el (fst st) i' j = el m0 i' j) /\
    (forall i', (i' < i)%nat -> nth i' (snd st) 0 = psi i' (nth i' v0 0)) /\
    (forall i', (i <= i')%nat -> nth i' (snd st) 0 = nth i' v0 0)).
  destruct (for_range_inv P body rows (m0, v0))
    as [[m' v'] [Hr [Hs' [Hv' [Hdone [_ [Hvdone _]]]]]]].
  - unfold P; simpl. repeat split; try apply Hs; try exact Hv; intros; try lia; reflexivity.
  - intros i [m v] Hi [Hsm [Hlv [Hlo [Hhi [Hvlo Hvhi]]]]]. simpl in *.
    destruct (Hbody i m v Hi Hsm Hlv) as [m' [Hb [Hs' [Hrow Hoth]]]].
    exists (m', replace_nth v i (psi i (nth i v 0))). split; [exact Hb|].
    unfold P; simpl. split; [exact Hs'|]. split; [rewrite length_replace_nth; exact Hlv|].
    split; [|split; [|split]].
    + intros i' j Hi' Hj. destruct (Nat.eq_dec i' i) as [->|Hne].
      * rewrite Hrow by exact Hj. rewrite Hhi by lia. reflexivity.
      * rewrite Hoth by exact Hne. apply Hlo; [lia | exact Hj].
    + intros i' j Hi'. rewrite Hoth by lia. apply Hhi. lia.
    + intros i' Hi'. destruct (Nat.eq_dec i' i) as [->|Hne].
      * rewrite nth_replace_nth_eq by lia. rewrite Hvhi by lia. reflexivity.
      * rewrite nth_replace_nth_neq by congruence. apply Hvlo. lia.
    + intros i' Hi'. rewrite nth_replace_nth_neq by lia. apply Hvhi. lia.
  - exists m', v'. simpl in *. auto.
Qed.

(** The four loop shapes of [train] and [_apply_grads]. *)

Lemma mat_update_spec (rows cols : nat) (f : R -> R -> R) (m g : Matrix) :
  shape rows cols m -> shape rows cols g ->
  exists m', mat_update rows cols f m g = Ok m' /\ shape rows cols m' /\
    forall i j, (i < rows)%nat -> (j < cols)%nat -> el m' i j = f (el m i j) (el g i j).
Proof.
  intros Hm Hg. unfold mat_update.
  apply (mat_loop_spec rows cols (fun i j a => f a (el g i j))); [exact Hm|].
  intros i m1 Hi Hm1.
  apply (row_loop_spec rows cols i (fun j a => f a (el g i j))); try assumption.
  intros j m2 Hj Hm2.
  rewrite (getitem2_ok rows cols) by assumption. simpl.
  rewrite (getitem2_ok rows cols) by assumption. simpl.
  apply (setitem2_ok rows cols); assumption.
Qed.

Lemma mat_vec_update_spec (rows cols : nat) (f : R -> R -> R)
    (m g : Matrix) (v gv : Vector) :
  shape rows cols m -> shape rows cols g -> length v = rows -> length gv = rows ->
  exists m' v', mat_vec_update rows cols f m g v gv = Ok (m', v') /\
    shape rows cols m' /\ length v' = rows /\
    (forall i j, (i < rows)%nat -> (j < cols)%nat -> el m' i j = f (el m i j) (el g i j)) /\
    (forall i, (i < rows)%nat -> nth i v' 0 = f (nth i v 0) (nth i gv 0)).
Proof.
  intros Hm Hg Hv Hgv. unfold mat_vec_update.
  apply (mat_vec_loop_spec rows cols (fun i j a => f a (el g i j))
           (fun i a => f a (nth i gv 0))); try assumption.
  intros i m1 v1 Hi Hm1 Hv1. simpl.
  destruct (row_loop_spec rows cols i (fun j a => f a (el g i j))
              (fun j m => a <- getitem2 m i j ;; b <- getitem2 g i j ;;
                          setitem2 m i j (f a b)) m1 Hm1 Hi) as [m' [Hr Hspec]].
  - intros j m2 Hj Hm2.
    rewrite (getitem2_ok rows cols) by assumption. simpl.
    rewrite (getitem2_ok rows cols) by assumption. simpl.
    apply (setitem2_ok rows cols); assumption.
  - exists m'. split; [|exact Hspec].
    rewrite Hr. simpl.
    rewrite (getitem_ok v1 i 0) by lia. simpl.
    rewrite (getitem_ok gv i 0) by lia. simpl.
    rewrite setitem_ok by lia. reflexivity.
Qed.

Lemma mat_scale_spec (rows cols : nat) (c : R) (m : Matrix) :
  shape rows cols m ->
  exists m', mat_scale rows cols c m = Ok m' /\ shape rows cols m' /\
    forall i j, (i < rows)%nat -> (j < cols)%nat -> el m' i j = el m i j * c.
Proof.
  intros Hm. unfold mat_scale.
  apply (mat_loop_spec rows cols (fun _ _ a => a * c)); [exact Hm|].
  intros i m1 Hi Hm1.
  apply (row_loop_spec rows cols i (fun _ a => a * c)); try assumption.
  intros j m2 Hj Hm2.
  rewrite (getitem2_ok rows cols) by assumption. simpl.
  apply (setitem2_ok rows cols); assumption.
Qed.

Lemma mat_vec_scale_spec (rows cols : nat) (c : R) (m : Matrix) (v : Vector) :
  shape rows cols m -> length v = rows ->
  exists m' v', mat_vec_scale rows cols c m v = Ok (m', v') /\
    shape rows cols m' /\ length v' = rows /\
    (forall i j, (i < rows)%nat -> (j < cols)%nat -> el m' i j = el m i j * c) /\
    (forall i, (i < rows)%nat -> nth i v' 0 = nth i v 0 * c).
Proof.
  intros Hm Hv. unfold mat_vec_scale.
  apply (mat_vec_loop_spec rows cols (fun _ _ a => a * c) (fun _ a => a * c));
    try assumption.
  intros i m1 v1 Hi Hm1 Hv1. simpl.
  destruct (row_loop_spec rows cols i (fun _ a => a * c)
              (fun j m => a <- getitem2 m i j ;; setitem2 m i j (a * c)) m1 Hm1 Hi)
    as [m' [Hr Hspec]].
  - intros j m2 Hj Hm2.
    rewrite (getitem2_ok rows cols) by assumption. simpl.
    apply (setitem2_ok rows cols); assumption.
  - exists m'. split; [|exact Hspec].
    rewrite Hr. simpl.
    rewrite (getitem_ok v1 i 0) by lia. simpl.
    rewrite setitem_ok by lia. reflexivity.
Qed.

(** ** The embedding gradient *)

Lemma fold_left_Rplus_acc (l : list R) (a : R) :
  fold_left Rplus l a = a + fold_left Rplus l 0.
Proof.
  revert a. induction l as [|x t IH]; intros a; simpl.
  - lra.
  - rewrite IH. rewrite (IH (0 + x)). lra.
Qed.

Lemma scatter_from_spec (self : TinyLLM) (gx : Vector) (xs : list nat) (s : nat)
    (g0 : Matrix) :
  let V := length (vocab self) in
  let D := embed_dim self in
  shape V D g0 ->
  Forall (fun v => (v < V)%nat) xs ->
  ((s + length xs) * D <= length gx)%nat ->
  exists g',
    for_each (combine (seq s (length xs)) xs)
      (fun pv gE =>
         for_range D
           (fun d gE =>
              cur <- getitem2 gE (snd pv) d ;;
              x <- getitem gx (fst pv * D + d) ;;
              setitem2 gE (snd pv) d (cur + x))
           gE) g0 = Ok g' /\
    shape V D g' /\
    forall v d, (v < V)%nat -> (d < D)%nat ->
      el g' v d =
      fold_left Rplus
        (map (fun p => nth (p * D + d) gx 0)
           (map fst (filter (fun pv => (snd pv =? v)%nat) (combine (seq s (length xs)) xs))))
        (el g0 v d).
Proof.
  intros V D. revert s g0.
  induction xs as [|x xs IH]; intros s g0 Hs Hall Hlen; simpl.
  - exists g0. split; [reflexivity|]. split; [exact Hs|]. reflexivity.
  - inversion Hall as [|? ? Hx Hall']; subst. simpl in Hlen.
    destruct (row_loop_spec V D x (fun d a => a + nth (s * D + d) gx 0)
                (fun d gE => cur <- getitem2 gE x d ;;
                             y <- getitem gx (s * D + d) ;;
                             setitem2 gE x d (cur + y)) g0 Hs Hx)
      as [g1 [Hr1 [Hs1 [Hrow Hoth]]]].
    + intros d m Hd Hm.
      rewrite (getitem2_ok V D) by assumption. simpl.
      rewrite (getitem_ok gx (s * D + d) 0) by nia. simpl.
      apply (setitem2_ok V D); assumption.
    + rewrite Hr1. simpl.
      destruct (IH (S s) g1 Hs1 Hall') as [g' [Hr [Hs' Hel]]]; [simpl; lia|].
      exists g'. split; [exact Hr|]. split; [exact Hs'|].
      intros v d Hv Hd. rewrite Hel by assumption.
      destruct (Nat.eqb_spec x v) as [->|Hne]; simpl.
      * rewrite Hrow by exact Hd. reflexivity.
      * rewrite Hoth by congruence. reflexivity.
Qed.

Lemma embedding_grad_spec (self : TinyLLM) (xs : list nat) (gx : Vector) :
  let V := length (vocab self) in
  let D := embed_dim self in
  Forall (fun v => (v < V)%nat) xs ->
  (length xs * D <= length gx)%nat ->
  exists gE, embedding_grad self xs gx = Ok gE /\ shape V D gE /\
    forall v d, (v < V)%nat -> (d < D)%nat ->
      el gE v d = py_sum (map (fun p => nth (p * D + d) gx 0) (positions_of v xs)).
Proof.
  intros V D Hall Hlen.
  destruct (scatter_from_spec self gx xs 0 (zeros V D) (shape_zeros V D) Hall)
    as [gE [Hr [Hs Hel]]]; [simpl; exact Hlen|].
  exists gE. split; [exact Hr|]. split; [exact Hs|].
  intros v d Hv Hd. rewrite Hel by assumption.
  rewrite el_zeros. reflexivity.
Qed.

(** ** Sums, maxima and the softmax *)

Lemma py_sum_cons (x : R) (l : list R) : py_sum (x :: l) = x + py_sum l.
Proof. unfold py_sum. simpl. rewrite fold_left_Rplus_acc. lra. Qed.

Lemma py_sum_map_div (l : list R) (t : R) :
  py_sum (map (fun e => e / t) l) = py_sum l / t.
Proof.
  induction l as [|x l IH].
  - unfold py_sum; simpl. lra.
  - simpl. rewrite !py_sum_cons, IH. lra.
Qed.

Lemma py_sum_pos (l : list R) :
  l <> [] -> Forall (fun x => 0 < x) l -> 0 < py_sum l.
Proof.
  induction l as [|x l IH]; intros Hne Hall; [congruence|].
  inversion Hall as [|? ? Hx Hl]; subst. rewrite py_sum_cons.
  destruct l as [|y l'].
  - unfold py_sum; simpl. lra.
  - assert (0 < py_sum (y :: l')) by (apply IH; [discriminate | exact Hl]). lra.
Qed.

Lemma fold_max_spec (l : list R) (a : R) :
  let M := fold_left (fun acc v => if Rlt_dec acc v then v else acc) l a in
  a <= M /\ Forall (fun v => v <= M) l /\ (M = a \/ In M l).
Proof.
  revert a. induction l as [|x l IH]; intros a; simpl.
  - split; [lra|]. split; [constructor | left; reflexivity].
  - destruct (Rlt_dec a x) as [Hlt|Hge].
    + destruct (IH x) as [H1 [H2 H3]]. split; [lra|]. split.
      * constructor; assumption.
      * right. destruct H3 as [->|H3]; [left; reflexivity | right; exact H3].
    + destruct (IH a) as [H1 [H2 H3]]. split; [exact H1|]. split.
      * constructor; [lra | exact H2].
      * destruct H3 as [H3|H3]; [left; exact H3 | right; right; exact H3].
Qed.

(** [max(xs)] is an element of [xs] that bounds all of them. *)
Lemma py_max_spec (l : list R) :
  l <> [] -> exists M, py_max l = Ok M /\ In M l /\ Forall (fun v => v <= M) l.
Proof.
  destruct l as [|x l]; [congruence|]. intros _. simpl.
  destruct (fold_max_spec l x) as [H1 [H2 H3]].
  eexists. split; [reflexivity|]. split.
  - destruct H3 as [->|H3]; [left; reflexivity | right; exact H3].
  - constructor; assumption.
Qed.

Lemma mapM_div_ok (l : list R) (t : R) :
  t <> 0 -> mapM (fun e => py_div e t) l = Ok (map (fun e => e / t) l).
Proof.
  intros Ht. induction l as [|x l IH]; simpl; [reflexivity|].
  unfold py_div at 1. destruct (Req_dec_T t 0) as [H0|_]; [contradiction|].
  simpl. rewrite IH. reflexivity.
Qed.

(** The softmax of a non-empty vector is a probability vector, obtained
    by shifting by the maximum, exponentiating and normalising. *)
Lemma softmax_spec (vec : Vector) :
  vec <> [] ->
  exists p M,
    softmax vec = Ok p /\
    py_max vec = Ok M /\ In M vec /\ Forall (fun v => v <= M) vec /\
    p = map (fun e => e / py_sum (map (fun v => exp (v - M)) vec))
            (map (fun v => exp (v - M)) vec) /\
    length p = length vec /\
    Forall (fun x => 0 < x) p /\
    py_sum p = 1.
Proof.
  intros Hne.
  destruct (py_max_spec vec Hne) as [M [HM [Hin Hub]]].
  set (exps := map (fun v => exp (v - M)) vec).
  assert (Hexps : Forall (fun x => 0 < x) exps).
  { apply Forall_forall. intros e He. apply in_map_iff in He.
    destruct He as [v [<- _]]. apply exp_pos. }
  assert (Hex_ne : exps <> []).
  { unfold exps. destruct vec; [congruence | discriminate]. }
  assert (Htot : 0 < py_sum exps) by (apply py_sum_pos; assumption).
  exists (map (fun e => e / py_sum exps) exps), M.
  split; [|split; [exact HM|split; [exact Hin|split; [exact Hub|split; [reflexivity|]]]]].
  - unfold softmax. rewrite HM. simpl. fold exps.
    apply mapM_div_ok. lra.
  - split; [unfold exps; rewrite !length_map; reflexivity|]. split.
    + apply Forall_forall. intros q Hq. apply in_map_iff in Hq.
      destruct Hq as [e [<- He]].
      rewrite Forall_forall in Hexps. specialize (Hexps e He).
      apply Rdiv_lt_0_compat; assumption.
    + rewrite py_sum_map_div. field. lra.
Qed.

(** ** Well-formed models *)

(** ** The forward pass on a well-formed model *)

Lemma mapM_getitem_ok (m : Matrix) (r c : nat) (xs : list nat) :
  shape r c m -> Forall (fun i => (i < r)%nat) xs ->
  exists rows, mapM (getitem m) xs = Ok rows /\
               length (concat rows) = (length xs * c)%nat.
Proof.
  intros [Hl Hr] Hall. induction Hall as [|x xs Hx Hall IH]; simpl.
  - exists []. auto.
  - destruct IH as [rows [Hrows Hlen]].
    rewrite (getitem_ok m x []) by lia. simpl. rewrite Hrows. simpl.
    exists (nth x m [] :: rows). split; [reflexivity|].
    simpl. rewrite length_app, Hlen, Hr by exact Hx. reflexivity.
Qed.

Lemma add_inplace_from_ok (src : Vector) (s : nat) (target : Vector) :
  (s + length src <= length target)%nat ->
  exists r,
    for_each (combine (seq s (length src)) src)
      (fun iv tgt => t <- getitem tgt (fst iv) ;; setitem tgt (fst iv) (t + snd iv))
      target = Ok r /\
    length r = length target.
Proof.
  revert s target. induction src as [|x src IH]; intros s target Hlen; simpl.
  - exists target. auto.
  - simpl in Hlen. rewrite (getitem_ok target s 0) by lia. simpl.
    rewrite setitem_ok by lia. simpl.
    destruct (IH (S s) (replace_nth target s (nth s target 0 + x))) as [r [Hr Hl]].
    + rewrite length_replace_nth. lia.
    + exists r. split; [exact Hr|]. rewrite Hl. apply length_replace_nth.
Qed.

Lemma add_inplace_ok (target src : Vector) :
  (length src <= length target)%nat ->
  exists r, add_inplace target src = Ok r /\ length r = length target.
Proof. intros H. apply (add_inplace_from_ok src 0 target). simpl. exact H. Qed.

Lemma length_matvec (mat : Matrix) (vec : Vector) : length (matvec mat vec) = length mat.
Proof. unfold matvec. apply length_map. Qed.

Lemma length_relu (vec : Vector) : length (relu vec) = length vec.
Proof. unfold relu. apply length_map. Qed.

(** The forward pass succeeds on valid indices; the cache has the
    shapes the backward pass reads, and the output is the softmax of
    the logits. *)
Lemma forward_spec (self : TinyLLM) (x_idx : list nat) :
  wf_model self ->
  Forall (fun i => (i < length (vocab self))%nat) x_idx ->
  exists p cache logits M,
    _forward self x_idx = Ok (p, cache) /\
    probs cache = p /\ x_indices cache = x_idx /\
    length (x_flat cache) = (length x_idx * embed_dim self)%nat /\
    length (hidden cache) = hidden_dim self /\
    length (hidden_raw cache) = hidden_dim self /\
    softmax logits = Ok p /\
    py_max logits = Ok M /\ In M logits /\ Forall (fun v => v <= M) logits /\
    p = map (fun e => e / py_sum (map (fun v => exp (v - M)) logits))
            (map (fun v => exp (v - M)) logits) /\
    length p = length (vocab self) /\
    Forall (fun x => 0 < x) p /\
    py_sum p = 1 /\
    add_inplace (matvec (W2 self) (hidden cache)) (b2 self) = Ok logits.
Proof.
  intros Hwf Hx.
  destruct Hwf as [Hvoc _ _ HE [HW1 _] Hb1 [HW2 _] Hb2 _ _ _].
  destruct (mapM_getitem_ok (E self) _ _ x_idx HE Hx) as [rows [Hrows Hflat]].
  destruct (add_inplace_ok (matvec (W1 self) (concat rows)) (b1 self))
    as [hraw [Hhraw Hlraw]].
  { rewrite length_matvec. lia. }
  destruct (add_inplace_ok (matvec (W2 self) (relu hraw)) (b2 self))
    as [logits [Hlogits Hllog]].
  { rewrite length_matvec. lia. }
  rewrite length_matvec in Hlraw, Hllog.
  assert (Hne : logits <> []).
  { intros ->. simpl in Hllog. destruct (vocab self); [congruence | simpl in *; lia]. }
  destruct (softmax_spec logits Hne) as [p [M [Hsm [HM [Hin [Hub [Hp [Hlp [Hpos Hsum]]]]]]]]].
  exists p, (mkCache x_idx (concat rows) (relu hraw) hraw p), logits, M.
  unfold _forward. rewrite Hrows. simpl. rewrite Hhraw. simpl.
  rewrite Hlogits. simpl. rewrite Hsm. simpl.
  repeat split; try assumption; try reflexivity.
  - rewrite length_relu. lia.
  - lia.
  - lia.
Qed.

(** ** The backward pass on a well-formed model *)

Lemma for_range_preserve {St : Type} (Q : St -> Prop)
    (body : nat -> St -> result St) (n : nat) (s0 : St) :
  Q s0 ->
  (forall i s, (i < n)%nat -> Q s -> exists s', body i s = Ok s' /\ Q s') ->
  exists s', for_range n body s0 = Ok s' /\ Q s'.
Proof.
  intros H0 Hstep. apply (for_range_inv (fun _ => Q)); assumption.
Qed.

(** The two dense-layer loops share one shape: cell [(i, j)] of a
    gradient matrix is written and entry [j] of a running vector is
    incremented. *)
Lemma dense_loop_ok (rows cols : nat) (a b : Vector) (w : Matrix)
    (f g : R -> R -> R) :
  length a = rows -> length b = cols -> shape rows cols w ->
  exists gm gv,
    for_range rows
      (fun i st =>
         for_range cols
           (fun j st =>
              ai <- getitem a i ;;
              bj <- getitem b j ;;
              gm <- setitem2 (fst st) i j (f ai bj) ;;
              acc <- getitem (snd st) j ;;
              wij <- getitem2 w i j ;;
              gv <- setitem (snd st) j (acc + g wij ai) ;;
              Ok (gm, gv))
           st)
      (zeros rows cols, repeat 0 cols) = Ok (gm, gv) /\
    shape rows cols gm /\ length gv = cols.
Proof.
  intros Ha Hb Hw.
  pose (Q := fun st : Matrix * Vector => shape rows cols (fst st) /\ length (snd st) = cols).
  match goal with
  | |- exists gm gv, for_range rows ?body ?s0 = _ /\ _ =>
      destruct (for_range_preserve Q body rows s0) as [[gm gv] [Hr [Hs Hl]]]
  end.
  - split; simpl; [apply shape_zeros | apply repeat_length].
  - intros i st Hi HQ.
    apply (for_range_preserve Q); [exact HQ|].
    intros j [m v] Hj [Hm Hv]. simpl in *.
    rewrite (getitem_ok a i 0) by lia. simpl.
    rewrite (getitem_ok b j 0) by lia. simpl.
    rewrite (setitem2_ok rows cols) by assumption. simpl.
    rewrite (getitem_ok v j 0) by lia. simpl.
    rewrite (getitem2_ok rows cols) by assumption. simpl.
    rewrite setitem_ok by lia. simpl.
    eexists. split; [reflexivity|]. split; simpl.
    + apply shape_mset. exact Hm.
    + rewrite length_replace_nth. exact Hv.
  - exists gm, gv. auto.
Qed.

Lemma relu_mask_from_ok (raw : Vector) (s : nat) (gh : Vector) :
  (s + length raw <= length gh)%nat ->
  exists gh',
    for_each (combine (seq s (length raw)) raw)
      (fun jr gh => if Rle_dec (snd jr) 0 then setitem gh (fst jr) 0 else Ok gh)
      gh = Ok gh' /\
    length gh' = length gh.
Proof.
  revert s gh. induction raw as [|x raw IH]; intros s gh Hlen; simpl.
  - exists gh. auto.
  - simpl in Hlen. destruct (Rle_dec x 0).
    + rewrite setitem_ok by lia. simpl.
      destruct (IH (S s) (replace_nth gh s 0)) as [gh' [Hr Hl]].
      * rewrite length_replace_nth. lia.
      * exists gh'. split; [exact Hr|]. rewrite Hl. apply length_replace_nth.
    + simpl. apply IH. lia.
Qed.

Lemma backward_dense_ok (self : TinyLLM) (cache : Cache) (target_idx : nat) :
  wf_model self ->
  length (probs cache) = length (vocab self) ->
  length (hidden cache) = hidden_dim self ->
  length (hidden_raw cache) = hidden_dim self ->
  length (x_flat cache) = (context self * embed_dim self)%nat ->
  (target_idx < length (vocab self))%nat ->
  exists gW1 gb1 gW2 gb2 gx,
    backward_dense self cache target_idx = Ok (gW1, gb1, gW2, gb2, gx) /\
    shape (hidden_dim self) (context self * embed_dim self) gW1 /\
    length gb1 = hidden_dim self /\
    shape (length (vocab self)) (hidden_dim self) gW2 /\
    length gb2 = length (vocab self) /\
    length gx = (context self * embed_dim self)%nat.
Proof.
  intros Hwf Hp Hh Hraw Hx Ht.
  destruct Hwf as [_ _ _ _ HW1 _ HW2 _ _ _ _].
  unfold backward_dense.
  rewrite (getitem_ok (probs cache) target_idx 0) by lia. simpl.
  rewrite setitem_ok by lia. simpl.
  set (gl := replace_nth (probs cache) target_idx (nth target_idx (probs cache) 0 - 1)).
  assert (Hgl : length gl = length (vocab self)).
  { unfold gl. rewrite length_replace_nth. exact Hp. }
  destruct (dense_loop_ok (length (vocab self)) (hidden_dim self) gl (hidden cache)
              (W2 self) Rmult Rmult Hgl Hh HW2) as [gW2 [gh [Hr2 [Hs2 Hlgh]]]].
  rewrite Hr2. simpl.
  destruct (relu_mask_from_ok (hidden_raw cache) 0 gh) as [gh' [Hrm Hlgh']];
    [simpl; lia|].
  unfold enumerate. rewrite Hrm. simpl.
  assert (Hgh' : length gh' = hidden_dim self) by lia.
  destruct (dense_loop_ok (hidden_dim self) (context self * embed_dim self) gh'
              (x_flat cache) (W1 self) Rmult Rmult Hgh' Hx HW1)
    as [gW1 [gx [Hr1 [Hs1 Hlgx]]]].
  rewrite Hr1. simpl.
  exists gW1, gh', gW2, gl, gx. repeat split; try assumption; try apply Hs1; try apply Hs2.
Qed.

(** The whole backward pass: it succeeds, its five results have the
    shapes of the parameters, and the embedding gradient is the
    scatter-accumulation of the flattened-input gradient. *)
Lemma backward_spec (self : TinyLLM) (cache : Cache) (target_idx : nat) :
  wf_model self ->
  length (probs cache) = length (vocab self) ->
  length (hidden cache) = hidden_dim self ->
  length (hidden_raw cache) = hidden_dim self ->
  length (x_flat cache) = (context self * embed_dim self)%nat ->
  length (x_indices cache) = context self ->
  Forall (fun v => (v < length (vocab self))%nat) (x_indices cache) ->
  (target_idx < length (vocab self))%nat ->
  exists gE gW1 gb1 gW2 gb2 gx,
    backward_dense self cache target_idx = Ok (gW1, gb1, gW2, gb2, gx) /\
    _backward self cache target_idx = Ok (gE, gW1, gb1, gW2, gb2) /\
    shape (length (vocab self)) (embed_dim self) gE /\
    shape (hidden_dim self) (context self * embed_dim self) gW1 /\
    length gb1 = hidden_dim self /\
    shape (length (vocab self)) (hidden_dim self) gW2 /\
    length gb2 = length (vocab self) /\
    forall v d, (v < length (vocab self))%nat -> (d < embed_dim self)%nat ->
      el gE v d =
      py_sum (map (fun p => nth (p * embed_dim self + d) gx 0)
                (positions_of v (x_indices cache))).
Proof.
  intros Hwf Hp Hh Hraw Hx Hxi Hall Ht.
  destruct (backward_dense_ok self cache target_idx Hwf Hp Hh Hraw Hx Ht)
    as [gW1 [gb1 [gW2 [gb2 [gx [Hd [Hs1 [Hl1 [Hs2 [Hl2 Hlx]]]]]]]]]].
  destruct (embedding_grad_spec self (x_indices cache) gx Hall)
    as [gE [HgE [HsE Hel]]]; [rewrite Hxi, Hlx; lia|].
  exists gE, gW1, gb1, gW2, gb2, gx.
  split; [exact Hd|]. split.
  - unfold _backward. rewrite Hd. simpl. rewrite HgE. reflexivity.
  - repeat split; try assumption; try apply HsE; try apply Hs1; try apply Hs2.
Qed.

(** ** Vocabulary and symbol tables *)

Lemma py_set_In (text : str) (c : ascii) : In c (py_set text) <-> In c text.
Proof.
  induction text as [|a t IH]; simpl; [tauto|].
  destruct (existsb (Ascii.eqb a) (py_set t)) eqn:Hex.
  - apply existsb_exists in Hex. destruct Hex as [x [Hx Heq]].
    apply Ascii.eqb_eq in Heq. subst x. rewrite IH. split; [tauto|].
    intros [<-|H]; [apply IH; exact Hx | exact H].
  - simpl. rewrite IH. tauto.
Qed.

Lemma py_set_NoDup (text : str) : NoDup (py_set text).
Proof.
  induction text as [|a t IH]; simpl; [constructor|].
  destruct (existsb (Ascii.eqb a) (py_set t)) eqn:Hex; [exact IH|].
  constructor; [|exact IH]. intros Hin.
  assert (existsb (Ascii.eqb a) (py_set t) = true).
  { apply existsb_exists. exists a. split; [exact Hin | apply Ascii.eqb_refl]. }
  congruence.
Qed.

Lemma insert_sorted_perm (c : ascii) (l : list ascii) :
  Permutation (insert_sorted c l) (c :: l).
Proof.
  induction l as [|h t IH]; simpl; [reflexivity|].
  destruct (char_le c h); [reflexivity|].
  rewrite IH. apply perm_swap.
Qed.

Lemma sorted_perm (l : list ascii) : Permutation (sorted l) l.
Proof.
  induction l as [|h t IH]; simpl; [reflexivity|].
  rewrite insert_sorted_perm. constructor. exact IH.
Qed.

(** The vocabulary holds exactly the characters of the text, once each. *)
Lemma vocab_In (text : str) (c : ascii) : In c (sorted (py_set text)) <-> In c text.
Proof.
  split; intros H.
  - apply py_set_In. apply (Permutation_in c (sorted_perm (py_set text))). exact H.
  - apply (Permutation_in c (Permutation_sym (sorted_perm (py_set text)))).
    apply py_set_In. exact H.
Qed.

Lemma vocab_NoDup (text : str) : NoDup (sorted (py_set text)).
Proof.
  apply (Permutation_NoDup (l := py_set text)).
  - symmetry. apply sorted_perm.
  - apply py_set_NoDup.
Qed.

Section Dicts.
Context {K V : Type} (eqb : K -> K -> bool).
Hypothesis eqb_eq : forall a b, eqb a b = true <-> a = b.

Lemma dict_set_fresh (d : dict K V) (k : K) (v : V) :
  ~ In k (map fst d) -> dict_set eqb d k v = d ++ [(k, v)].
Proof.
  induction d as [|[k' v'] t IH]; simpl; intros Hn; [reflexivity|].
  destruct (eqb k' k) eqn:Hk.
  - apply eqb_eq in Hk. tauto.
  - rewrite IH by tauto. reflexivity.
Qed.

(** A comprehension over distinct keys lists them in order. *)
Lemma dict_comprehension (l : list (V * K)) (d0 : dict K V) :
  NoDup (map fst d0 ++ map snd l) ->
  fold_left (fun d vk => dict_set eqb d (snd vk) (fst vk)) l d0 =
  d0 ++ map (fun vk => (snd vk, fst vk)) l.
Proof.
  revert d0. induction l as [|[v k] l IH]; intros d0 Hnd; simpl.
  - rewrite app_nil_r. reflexivity.
  - simpl in Hnd. rewrite dict_set_fresh.
    + rewrite IH.
      * rewrite <- app_assoc. reflexivity.
      * rewrite map_app. simpl. rewrite <- app_assoc. simpl.
        apply NoDup_remove_1 in Hnd as Hnd1.
        apply NoDup_remove_2 in Hnd.
        apply (Permutation_NoDup (l := k :: map fst d0 ++ map snd l)).
        -- apply Permutation_middle.
        -- constructor; assumption.
    + apply NoDup_remove_2 in Hnd. intros Hin. apply Hnd.
      apply in_or_app. left. exact Hin.
Qed.

Lemma dict_get_In (d : dict K V) (k : K) (v : V) :
  dict_get eqb d k = Ok v -> In (k, v) d.
Proof.
  induction d as [|[k' v'] t IH]; simpl; [discriminate|].
  destruct (eqb k' k) eqn:Hk.
  - apply eqb_eq in Hk. intros [= ->]. left. congruence.
  - intros H. right. apply IH. exact H.
Qed.

Lemma In_dict_get (d : dict K V) (k : K) (v : V) :
  NoDup (map fst d) -> In (k, v) d -> dict_get eqb d k = Ok v.
Proof.
  induction d as [|[k' v'] t IH]; simpl; intros Hnd Hin; [contradiction|].
  inversion Hnd as [|? ? Hnot Hnd']; subst.
  destruct Hin as [[= -> ->]|Hin].
  - assert (eqb k k = true) as -> by (apply eqb_eq; reflexivity). reflexivity.
  - destruct (eqb k' k) eqn:Hk.
    + apply eqb_eq in Hk. subst k'. exfalso. apply Hnot.
      apply (in_map fst) in Hin. exact Hin.
    + apply IH; assumption.
Qed.

Lemma dict_get_missing (d : dict K V) (k : K) :
  ~ In k (map fst d) -> dict_get eqb d k = Raise KeyError.
Proof.
  induction d as [|[k' v'] t IH]; simpl; intros Hn; [reflexivity|].
  destruct (eqb k' k) eqn:Hk.
  - apply eqb_eq in Hk. tauto.
  - apply IH. tauto.
Qed.
End Dicts.

Lemma In_enumerate {A : Type} (l : list A) (i : nat) (a : A) :
  In (i, a) (enumerate l) <-> nth_error l i = Some a.
Proof.
  unfold enumerate.
  assert (G : forall s, In (i, a) (combine (seq s (length l)) l) <->
                        (s <= i)%nat /\ nth_error l (i - s) = Some a).
  { induction l as [|h t IH]; intros s; simpl.
    - split; [tauto|]. intros [_ H]. destruct (i - s)%nat; discriminate.
    - rewrite IH. split.
      + intros [[= <- <-]|[Hle Hn]].
        * rewrite Nat.sub_diag. split; [lia | reflexivity].
        * split; [lia|]. replace (i - s)%nat with (S (i - S s)) by lia. exact Hn.
      + intros [Hle Hn]. destruct (Nat.eq_dec s i) as [->|Hne].
        * rewrite Nat.sub_diag in Hn. simpl in Hn. left. congruence.
        * right. split; [lia|].
          replace (i - s)%nat with (S (i - S s)) in Hn by lia. exact Hn. }
  rewrite G, Nat.sub_0_r. split; [tauto | intros H; split; [lia | exact H]].
Qed.

Lemma map_snd_enumerate {A : Type} (l : list A) : map snd (enumerate l) = l.
Proof.
  unfold enumerate.
  assert (G : forall s, map snd (combine (seq s (length l)) l) = l).
  { induction l as [|h t IH]; intros s; simpl; [reflexivity|]. rewrite IH. reflexivity. }
  apply G.
Qed.

Lemma map_fst_enumerate {A : Type} (l : list A) :
  map fst (enumerate l) = seq 0 (length l).
Proof.
  unfold enumerate.
  assert (G : forall s, map fst (combine (seq s (length l)) l) = seq s (length l)).
  { induction l as [|h t IH]; intros s; simpl; [reflexivity|]. rewrite IH. reflexivity. }
  apply G.
Qed.

Lemma build_vocab_stoi (text : str) :
  let '(vocab, stoi, itos) := _build_vocab text in
  stoi = map (fun ic => (snd ic, fst ic)) (enumerate vocab) /\
  itos = enumerate vocab.
Proof.
  unfold _build_vocab. set (vocab := sorted (py_set text)).
  assert (Hs : fold_left (fun d ic => dict_set Ascii.eqb d (snd ic) (fst ic))
                 (enumerate vocab) [] =
               map (fun ic => (snd ic, fst ic)) (enumerate vocab)).
  { rewrite (dict_comprehension Ascii.eqb Ascii.eqb_eq); [reflexivity|].
    simpl. rewrite map_snd_enumerate. apply vocab_NoDup. }
  rewrite Hs. split; [reflexivity|].
  rewrite (dict_comprehension Nat.eqb Nat.eqb_eq).
  - simpl. rewrite map_map. simpl.
    rewrite <- (map_id (enumerate vocab)) at 2.
    apply map_ext. intros [i c]. reflexivity.
  - simpl. rewrite map_map. simpl. rewrite map_fst_enumerate. apply seq_NoDup.
Qed.

Lemma stoi_lookup (vocab : list ascii) (c : ascii) (i : nat) :
  NoDup vocab ->
  dict_get Ascii.eqb (map (fun ic => (snd ic, fst ic)) (enumerate vocab)) c = Ok i <->
  nth_error vocab i = Some c.
Proof.
  intros Hnd. rewrite <- In_enumerate. split.
  - intros H. apply (dict_get_In Ascii.eqb Ascii.eqb_eq) in H.
    apply in_map_iff in H. destruct H as [[i' c'] [[= -> ->] Hin]]. exact Hin.
  - intros H. apply (In_dict_get Ascii.eqb Ascii.eqb_eq).
    + rewrite map_map. simpl. rewrite map_snd_enumerate. exact Hnd.
    + apply in_map_iff. exists (i, c). auto.
Qed.

Lemma itos_lookup (vocab : list ascii) (c : ascii) (i : nat) :
  nth_error vocab i = Some c -> dict_get Nat.eqb (enumerate vocab) i = Ok c.
Proof.
  intros H. apply (In_dict_get Nat.eqb Nat.eqb_eq).
  - rewrite map_fst_enumerate. apply seq_NoDup.
  - apply In_enumerate. exact H.
Qed.

(** ** Dataset and construction *)

Lemma In_py_slice {A : Type} (s : list A) (i j : nat) (a : A) :
  In a (py_slice s i j) -> In a s.
Proof.
  unfold py_slice. intros H.
  rewrite <- (firstn_skipn i s). apply in_or_app. right.
  rewrite <- (firstn_skipn (j - i) (skipn i s)). apply in_or_app. left. exact H.
Qed.

Lemma encode_with_ok (stoi : dict ascii nat) (w : str) :
  (forall c, In c w -> exists i, dict_get Ascii.eqb stoi c = Ok i) ->
  encode_with stoi w = Ok (map (index_in stoi) w).
Proof.
  unfold encode_with. induction w as [|c w IH]; intros H; simpl; [reflexivity|].
  destruct (H c (or_introl eq_refl)) as [i Hi].
  unfold index_in at 1. rewrite Hi. simpl.
  rewrite IH by (intros c' Hc'; apply H; right; exact Hc'). reflexivity.
Qed.

Lemma build_dataset_spec (ctx : nat) (stoi : dict ascii nat) (text : str) :
  (forall c, In c text -> exists i, dict_get Ascii.eqb stoi c = Ok i) ->
  _build_dataset ctx stoi text =
  Ok (mkDataset
        (map (fun i => map (index_in stoi) (py_slice text i (i + ctx)))
           (seq 0 (length text - ctx)))
        (map (fun i => index_in stoi (nth (i + ctx) text " "%char))
           (seq 0 (length text - ctx)))).
Proof.
  intros Hknown. unfold _build_dataset.
  pose (P := fun (i : nat) (acc : list (list nat) * list nat) =>
    acc = (map (fun i => map (index_in stoi) (py_slice text i (i + ctx))) (seq 0 i),
           map (fun i => index_in stoi (nth (i + ctx) text " "%char)) (seq 0 i))).
  match goal with
  | |- bind (for_range ?n ?body ?s0) _ = _ =>
      destruct (for_range_inv P body n s0) as [acc [Hr Hacc]]
  end.
  - reflexivity.
  - intros i acc Hi ->. simpl.
    rewrite (getitem_ok text (i + ctx) " "%char) by lia. simpl.
    rewrite encode_with_ok
      by (intros c Hc; apply Hknown; apply In_py_slice in Hc; exact Hc).
    simpl.
    destruct (Hknown (nth (i + ctx) text " "%char)) as [t Ht]; [apply nth_In; lia|].
    rewrite Ht. simpl. eexists. split; [reflexivity|].
    assert (Hidx : index_in stoi (nth (i + ctx) text " "%char) = t)
      by (unfold index_in; rewrite Ht; reflexivity).
    unfold P. rewrite seq_S, !map_app. simpl. rewrite Hidx. reflexivity.
  - rewrite Hr. simpl. rewrite Hacc. reflexivity.
Qed.

Lemma random_row_length (rnd : draws) (cols : nat) (scale : R) (k : nat) :
  length (fst (random_row rnd cols scale k)) = cols.
Proof.
  revert k. induction cols as [|c IH]; intros k; simpl; [reflexivity|].
  specialize (IH (S k)). destruct (random_row rnd c scale (S k)). simpl in *.
  rewrite IH. reflexivity.
Qed.

Lemma random_matrix_shape (rnd : draws) (rows cols : nat) (scale : R) (k : nat) :
  shape rows cols (fst (random_matrix rnd rows cols scale k)).
Proof.
  revert k. induction rows as [|r IH]; intros k; simpl.
  - split; [reflexivity | intros; lia].
  - pose proof (random_row_length rnd cols scale k) as Hrow.
    destruct (random_row rnd cols scale k) as [row k1]. simpl in Hrow.
    specialize (IH k1). destruct (random_matrix rnd r cols scale k1) as [rest k2].
    simpl in *. destruct IH as [Hl Hr]. split; [simpl; lia|].
    intros [|i] Hi; simpl; [exact Hrow | apply Hr; lia].
Qed.

Lemma init_ok (rnd : draws) (text : str) (context embed_dim hidden_dim : nat)
    (learning_rate : R) :
  (context < length text)%nat ->
  __init__ rnd text context embed_dim hidden_dim learning_rate =
  Ok (built rnd text context embed_dim hidden_dim learning_rate).
Proof.
  intros Hlen. unfold __init__.
  destruct (Nat.leb_spec (length text) context) as [Hle|_]; [lia|].
  pose proof (build_vocab_stoi text) as Hv.
  destruct (_build_vocab text) as [[vocab0 stoi0] itos0] eqn:Hbv.
  destruct Hv as [-> ->].
  assert (Hvoc : vocab0 = sorted (py_set text)).
  { unfold _build_vocab in Hbv. inversion Hbv. reflexivity. }
  subst vocab0.
  rewrite build_dataset_spec.
  - simpl. unfold built.
    destruct (random_matrix rnd (length (sorted (py_set text))) embed_dim (5 / 10) 0)
      as [E0 k1]. simpl.
    destruct (random_matrix rnd hidden_dim (context * embed_dim) (1 / 10) k1)
      as [W10 k2]. simpl.
    destruct (random_matrix rnd (length (sorted (py_set text))) hidden_dim (1 / 10) k2)
      as [W20 k3]. reflexivity.
  - intros c Hc. apply vocab_In in Hc.
    apply In_nth_error in Hc. destruct Hc as [i Hi]. exists i.
    apply stoi_lookup; [apply vocab_NoDup | exact Hi].
Qed.

Lemma init_raises (rnd : draws) (text : str) (context embed_dim hidden_dim : nat)
    (learning_rate : R) :
  (length text <= context)%nat ->
  __init__ rnd text context embed_dim hidden_dim learning_rate =
  Raise (ValueError "Training text must be longer than context window").
Proof.
  intros Hlen. unfold __init__.
  destruct (Nat.leb_spec (length text) context) as [_|Hlt]; [reflexivity | lia].
Qed.

Lemma length_py_slice {A : Type} (s : list A) (i n : nat) :
  (i + n <= length s)%nat -> length (py_slice s i (i + n)) = n.
Proof.
  intros H. unfold py_slice. rewrite length_firstn, length_skipn. lia.
Qed.

Lemma nth_py_slice {A : Type} (s : list A) (i n p : nat) (d : A) :
  (p < n)%nat -> nth p (py_slice s i (i + n)) d = nth (i + p) s d.
Proof.
  intros H. unfold py_slice. rewrite nth_firstn.
  destruct (Nat.ltb_spec p (i + n - i)); [|lia]. apply nth_skipn.
Qed.

Lemma index_in_vocab (vocab : list ascii) (c : ascii) :
  NoDup vocab -> In c vocab ->
  let stoi := map (fun ic => (snd ic, fst ic)) (enumerate vocab) in
  dict_get Ascii.eqb stoi c = Ok (index_in stoi c) /\
  nth_error vocab (index_in stoi c) = Some c /\
  (index_in stoi c < length vocab)%nat.
Proof.
  intros Hnd Hin stoi.
  destruct (In_nth_error _ _ Hin) as [i Hi].
  assert (Hget : dict_get Ascii.eqb stoi c = Ok i) by (apply stoi_lookup; assumption).
  assert (Hidx : index_in stoi c = i) by (unfold index_in; rewrite Hget; reflexivity).
  rewrite Hidx. split; [exact Hget|]. split; [exact Hi|].
  apply nth_error_Some. congruence.
Qed.

(** Every constructed model is well formed. *)
Lemma built_wf (rnd : draws) (text : str) (context embed_dim hidden_dim : nat)
    (learning_rate : R) :
  (context < length text)%nat ->
  wf_model (built rnd text context embed_dim hidden_dim learning_rate).
Proof.
  intros Hlen.
  assert (Hknown : forall c, In c text ->
            (index_in (map (fun ic => (snd ic, fst ic)) (enumerate (sorted (py_set text)))) c
             < length (sorted (py_set text)))%nat).
  { intros c Hc. apply index_in_vocab; [apply vocab_NoDup | apply vocab_In; exact Hc]. }
  constructor; unfold built; simpl.
  - destruct text as [|c t]; [simpl in Hlen; lia|].
    intros Hnil. assert (Hin : In c (sorted (py_set (c :: t))))
      by (apply vocab_In; left; reflexivity).
    rewrite Hnil in Hin. exact Hin.
  - intros c i. apply stoi_lookup. apply vocab_NoDup.
  - intros c i. apply itos_lookup.
  - apply random_matrix_shape.
  - apply random_matrix_shape.
  - apply repeat_length.
  - apply random_matrix_shape.
  - apply repeat_length.
  - apply Forall_forall. intros x Hx. apply in_map_iff in Hx.
    destruct Hx as [i [<- Hi]]. apply in_seq in Hi. split.
    + rewrite length_map. apply length_py_slice. lia.
    + apply Forall_forall. intros k Hk. apply in_map_iff in Hk.
      destruct Hk as [c [<- Hc]]. apply Hknown. apply In_py_slice in Hc. exact Hc.
  - apply Forall_forall. intros t Ht. apply in_map_iff in Ht.
    destruct Ht as [i [<- Hi]]. apply in_seq in Hi. apply Hknown. apply nth_In. lia.
  - rewrite !length_map. reflexivity.
Qed.

Lemma init_wf (rnd : draws) (text : str) (context embed_dim hidden_dim : nat)
    (learning_rate : R) (m : TinyLLM) :
  __init__ rnd text context embed_dim hidden_dim learning_rate = Ok m -> wf_model m.
Proof.
  intros H. destruct (Nat.le_gt_cases (length text) context) as [Hle|Hlt].
  - rewrite init_raises in H by exact Hle. discriminate.
  - rewrite init_ok in H by exact Hlt. inversion H. apply built_wf. exact Hlt.
Qed.

(** ** One epoch of training *)

Lemma sample_grads_ok (self : TinyLLM) (xt : list nat * nat) :
  wf_model self -> valid_pair self xt ->
  exists p cache g,
    _forward self (fst xt) = Ok (p, cache) /\
    (0 < nth (snd xt) p 0) /\ length p = length (vocab self) /\
    _backward self cache (snd xt) = Ok g /\
    sample_grads self xt = Ok g /\ grads_shaped self g.
Proof.
  intros Hwf [Hlen [Hall Ht]].
  destruct (forward_spec self (fst xt) Hwf Hall)
    as (p & cache & logits & M & Hf & Hpc & Hxi & Hxf & Hh & Hraw & _ & _ & _ & _ & _ & Hlp & Hpos & _).
  destruct (backward_spec self cache (snd xt) Hwf)
    as (gE & gW1 & gb1 & gW2 & gb2 & gx & _ & Hb & HsE & Hs1 & Hl1 & Hs2 & Hl2 & _);
    try assumption; try (rewrite Hpc; assumption).
  - rewrite Hxf, Hlen. reflexivity.
  - rewrite Hxi. exact Hlen.
  - rewrite Hxi. exact Hall.
  - exists p, cache, (gE, gW1, gb1, gW2, gb2).
    split; [exact Hf|]. split.
    + rewrite Forall_forall in Hpos. apply Hpos. apply nth_In. lia.
    + split; [exact Hlp|]. split; [exact Hb|]. split.
      * unfold sample_grads. rewrite Hf. simpl. exact Hb.
      * repeat split; try assumption; try apply HsE; try apply Hs1; try apply Hs2.
Qed.

Lemma eps_pos : 0 < eps.
Proof. unfold eps. apply Rinv_0_lt_compat. lra. Qed.

Lemma accumulate_spec (self : TinyLLM) (xt : list nat * nat) (acc : R * Grads) :
  wf_model self -> valid_pair self xt -> grads_shaped self (snd acc) ->
  exists g acc',
    sample_grads self xt = Ok g /\ grads_shaped self g /\
    accumulate self xt acc = Ok acc' /\ grads_shaped self (snd acc') /\
    forall s, in_range self s ->
              grad_at (snd acc') s = grad_at (snd acc) s + grad_at g s.
Proof.
  intros Hwf Hvalid Hacc.
  destruct (sample_grads_ok self xt Hwf Hvalid)
    as [p [cache [g [Hf [Hpt [Hlp [Hb [Hsg Hg]]]]]]]].
  destruct acc as [total [[[[tE tW1] tb1] tW2] tb2]].
  destruct g as [[[[gE gW1] gb1] gW2] gb2].
  simpl in Hacc. destruct Hacc as [HtE [HtW1 [Htb1 [HtW2 Htb2]]]].
  destruct Hg as [HgE [HgW1 [Hgb1 [HgW2 Hgb2]]]].
  destruct (mat_update_spec _ _ Rplus tE gE HtE HgE) as [tE' [HrE [HsE HelE]]].
  destruct (mat_vec_update_spec _ _ Rplus tW1 gW1 tb1 gb1 HtW1 HgW1 Htb1 Hgb1)
    as [tW1' [tb1' [Hr1 [Hs1 [Hl1 [Hel1 Hv1]]]]]].
  destruct (mat_vec_update_spec _ _ Rplus tW2 gW2 tb2 gb2 HtW2 HgW2 Htb2 Hgb2)
    as [tW2' [tb2' [Hr2 [Hs2 [Hl2 [Hel2 Hv2]]]]]].
  exists (gE, gW1, gb1, gW2, gb2), (total + - ln (nth (snd xt) p 0 + eps),
                                    (tE', tW1', tb1', tW2', tb2')).
  split; [exact Hsg|].
  split; [exact (conj HgE (conj HgW1 (conj Hgb1 (conj HgW2 Hgb2))))|]. split.
  - unfold accumulate. rewrite Hf. simpl.
    destruct Hvalid as [_ [_ Ht]].
    rewrite (getitem_ok p (snd xt) 0) by lia. simpl.
    unfold py_log. pose proof eps_pos.
    destruct (Rlt_dec 0 (nth (snd xt) p 0 + eps)) as [_|Hn]; [|lra]. simpl.
    rewrite Hb. simpl. rewrite HrE. simpl. rewrite Hr1. simpl. rewrite Hr2. reflexivity.
  - split; [exact (conj HsE (conj Hs1 (conj Hl1 (conj Hs2 Hl2))))|].
    intros [i j|i j|i|i j|i]; simpl; intros Hin.
    + apply HelE; tauto.
    + apply Hel1; tauto.
    + apply Hv1; tauto.
    + apply Hel2; tauto.
    + apply Hv2; tauto.
Qed.

Lemma wf_valid_pairs (m : TinyLLM) :
  wf_model m -> Forall (valid_pair m) (dataset_pairs m).
Proof.
  intros Hwf. apply Forall_forall. intros [x t] Hin.
  pose proof (in_combine_l _ _ _ _ Hin) as Hx.
  pose proof (in_combine_r _ _ _ _ Hin) as Ht.
  pose proof (wf_inputs m Hwf) as Hi. pose proof (wf_targets m Hwf) as Htg.
  rewrite Forall_forall in Hi, Htg.
  destruct (Hi x Hx) as [Hl Hall]. split; [exact Hl|]. split; [exact Hall|].
  apply Htg. exact Ht.
Qed.

Lemma length_dataset_pairs (m : TinyLLM) :
  wf_model m -> length (dataset_pairs m) = length (inputs (dataset m)).
Proof.
  intros Hwf. unfold dataset_pairs. rewrite length_combine, <- (wf_pairs m Hwf). lia.
Qed.

Lemma totals_from_spec (self : TinyLLM) (pairs : list (list nat * nat)) (acc : R * Grads) :
  wf_model self -> Forall (valid_pair self) pairs -> grads_shaped self (snd acc) ->
  exists gs acc',
    mapM (sample_grads self) pairs = Ok gs /\
    for_each pairs (accumulate self) acc = Ok acc' /\
    grads_shaped self (snd acc') /\
    forall s, in_range self s ->
      grad_at (snd acc') s =
      fold_left Rplus (map (fun g => grad_at g s) gs) (grad_at (snd acc) s).
Proof.
  intros Hwf Hall. revert acc.
  induction Hall as [|xt pairs Hxt Hall IH]; intros acc Hacc; simpl.
  - exists [], acc. auto.
  - destruct (accumulate_spec self xt acc Hwf Hxt Hacc)
      as (g & acc1 & Hsg & Hg & Hr & Hacc1 & Hsum).
    destruct (IH acc1 Hacc1) as (gs & acc' & Hgs & Hr' & Hacc' & Hsum').
    exists (g :: gs), acc'. rewrite Hsg, Hr. simpl. rewrite Hgs, Hr'. simpl.
    split; [reflexivity|]. split; [reflexivity|]. split; [exact Hacc'|].
    intros s Hs. rewrite Hsum' by exact Hs. rewrite Hsum by exact Hs. reflexivity.
Qed.

Lemma nth_repeat_zero (n i : nat) : nth i (repeat 0 n) 0 = 0.
Proof. apply nth_repeat. Qed.

(** The mean gradient of an epoch: every element is the sum of the
    per-sample gradients, in dataset order, divided by their number. *)
Lemma epoch_grads_spec (self : TinyLLM) :
  wf_model self -> inputs (dataset self) <> [] ->
  exists gs total avg,
    mapM (sample_grads self) (dataset_pairs self) = Ok gs /\
    epoch_grads self (length (inputs (dataset self))) = Ok (total, avg) /\
    grads_shaped self avg /\
    forall s, in_range self s ->
      grad_at avg s =
      py_sum (map (fun g => grad_at g s) gs) / INR (length (dataset_pairs self)).
Proof.
  intros Hwf Hne.
  set (z := (zeros (length (vocab self)) (embed_dim self),
             zeros (hidden_dim self) (context self * embed_dim self),
             repeat 0 (hidden_dim self),
             zeros (length (vocab self)) (hidden_dim self),
             repeat 0 (length (vocab self)))).
  assert (Hz : grads_shaped self (snd (0, z))).
  { simpl. repeat split; try apply shape_zeros; apply repeat_length. }
  destruct (totals_from_spec self (dataset_pairs self) (0, z) Hwf
              (wf_valid_pairs self Hwf) Hz) as (gs & [total tot] & Hgs & Hr & Hsh & Hsum).
  destruct tot as [[[[tE tW1] tb1] tW2] tb2]. simpl in Hsh.
  destruct Hsh as (HtE & HtW1 & Htb1 & HtW2 & Htb2).
  set (n := length (inputs (dataset self))).
  assert (Hn : INR n <> 0).
  { apply not_0_INR. unfold n. destruct (inputs (dataset self)); [congruence | discriminate]. }
  destruct (mat_scale_spec _ _ (1 / INR n) tE HtE) as (aE & HrE & HsE & HelE).
  destruct (mat_vec_scale_spec _ _ (1 / INR n) tW1 tb1 HtW1 Htb1)
    as (aW1 & ab1 & Hr1 & Hs1 & Hl1 & Hel1 & Hv1).
  destruct (mat_vec_scale_spec _ _ (1 / INR n) tW2 tb2 HtW2 Htb2)
    as (aW2 & ab2 & Hr2 & Hs2 & Hl2 & Hel2 & Hv2).
  exists gs, total, (aE, aW1, ab1, aW2, ab2).
  split; [exact Hgs|]. split.
  - unfold epoch_grads, epoch_totals. fold (dataset_pairs self). fold z.
    rewrite Hr. simpl. unfold py_div.
    destruct (Req_dec_T (INR n) 0) as [H0|_]; [contradiction|]. simpl.
    rewrite HrE. simpl. rewrite Hr1. simpl. rewrite Hr2. reflexivity.
  - split; [exact (conj HsE (conj Hs1 (conj Hl1 (conj Hs2 Hl2))))|].
    intros s Hs. rewrite (length_dataset_pairs self Hwf). fold n.
    assert (Hz0 : grad_at z s = 0).
    { destruct s; simpl; try apply el_zeros; apply nth_repeat_zero. }
    specialize (Hsum s Hs). cbn [snd] in Hsum. rewrite Hz0 in Hsum.
    fold (py_sum (map (fun g => grad_at g s) gs)) in Hsum.
    rewrite <- Hsum.
    destruct s as [i j|i j|i|i j|i]; simpl in *.
    + rewrite HelE by tauto. field. exact Hn.
    + rewrite Hel1 by tauto. field. exact Hn.
    + rewrite Hv1 by tauto. field. exact Hn.
    + rewrite Hel2 by tauto. field. exact Hn.
    + rewrite Hv2 by tauto. field. exact Hn.
Qed.

Lemma apply_grads_spec (self : TinyLLM) (g : Grads) :
  wf_model self -> grads_shaped self g ->
  exists m',
    _apply_grads self g = Ok m' /\ same_frame self m' /\ wf_model m' /\
    forall s, in_range self s ->
      param_at m' s = param_at self s - learning_rate self * grad_at g s.
Proof.
  intros Hwf Hg.
  destruct g as [[[[gE gW1] gb1] gW2] gb2].
  destruct Hg as (HgE & HgW1 & Hgb1 & HgW2 & Hgb2).
  destruct Hwf as [Hvoc Hstoi Hitos HE HW1 Hb1 HW2 Hb2 Hin Htg Hpairs].
  set (step := fun p g => p - learning_rate self * g).
  assert (HlE : length (E self) = length (vocab self)) by apply HE.
  destruct (mat_update_spec _ _ step (E self) gE HE HgE) as (E' & HrE & HsE & HelE).
  destruct (mat_vec_update_spec _ _ step (W1 self) gW1 (b1 self) gb1 HW1 HgW1 Hb1 Hgb1)
    as (W1' & b1' & Hr1 & Hs1 & Hl1 & Hel1 & Hv1).
  destruct (mat_vec_update_spec _ _ step (W2 self) gW2 (b2 self) gb2 HW2 HgW2 Hb2 Hgb2)
    as (W2' & b2' & Hr2 & Hs2 & Hl2 & Hel2 & Hv2).
  eexists. split.
  - unfold _apply_grads. fold step. rewrite HlE, HrE. simpl.
    rewrite Hr1. simpl. rewrite Hr2. simpl. reflexivity.
  - split; [unfold same_frame; simpl; tauto|]. split.
    + constructor; simpl; assumption.
    + intros [i j|i j|i|i j|i]; simpl; intros Hs.
      * apply HelE; tauto.
      * apply Hel1; tauto.
      * apply Hv1; tauto.
      * apply Hel2; tauto.
      * apply Hv2; tauto.
Qed.

Lemma train_epoch_spec (self : TinyLLM) (report_every : Z) (epoch : nat) :
  wf_model self -> inputs (dataset self) <> [] -> report_every <> 0%Z ->
  exists m',
    train_epoch (length (inputs (dataset self))) report_every epoch self = Ok m' /\
    wf_model m' /\ full_batch_step self m'.
Proof.
  intros Hwf Hne Hre.
  destruct (epoch_grads_spec self Hwf Hne) as (gs & total & avg & Hgs & Hr & Hsh & Havg).
  destruct (apply_grads_spec self avg Hwf Hsh) as (m' & Ha & Hframe & Hwf' & Hupd).
  exists m'. split.
  - unfold train_epoch. rewrite Hr. simpl. rewrite Ha. simpl.
    unfold py_mod. destruct (Z.eqb_spec report_every 0) as [H0|_]; [contradiction|].
    simpl. destruct (Z.of_nat epoch mod report_every =? 0)%Z; [|reflexivity].
    unfold py_div.
    destruct (Req_dec_T (INR (length (inputs (dataset self)))) 0) as [H0|_];
      [|reflexivity].
    exfalso. revert H0. apply not_0_INR.
    destruct (inputs (dataset self)); [congruence | discriminate].
  - split; [exact Hwf'|]. exists gs. split; [exact Hgs|]. split; [exact Hframe|].
    split; [exact Hwf'|].
    intros s Hs. rewrite Hupd by exact Hs. rewrite Havg by exact Hs. reflexivity.
Qed.

(** ** The training loop *)

Lemma train_loop_spec (num : nat) (report_every : Z) (n : nat) :
  report_every <> 0%Z ->
  forall (start : nat) (m : TinyLLM),
    wf_model m -> inputs (dataset m) <> [] -> num = length (inputs (dataset m)) ->
    exists m',
      for_range_from start n (train_epoch num report_every) m = Ok m' /\
      wf_model m' /\ steps n m m' /\ dataset m' = dataset m.
Proof.
  intros Hre. induction n as [|n IH]; intros start m Hwf Hne Hnum; simpl.
  - exists m. split; [reflexivity|]. split; [exact Hwf|].
    split; [constructor | reflexivity].
  - subst num.
    destruct (train_epoch_spec m report_every start Hwf Hne Hre) as (m1 & Hr & Hwf1 & Hstep).
    rewrite Hr. simpl.
    assert (Hds : dataset m1 = dataset m).
    { destruct Hstep as (gs & _ & Hframe & _). apply Hframe. }
    destruct (IH (S start) m1 Hwf1) as (m' & Hr' & Hwf' & Hsteps & Hds').
    + rewrite Hds. exact Hne.
    + rewrite Hds. reflexivity.
    + exists m'. split; [exact Hr'|]. split; [exact Hwf'|]. split.
      * econstructor; eassumption.
      * congruence.
Qed.

Lemma train_spec (self : TinyLLM) (epochs report_every : Z) :
  wf_model self -> inputs (dataset self) <> [] -> report_every <> 0%Z ->
  exists m',
    train self epochs report_every = Ok m' /\
    wf_model m' /\ steps (Z.to_nat epochs) self m' /\ dataset m' = dataset self.
Proof.
  intros Hwf Hne Hre. unfold train.
  apply train_loop_spec; auto.
Qed.

(** With a zero reporting period the first epoch updates the
    parameters and the modulo then raises. *)
Lemma train_report_zero (self : TinyLLM) (epochs : Z) :
  wf_model self -> inputs (dataset self) <> [] -> (0 < epochs)%Z ->
  train self epochs 0 = Raise ZeroDivisionError.
Proof.
  intros Hwf Hne Hpos. unfold train.
  destruct (Z.to_nat epochs) as [|n] eqn:Hn; [lia|]. simpl.
  destruct (epoch_grads_spec self Hwf Hne) as (gs & total & avg & _ & Hr & Hsh & _).
  destruct (apply_grads_spec self avg Hwf Hsh) as (m' & Ha & _).
  unfold train_epoch. rewrite Hr. simpl. rewrite Ha. reflexivity.
Qed.

(** A step determines its result: shapes and elements fix a tensor. *)
Lemma shape_ext (r c : nat) (m1 m2 : Matrix) :
  shape r c m1 -> shape r c m2 ->
  (forall i j, (i < r)%nat -> (j < c)%nat -> el m1 i j = el m2 i j) ->
  m1 = m2.
Proof.
  intros [Hl1 Hr1] [Hl2 Hr2] Hel.
  apply (nth_ext m1 m2 [] []); [lia|].
  intros i Hi. rewrite Hl1 in Hi.
  apply (nth_ext _ _ 0 0); [rewrite Hr1, Hr2 by exact Hi; reflexivity|].
  intros j Hj. rewrite Hr1 in Hj by exact Hi. apply Hel; assumption.
Qed.

Lemma full_batch_step_unique (m m1 m2 : TinyLLM) :
  full_batch_step m m1 -> full_batch_step m m2 -> m1 = m2.
Proof.
  intros (gs1 & Hg1 & Hf1 & Hwf1 & He1) (gs2 & Hg2 & Hf2 & Hwf2 & He2).
  rewrite Hg1 in Hg2. inversion Hg2; subst gs2.
  assert (Heq : forall s, in_range m s -> param_at m1 s = param_at m2 s).
  { intros s Hs. rewrite He1, He2 by exact Hs. reflexivity. }
  destruct Hf1 as (Hc1 & Hd1 & Hh1 & Hlr1 & Hv1 & Hs1 & Hi1 & Hds1).
  destruct Hf2 as (Hc2 & Hd2 & Hh2 & Hlr2 & Hv2 & Hs2 & Hi2 & Hds2).
  destruct Hwf1 as [_ _ _ HE1 HW11 Hb11 HW21 Hb21 _ _ _].
  destruct Hwf2 as [_ _ _ HE2 HW12 Hb12 HW22 Hb22 _ _ _].
  rewrite Hc1, Hd1, Hh1, Hv1 in *. rewrite Hc2, Hd2, Hh2, Hv2 in *.
  assert (E m1 = E m2).
  { apply (shape_ext _ _ _ _ HE1 HE2). intros i j Hi Hj.
    apply (Heq (in_E i j)). simpl. auto. }
  assert (W1 m1 = W1 m2).
  { apply (shape_ext _ _ _ _ HW11 HW12). intros i j Hi Hj.
    apply (Heq (in_W1 i j)). simpl. auto. }
  assert (W2 m1 = W2 m2).
  { apply (shape_ext _ _ _ _ HW21 HW22). intros i j Hi Hj.
    apply (Heq (in_W2 i j)). simpl. auto. }
  assert (b1 m1 = b1 m2).
  { apply (nth_ext _ _ 0 0); [lia|]. intros i Hi.
    apply (Heq (in_b1 i)). simpl. lia. }
  assert (b2 m1 = b2 m2).
  { apply (nth_ext _ _ 0 0); [lia|]. intros i Hi.
    apply (Heq (in_b2 i)). simpl. lia. }
  destruct m1, m2; simpl in *. congruence.
Qed.

Lemma steps_unique (n : nat) (m m1 m2 : TinyLLM) :
  steps n m m1 -> steps n m m2 -> m1 = m2.
Proof.
  intros H1. revert m2. induction H1 as [m | n m a m1 Ha Hrest IH]; intros m2 H2.
  - inversion H2. reflexivity.
  - inversion H2 as [| ? ? b ? Hb Hrest2]; subst.
    assert (a = b) by (eapply full_batch_step_unique; eassumption). subst b.
    apply IH. exact Hrest2.
Qed.

(** ** Evaluation of the loss *)

Lemma loss_loop_ok (self : TinyLLM) (pairs : list (list nat * nat)) (acc : R) :
  wf_model self -> Forall (valid_pair self) pairs ->
  exists total,
    for_each pairs
      (fun xt total_loss =>
         ' (probs, _) <- _forward self (fst xt) ;;
         p <- getitem probs (snd xt) ;;
         l <- py_log (p + eps) ;;
         Ok (total_loss + - l))
      acc = Ok total.
Proof.
  intros Hwf Hall. revert acc.
  induction Hall as [|xt pairs Hxt Hall IH]; intros acc; simpl.
  - exists acc. reflexivity.
  - destruct (sample_grads_ok self xt Hwf Hxt) as (p & cache & g & Hf & Hpt & Hlp & _).
    rewrite Hf. simpl. destruct Hxt as (_ & _ & Ht).
    rewrite (getitem_ok p (snd xt) 0) by lia. simpl.
    unfold py_log. pose proof eps_pos.
    destruct (Rlt_dec 0 (nth (snd xt) p 0 + eps)) as [_|Hn]; [|lra]. simpl.
    apply IH.
Qed.

Lemma loss_ok (self : TinyLLM) :
  wf_model self -> inputs (dataset self) <> [] -> exists l, loss self = Ok l.
Proof.
  intros Hwf Hne. unfold loss.
  destruct (loss_loop_ok self (dataset_pairs self) 0 Hwf (wf_valid_pairs self Hwf))
    as [total Ht].
  fold (dataset_pairs self). rewrite Ht. simpl. unfold py_div.
  destruct (Req_dec_T (INR (length (inputs (dataset self)))) 0) as [H0|_].
  - exfalso. revert H0. apply not_0_INR.
    destruct (inputs (dataset self)); [congruence | discriminate].
  - eexists. reflexivity.
Qed.

(** ** Greedy decoding *)

Lemma fold_best_spec (key : nat -> R) (len s b : nat) :
  (b < s)%nat ->
  (forall k, (k < s)%nat -> key k <= key b) ->
  (forall k, (k < b)%nat -> key k < key b) ->
  let r := fold_left (fun best j => if Rlt_dec (key best) (key j) then j else best)
             (seq s len) b in
  (r < s + len)%nat /\
  (forall k, (k < s + len)%nat -> key k <= key r) /\
  (forall k, (k < r)%nat -> key k < key r).
Proof.
  revert s b. induction len as [|len IH]; intros s b Hb Hub Hfirst; simpl.
  - rewrite Nat.add_0_r. auto.
  - destruct (Rlt_dec (key b) (key s)) as [Hlt|Hge].
    + destruct (IH (S s) s) as (H1 & H2 & H3).
      * lia.
      * intros k Hk. destruct (Nat.eq_dec k s) as [->|Hne]; [lra|].
        assert (key k <= key b) by (apply Hub; lia). lra.
      * intros k Hk. assert (key k <= key b) by (apply Hub; lia). lra.
      * replace (s + S len)%nat with (S s + len)%nat by lia. auto.
    + destruct (IH (S s) b) as (H1 & H2 & H3).
      * lia.
      * intros k Hk. destruct (Nat.eq_dec k s) as [->|Hne]; [lra|]. apply Hub. lia.
      * exact Hfirst.
      * replace (s + S len)%nat with (S s + len)%nat by lia. auto.
Qed.

(** [max(range(n), key=...)] is the least index whose key is maximal. *)
Lemma py_max_key_spec (n : nat) (key : nat -> R) :
  (0 < n)%nat ->
  exists i, py_max_key n key = Ok i /\ (i < n)%nat /\
            (forall k, (k < n)%nat -> key k <= key i) /\
            (forall k, (k < i)%nat -> key k < key i).
Proof.
  intros Hn. destruct n as [|n]; [lia|]. unfold py_max_key. simpl.
  destruct (fold_best_spec key n 1 0) as (H1 & H2 & H3).
  - lia.
  - intros k Hk. replace k with 0%nat by lia. lra.
  - intros k Hk. lia.
  - eexists. split; [reflexivity|]. auto.
Qed.

Lemma dict_get_raises_KeyError {K V : Type} (eqb : K -> K -> bool) (d : dict K V)
  (k : K) (e : exn) :
dict_get eqb d k = Raise e -> e = KeyError.
Proof.
induction d as [|[k' v] t IH]; simpl.
- intros [= <-]. reflexivity.
- destruct (eqb k' k); [discriminate | exact IH].
Qed.

Lemma encode_ok (m : TinyLLM) (w : str) :
  wf_model m -> in_vocab m w ->
  exists idxs, _encode m w = Ok idxs /\ length idxs = length w /\
               Forall (fun i => (i < length (vocab m))%nat) idxs.
Proof.
  intros Hwf Hw. unfold _encode, encode_with.
  induction Hw as [|c w Hc Hw IH]; simpl.
  - exists []. auto.
  - destruct (In_nth_error _ _ Hc) as [i Hi].
    assert (Hget : dict_get Ascii.eqb (stoi m) c = Ok i) by (apply (wf_stoi m Hwf); exact Hi).
    destruct IH as (idxs & Hr & Hl & Hall).
    rewrite Hget, Hr. simpl. exists (i :: idxs).
    split; [reflexivity|]. split; [simpl; lia|].
    constructor; [|exact Hall]. apply nth_error_Some. congruence.
Qed.

Lemma encode_unknown (m : TinyLLM) (w : str) :
  wf_model m -> ~ in_vocab m w -> _encode m w = Raise KeyError.
Proof.
  intros Hwf. unfold _encode, encode_with, in_vocab.
  induction w as [|c w IH]; intros Hn; simpl.
  - exfalso. apply Hn. constructor.
  - destruct (dict_get Ascii.eqb (stoi m) c) as [i|e] eqn:Hget; simpl.
    + assert (Hc : In c (vocab m)).
      { apply (wf_stoi m Hwf) in Hget. apply nth_error_In in Hget. exact Hget. }
      rewrite IH; [reflexivity|]. intros Hw. apply Hn. constructor; assumption.
    + apply dict_get_raises_KeyError in Hget. subst e. reflexivity.
Qed.

Lemma predict_next_wrong_length (m : TinyLLM) (text : str) :
  length text <> context m ->
  predict_next m text =
  Raise (ValueError ("context_text must be length " ++ nat_to_str (context m))).
Proof.
  intros Hlen. unfold predict_next.
  destruct (Nat.eqb_spec (length text) (context m)); [contradiction | reflexivity].
Qed.

Lemma predict_next_unknown (m : TinyLLM) (text : str) :
  wf_model m -> length text = context m -> ~ in_vocab m text ->
  predict_next m text = Raise KeyError.
Proof.
  intros Hwf Hlen Hn. unfold predict_next.
  destruct (Nat.eqb_spec (length text) (context m)); [|contradiction]. simpl.
  rewrite encode_unknown by assumption. reflexivity.
Qed.

(** On a window of vocabulary characters [predict_next] returns the
    forward probabilities and the symbol of their first maximum. *)
Lemma predict_next_spec (m : TinyLLM) (text : str) :
  wf_model m -> length text = context m -> in_vocab m text ->
  exists ch p idxs cache best,
    _encode m text = Ok idxs /\ length idxs = context m /\
    Forall (fun i => (i < length (vocab m))%nat) idxs /\
    _forward m idxs = Ok (p, cache) /\
    predict_next m text = Ok (ch, p) /\
    nth_error (vocab m) best = Some ch /\
    (best < length p)%nat /\
    (forall k, (k < length p)%nat -> nth k p 0 <= nth best p 0) /\
    (forall k, (k < best)%nat -> nth k p 0 < nth best p 0).
Proof.
  intros Hwf Hlen Hin.
  destruct (encode_ok m text Hwf Hin) as (idxs & Henc & Hli & Hall).
  destruct (forward_spec m idxs Hwf Hall)
    as (p & cache & logits & M & Hf & _ & _ & _ & _ & _ & _ & _ & _ & _ & _ & Hlp & _).
  destruct (py_max_key_spec (length p) (fun i => nth i p 0)) as (best & Hb & Hlt & Hmax & Hfst).
  { rewrite Hlp. destruct (vocab m) eqn:Hv; [|simpl; lia].
    exfalso. apply (wf_vocab m Hwf). exact Hv. }
  destruct (nth_error (vocab m) best) as [ch|] eqn:Hch.
  2:{ apply nth_error_None in Hch. lia. }
  exists ch, p, idxs, cache, best.
  split; [exact Henc|]. split; [lia|]. split; [exact Hall|]. split; [exact Hf|]. split.
  - unfold predict_next.
    destruct (Nat.eqb_spec (length text) (context m)); [|contradiction]. simpl.
    rewrite Henc. simpl. rewrite Hf. simpl. rewrite Hb. simpl.
    rewrite (wf_itos m Hwf ch best Hch). reflexivity.
  - auto.
Qed.

(** ** Sampling *)

Lemma sample_unfold (m : TinyLLM) (seed : str) (max_new : Z) :
  sample m seed max_new = sample_loop m (Z.to_nat max_new) (initial_window m seed).
Proof. reflexivity. Qed.

Lemma py_last_pos {A : Type} (n : nat) (s : list A) :
  (0 < n)%nat -> py_last n s = skipn (length s - n) s.
Proof.
  intros H. unfold py_last. destruct (Nat.eqb_spec n 0); [lia | reflexivity].
Qed.

Lemma length_py_last {A : Type} (n : nat) (s : list A) :
  (0 < n <= length s)%nat -> length (py_last n s) = n.
Proof.
  intros H. rewrite py_last_pos by lia. rewrite length_skipn. lia.
Qed.

Lemma length_rjust (s : str) (width : nat) :
  length (rjust s width) = Nat.max width (length s).
Proof. unfold rjust. rewrite length_app, repeat_length. lia. Qed.

Lemma initial_window_short (m : TinyLLM) (seed : str) :
  (length seed <= context m)%nat ->
  initial_window m seed = repeat " "%char (context m - length seed) ++ seed.
Proof.
  intros Hle. unfold initial_window, py_last.
  destruct (Nat.eqb_spec (context m) 0) as [H0|Hpos].
  - destruct (Nat.ltb_spec (length seed) (context m)); [lia|].
    replace (context m - length seed)%nat with 0%nat by lia. reflexivity.
  - destruct (Nat.ltb_spec (length seed) (context m)) as [Hlt|Hge].
    + rewrite length_rjust.
      replace (Nat.max (context m) (length seed) - context m)%nat with 0%nat by lia.
      reflexivity.
    + replace (length seed - context m)%nat with 0%nat by lia.
      replace (context m - length seed)%nat with 0%nat by lia. reflexivity.
Qed.

Lemma initial_window_long (m : TinyLLM) (seed : str) :
  (0 < context m <= length seed)%nat ->
  initial_window m seed = skipn (length seed - context m) seed.
Proof.
  intros H. unfold initial_window.
  destruct (Nat.ltb_spec (length seed) (context m)); [lia|].
  apply py_last_pos. lia.
Qed.

Lemma length_initial_window (m : TinyLLM) (seed : str) :
  (0 < context m)%nat -> length (initial_window m seed) = context m.
Proof.
  intros Hpos. destruct (Nat.le_gt_cases (length seed) (context m)) as [Hle|Hgt].
  - rewrite initial_window_short by exact Hle.
    rewrite length_app, repeat_length. lia.
  - rewrite initial_window_long by lia. rewrite length_skipn. lia.
Qed.

Lemma In_skipn {A : Type} (n : nat) (l : list A) (a : A) : In a (skipn n l) -> In a l.
Proof.
  intros H. rewrite <- (firstn_skipn n l). apply in_or_app. right. exact H.
Qed.

Lemma py_last_snoc (m : TinyLLM) (g : str) (ch : ascii) :
  (0 < context m <= length g)%nat ->
  in_vocab m (py_last (context m) g) -> In ch (vocab m) ->
  in_vocab m (py_last (context m) (g ++ [ch])).
Proof.
  intros Hc Hg Hch. unfold in_vocab in *.
  rewrite py_last_pos in * by lia. rewrite last_length, skipn_app.
  apply Forall_app. split.
  - apply Forall_forall. intros c Hin. rewrite Forall_forall in Hg. apply Hg.
    replace (S (length g) - context m)%nat with (1 + (length g - context m))%nat in Hin by lia.
    rewrite <- skipn_skipn in Hin. apply In_skipn in Hin. exact Hin.
  - replace (S (length g) - context m - length g)%nat with 0%nat by lia.
    simpl. constructor; [exact Hch | constructor].
Qed.

Lemma sample_loop_spec (m : TinyLLM) (n : nat) :
  wf_model m -> (0 < context m)%nat ->
  forall g : str,
    (context m <= length g)%nat -> in_vocab m (py_last (context m) g) ->
    exists suffix,
      sample_loop m n g = Ok (g ++ suffix) /\
      (length suffix <= n)%nat /\
      in_vocab m suffix /\
      greedy_suffix m g suffix /\
      ((length suffix < n)%nat -> exists body, suffix = body ++ [newline]) /\
      (forall k, (S k < length suffix)%nat -> nth k suffix newline <> newline).
Proof.
  intros Hwf Hpos. induction n as [|n IH]; intros g Hlen Hin; simpl.
  - exists []. rewrite app_nil_r. split; [reflexivity|]. split; [simpl; lia|].
    split; [constructor|]. split; [intros k Hk; simpl in Hk; lia|].
    split; intros; simpl in *; lia.
  - destruct (predict_next_spec m (py_last (context m) g) Hwf)
      as (ch & p & idxs & cache & best & _ & _ & _ & _ & Hpn & Hch & _); [|exact Hin|].
    { apply length_py_last. lia. }
    apply nth_error_In in Hch. rewrite Hpn. simpl.
    destruct (Ascii.eqb_spec ch newline) as [Heq|Hne].
    + exists [ch]. split; [reflexivity|]. split; [simpl; lia|].
      split; [constructor; [exact Hch | constructor]|]. split.
      * intros [|k] Hk; simpl in Hk; [|lia]. simpl. rewrite app_nil_r.
        exists p. exact Hpn.
      * split; [intros _; exists []; rewrite Heq; reflexivity|].
        intros k Hk. simpl in Hk. lia.
    + destruct (IH (g ++ [ch])) as (suffix & Hr & Hl & Hv & Hgr & Hnl & Hno).
      * rewrite last_length. lia.
      * apply py_last_snoc; [lia | exact Hin | exact Hch].
      * exists (ch :: suffix). rewrite Hr, <- app_assoc. simpl.
        split; [reflexivity|]. split; [lia|].
        split; [constructor; assumption|]. split.
        -- intros [|k] Hk; simpl in Hk; simpl.
           ++ rewrite app_nil_r. exists p. exact Hpn.
           ++ destruct (Hgr k) as [q Hq]; [lia|]. exists q.
              rewrite <- app_assoc in Hq. exact Hq.
        -- split.
           ++ intros Hlt. destruct Hnl as [body Hbody]; [lia|].
              exists (ch :: body). rewrite Hbody. reflexivity.
           ++ intros [|k] Hk; simpl in *; [exact Hne | apply Hno; lia].
Qed.

(** With a character outside the vocabulary in the window, the first
    prediction raises [KeyError]. *)
Lemma sample_loop_unknown (m : TinyLLM) (n : nat) (g : str) :
  wf_model m -> (0 < context m <= length g)%nat ->
  ~ in_vocab m (py_last (context m) g) ->
  sample_loop m (S n) g = Raise KeyError.
Proof.
  intros Hwf Hlen Hn. simpl.
  rewrite predict_next_unknown; [reflexivity | exact Hwf | | exact Hn].
  apply length_py_last. exact Hlen.
Qed.

Lemma sample_loop_partial (m : TinyLLM) (n : nat) :
  forall (g s : str),
    sample_loop m n g = Ok s ->
    exists suffix, s = g ++ suffix /\ (length suffix <= n)%nat /\
                   greedy_suffix m g suffix.
Proof.
  induction n as [|n IH]; intros g s; simpl.
  - intros [= <-]. exists []. rewrite app_nil_r. split; [reflexivity|].
    split; [simpl; lia|]. intros k Hk. simpl in Hk. lia.
  - intros H. apply bind_ok in H. destruct H as ([ch p] & Hpn & H).
    destruct (Ascii.eqb ch newline).
    + inversion H; subst s. exists [ch]. split; [reflexivity|]. split; [simpl; lia|].
      intros [|k] Hk; simpl in Hk; [|lia]. simpl. rewrite app_nil_r. exists p. exact Hpn.
    + destruct (IH _ _ H) as (suffix & -> & Hl & Hgr).
      exists (ch :: suffix). rewrite <- app_assoc. split; [reflexivity|].
      split; [simpl; lia|].
      intros [|k] Hk; simpl in Hk; simpl.
      * rewrite app_nil_r. exists p. exact Hpn.
      * destruct (Hgr k) as [q Hq]; [lia|]. exists q.
        rewrite <- app_assoc in Hq. exact Hq.
Qed.

(** [positions_of v xs] lists exactly the positions of [xs] that hold [v]. *)
Lemma positions_of_In (v : nat) (xs : list nat) (p : nat) :
  In p (positions_of v xs) <-> nth_error xs p = Some v.
Proof.
  unfold positions_of. rewrite in_map_iff. split.
  - intros ([p' v'] & Hp & Hin). simpl in Hp. subst p'.
    apply filter_In in Hin. destruct Hin as [Hin Hv]. simpl in Hv.
    apply Nat.eqb_eq in Hv. subst v'. apply In_enumerate. exact Hin.
  - intros H. exists (p, v). split; [reflexivity|].
    apply filter_In. split; [apply In_enumerate; exact H | apply Nat.eqb_refl].
Qed.

(** ** A concrete model *)

Lemma demo_wf : wf_model demo.
Proof. apply built_wf. vm_compute. lia. Qed.

Lemma demo_nonempty : inputs (dataset demo) <> [].
Proof. vm_compute. discriminate. Qed.

(** * The claims *)

(** C1. The embedding gradient returned by the backward pass is a
    scatter-accumulation of the flattened-input gradient: for a forward
    cache of a context window and a target index, row [v] of [grad_E]
    holds, at column [d], the sum over all context positions [p] that
    hold vocabulary index [v] of [grad_x_flat[p * embed_dim + d]];
    repeated indices add up and never overwrite. *)
Theorem C1_embedding_gradient_scatter_accumulates :
  forall (self : TinyLLM) (x_idx : list nat) (target_idx : nat),
    wf_model self ->
    length x_idx = context self ->
    Forall (fun v => (v < length (vocab self))%nat) x_idx ->
    (target_idx < length (vocab self))%nat ->
    exists p cache gE gW1 gb1 gW2 gb2 gx,
      _forward self x_idx = Ok (p, cache) /\
      backward_dense self cache target_idx = Ok (gW1, gb1, gW2, gb2, gx) /\
      _backward self cache target_idx = Ok (gE, gW1, gb1, gW2, gb2) /\
      shape (length (vocab self)) (embed_dim self) gE /\
      forall v d, (v < length (vocab self))%nat -> (d < embed_dim self)%nat ->
        el gE v d =
        py_sum (map (fun pos => nth (pos * embed_dim self + d) gx 0)
                  (positions_of v x_idx)).
Proof.
  intros self x_idx target_idx Hwf Hlen Hall Ht.
  destruct (forward_spec self x_idx Hwf Hall)
    as (p & cache & logits & M & Hf & Hpc & Hxi & Hxf & Hh & Hraw & _ & _ & _ & _ & _ & Hlp & _).
  destruct (backward_spec self cache target_idx Hwf)
    as (gE & gW1 & gb1 & gW2 & gb2 & gx & Hd & Hb & HsE & _ & _ & _ & _ & Hel);
    try assumption.
  - rewrite Hpc. exact Hlp.
  - rewrite Hxf, Hlen. reflexivity.
  - rewrite Hxi. exact Hlen.
  - rewrite Hxi. exact Hall.
  - exists p, cache, gE, gW1, gb1, gW2, gb2, gx.
    rewrite Hxi in Hel. auto.
Qed.

(** A window that repeats vocabulary index 0: both positions feed row 0. *)
Lemma C1_witness :
  exists p cache gE gW1 gb1 gW2 gb2 gx,
    _forward demo [0; 0]%nat = Ok (p, cache) /\
    backward_dense demo cache 2 = Ok (gW1, gb1, gW2, gb2, gx) /\
    _backward demo cache 2 = Ok (gE, gW1, gb1, gW2, gb2) /\
    el gE 0 1 = py_sum [nth 1 gx 0; nth 4 gx 0].
Proof.
  destruct (C1_embedding_gradient_scatter_accumulates demo [0; 0]%nat 2%nat)
    as (p & cache & gE & gW1 & gb1 & gW2 & gb2 & gx & Hf & Hd & Hb & _ & Hel).
  - exact demo_wf.
  - reflexivity.
  - repeat constructor; vm_compute; lia.
  - vm_compute. lia.
  - exists p, cache, gE, gW1, gb1, gW2, gb2, gx.
    split; [exact Hf|]. split; [exact Hd|]. split; [exact Hb|].
    apply (Hel 0%nat 1%nat); vm_compute; lia.
Defined.

(** C2. On a model with a non-empty dataset, for a positive number of
    epochs and a non-zero reporting period, [train] returns the model
    reached by exactly [epochs] full-batch steps in sequence, and that
    model is unique: each step takes the gradients of all dataset pairs
    at the parameters before the step, sums them per element, divides
    by the number of pairs (over the reals, the product with
    [1 / num_samples]) and moves every parameter element [p] to
    [p - learning_rate * mean]. *)
Theorem C2_train_applies_epochs_full_batch_steps :
  forall (self : TinyLLM) (epochs report_every : Z),
    wf_model self ->
    inputs (dataset self) <> [] ->
    (0 < epochs)%Z ->
    report_every <> 0%Z ->
    exists m',
      train self epochs report_every = Ok m' /\
      steps (Z.to_nat epochs) self m' /\
      forall m'', steps (Z.to_nat epochs) self m'' -> m'' = m'.
Proof.
  intros self epochs report_every Hwf Hne _ Hre.
  destruct (train_spec self epochs report_every Hwf Hne Hre) as (m' & Hr & _ & Hs & _).
  exists m'. split; [exact Hr|]. split; [exact Hs|].
  intros m'' Hs'. apply (steps_unique _ _ _ _ Hs' Hs).
Qed.

Lemma C2_witness :
  exists m', train demo 3 20 = Ok m' /\ steps 3 demo m' /\
             forall m'', steps 3 demo m'' -> m'' = m'.
Proof.
  apply (C2_train_applies_epochs_full_batch_steps demo 3 20).
  - exact demo_wf.
  - vm_compute. discriminate.
  - lia.
  - lia.
Defined.

(** With [report_every = 0] the call raises after the first update, so
    two epochs are not carried out. *)
Lemma C2_counterexample :
  train demo 2 0 = Raise ZeroDivisionError /\
  ~ (exists m', train demo 2 0 = Ok m' /\ steps (Z.to_nat 2) demo m').
Proof.
  assert (H : train demo 2 0 = Raise ZeroDivisionError).
  { apply train_report_zero; [exact demo_wf | exact demo_nonempty | lia]. }
  split; [exact H|]. intros (m' & Hm & _). rewrite H in Hm. discriminate.
Qed.

(** C3. Whenever [sample] returns, its result is the
    initial window followed by at most [max_new] characters, each the
    greedy prediction from the [context] characters before it; it does
    return when the model has a positive context and the window holds
    only vocabulary characters.  The initial window is the seed
    left-padded with spaces when the seed is no longer than the
    context, and only the last [context] characters of the seed when
    it is longer. *)
Theorem C3_sample_extends_initial_window :
  forall (self : TinyLLM) (seed : str) (max_new : Z),
    (forall s, sample self seed max_new = Ok s ->
       exists suffix,
         s = initial_window self seed ++ suffix /\
         (length suffix <= Z.to_nat max_new)%nat /\
         greedy_suffix self (initial_window self seed) suffix) /\
    (wf_model self -> (0 < context self)%nat ->
     in_vocab self (initial_window self seed) ->
     exists s, sample self seed max_new = Ok s) /\
    ((length seed <= context self)%nat ->
     initial_window self seed = repeat " "%char (context self - length seed) ++ seed) /\
    ((0 < context self <= length seed)%nat ->
     initial_window self seed = skipn (length seed - context self) seed).
Proof.
  intros self seed max_new. split; [|split; [|split]].
  - intros s Hs. rewrite sample_unfold in Hs.
    apply sample_loop_partial in Hs. exact Hs.
  - intros Hwf Hpos Hin. rewrite sample_unfold.
    destruct (sample_loop_spec self (Z.to_nat max_new) Hwf Hpos (initial_window self seed))
      as (suffix & Hr & _).
    + rewrite length_initial_window by exact Hpos. lia.
    + rewrite py_last_pos by exact Hpos.
      rewrite length_initial_window by exact Hpos.
      rewrite Nat.sub_diag. exact Hin.
    + eexists. exact Hr.
  - apply initial_window_short.
  - apply initial_window_long.
Qed.

Lemma C3_witness :
  (exists s, sample demo (list_ascii_of_string "cab") 3 = Ok s) /\
  initial_window demo (list_ascii_of_string "cab") = list_ascii_of_string "ab".
Proof.
  destruct (C3_sample_extends_initial_window demo (list_ascii_of_string "cab") 3)
    as (_ & Htotal & _ & Hlong).
  split.
  - apply Htotal.
    + exact demo_wf.
    + vm_compute. lia.
    + vm_compute. repeat apply Forall_cons; try apply Forall_nil; auto 10.
  - rewrite Hlong by (vm_compute; lia). reflexivity.
Defined.

(** A seed longer than the context loses its head. *)
Lemma C3_counterexample :
  sample demo (list_ascii_of_string "abc") 0 = Ok (list_ascii_of_string "bc") /\
  ~ (exists suffix,
       sample demo (list_ascii_of_string "abc") 0 =
       Ok (list_ascii_of_string "abc" ++ suffix)).
Proof.
  split; [reflexivity|].
  intros (suffix & H). vm_compute in H. discriminate.
Qed.

(** C4. On a model with a positive context, [sample]
    returns a string for every seed whose initial window holds only
    vocabulary characters, and for every seed when [max_new <= 0];
    with a character outside the vocabulary in the window and
    [max_new > 0] it raises [KeyError].  A seed shorter than the
    context is first left-padded with spaces to exactly [context]
    characters. *)
Theorem C4_sample_total_on_vocabulary_windows :
  forall (self : TinyLLM) (seed : str) (max_new : Z),
    wf_model self -> (0 < context self)%nat ->
    (in_vocab self (initial_window self seed) ->
     exists s, sample self seed max_new = Ok s) /\
    ((max_new <= 0)%Z -> sample self seed max_new = Ok (initial_window self seed)) /\
    (~ in_vocab self (initial_window self seed) -> (0 < max_new)%Z ->
     sample self seed max_new = Raise KeyError) /\
    ((length seed < context self)%nat ->
     initial_window self seed = repeat " "%char (context self - length seed) ++ seed /\
     length (initial_window self seed) = context self).
Proof.
  intros self seed max_new Hwf Hpos.
  assert (Hwin : py_last (context self) (initial_window self seed) =
                 initial_window self seed).
  { rewrite py_last_pos by exact Hpos.
    rewrite length_initial_window by exact Hpos.
    rewrite Nat.sub_diag. reflexivity. }
  split; [|split; [|split]].
  - intros Hin. rewrite sample_unfold.
    destruct (sample_loop_spec self (Z.to_nat max_new) Hwf Hpos (initial_window self seed))
      as (suffix & Hr & _).
    + rewrite length_initial_window by exact Hpos. lia.
    + rewrite Hwin. exact Hin.
    + eexists. exact Hr.
  - intros Hle. rewrite sample_unfold.
    replace (Z.to_nat max_new) with 0%nat by lia. reflexivity.
  - intros Hn Hmax. rewrite sample_unfold.
    destruct (Z.to_nat max_new) as [|n] eqn:Hz; [lia|].
    apply sample_loop_unknown; [exact Hwf | | rewrite Hwin; exact Hn].
    rewrite length_initial_window by exact Hpos. lia.
  - intros Hlt. split.
    + apply initial_window_short. lia.
    + apply length_initial_window. exact Hpos.
Qed.

Lemma C4_witness :
  exists s, sample demo (list_ascii_of_string "ab") 5 = Ok s.
Proof.
  destruct (C4_sample_total_on_vocabulary_windows demo (list_ascii_of_string "ab") 5)
    as (Htotal & _).
  - exact demo_wf.
  - vm_compute. lia.
  - apply Htotal.
    vm_compute. repeat apply Forall_cons; try apply Forall_nil; auto 10.
Defined.

(** The space that pads a short seed is not in the vocabulary of
    ["abcabcabc"]. *)
Lemma C4_counterexample :
  sample demo (list_ascii_of_string "a") 1 = Raise KeyError.
Proof. vm_compute. reflexivity. Qed.

(** C5. [predict_next] raises [ValueError] exactly when
    its argument is not [context] characters long; on an argument of
    that length it returns a (character, probability vector) pair when
    every character is in the vocabulary and raises [KeyError]
    otherwise. *)
Theorem C5_predict_next_failure_modes :
  forall (self : TinyLLM) (context_text : str),
    wf_model self ->
    (length context_text <> context self ->
     predict_next self context_text =
     Raise (ValueError ("context_text must be length " ++ nat_to_str (context self)))) /\
    (length context_text = context self -> in_vocab self context_text ->
     exists ch p, predict_next self context_text = Ok (ch, p)) /\
    (length context_text = context self -> ~ in_vocab self context_text ->
     predict_next self context_text = Raise KeyError).
Proof.
  intros self context_text Hwf. split; [|split].
  - apply predict_next_wrong_length.
  - intros Hlen Hin.
    destruct (predict_next_spec self context_text Hwf Hlen Hin)
      as (ch & p & _ & _ & _ & _ & _ & _ & _ & Hpn & _).
    exists ch, p. exact Hpn.
  - apply predict_next_unknown. exact Hwf.
Qed.

Lemma C5_witness :
  (exists ch p, predict_next demo (list_ascii_of_string "ab") = Ok (ch, p)) /\
  predict_next demo (list_ascii_of_string "abc") =
  Raise (ValueError "context_text must be length 2").
Proof.
  destruct (C5_predict_next_failure_modes demo (list_ascii_of_string "ab") demo_wf)
    as (_ & Hok & _).
  destruct (C5_predict_next_failure_modes demo (list_ascii_of_string "abc") demo_wf)
    as (Hbad & _).
  split.
  - apply Hok; [reflexivity|].
    vm_compute. repeat apply Forall_cons; try apply Forall_nil; auto 10.
  - apply Hbad. vm_compute. lia.
Defined.

(** A context of the right length with characters the text never had. *)
Lemma C5_counterexample :
  length (list_ascii_of_string "zz") = context demo /\
  predict_next demo (list_ascii_of_string "zz") = Raise KeyError.
Proof. split; vm_compute; reflexivity. Qed.

(** C6. Construction raises the configuration error if and only if
    [len(text) <= context]; when [len(text) > context] it returns a
    model, whatever the dimensions, learning rate and random draws. *)
Theorem C6_construct_fails_iff_text_too_short :
  forall (rnd : draws) (text : str) (context embed_dim hidden_dim : nat)
         (learning_rate : R),
    (__init__ rnd text context embed_dim hidden_dim learning_rate =
       Raise (ValueError "Training text must be longer than context window") <->
     (length text <= context)%nat) /\
    ((exists e, __init__ rnd text context embed_dim hidden_dim learning_rate = Raise e) <->
     (length text <= context)%nat) /\
    ((context < length text)%nat ->
     exists m, __init__ rnd text context embed_dim hidden_dim learning_rate = Ok m /\
               wf_model m).
Proof.
  intros rnd text context embed_dim hidden_dim learning_rate.
  destruct (Nat.le_gt_cases (length text) context) as [Hle|Hgt].
  - pose proof (init_raises rnd text context embed_dim hidden_dim learning_rate Hle) as Hr.
    split; [|split].
    + split; [intros _; exact Hle | intros _; exact Hr].
    + split; [intros _; exact Hle | intros _; eexists; exact Hr].
    + intros Hgt. lia.
  - pose proof (init_ok rnd text context embed_dim hidden_dim learning_rate Hgt) as Hr.
    split; [|split].
    + split; [rewrite Hr; discriminate | lia].
    + split; [intros [e He]; rewrite Hr in He; discriminate | lia].
    + intros _. eexists. split; [exact Hr|]. apply built_wf. exact Hgt.
Qed.

Lemma C6_witness :
  exists m, __init__ (fun _ => 0) demo_text 2 3 6 (3 / 10) = Ok m /\ wf_model m.
Proof.
  apply (C6_construct_fails_iff_text_too_short (fun _ => 0) demo_text 2 3 6 (3 / 10)).
  vm_compute. lia.
Defined.

Lemma encode_inv (m : TinyLLM) (w : str) (idxs : list nat) :
  wf_model m -> _encode m w = Ok idxs -> in_vocab m w /\ length idxs = length w.
Proof.
  intros Hwf. unfold _encode, encode_with, in_vocab. revert idxs.
  induction w as [|c w IH]; intros idxs; simpl.
  - intros [= <-]. split; [constructor | reflexivity].
  - intros H. apply bind_ok in H. destruct H as (i & Hget & H).
    apply bind_ok in H. destruct H as (rest & Hrest & H). inversion H; subst idxs.
    destruct (IH rest Hrest) as [Hin Hl]. split; [|simpl; lia].
    constructor; [|exact Hin].
    apply (wf_stoi m Hwf) in Hget. apply nth_error_In in Hget. exact Hget.
Qed.

(** C7. On a context of exactly [context] valid indices the forward
    pass returns a probability vector: as long as the vocabulary,
    non-negative, summing to one over the reals.  It is the softmax of
    the output logits, computed by subtracting the maximum logit,
    exponentiating and dividing by the sum of the exponentials; and it
    is the vector [predict_next] returns for a text with those indices. *)
Theorem C7_forward_returns_probability_vector :
  forall (self : TinyLLM) (x_idx : list nat),
    wf_model self ->
    length x_idx = context self ->
    Forall (fun i => (i < length (vocab self))%nat) x_idx ->
    exists p cache logits M,
      _forward self x_idx = Ok (p, cache) /\
      add_inplace (matvec (W2 self) (hidden cache)) (b2 self) = Ok logits /\
      softmax logits = Ok p /\
      length p = length (vocab self) /\
      Forall (fun q => 0 <= q) p /\
      py_sum p = 1 /\
      py_max logits = Ok M /\ In M logits /\ Forall (fun v => v <= M) logits /\
      p = map (fun v => exp (v - M) / py_sum (map (fun u => exp (u - M)) logits)) logits /\
      forall text, _encode self text = Ok x_idx ->
                   exists ch, predict_next self text = Ok (ch, p).
Proof.
  intros self x_idx Hwf Hlen Hall.
  destruct (forward_spec self x_idx Hwf Hall)
    as (p & cache & logits & M & Hf & _ & _ & _ & _ & _ & Hsm & HM & Hin & Hub & Hp &
        Hlp & Hpos & Hsum & Hlog).
  exists p, cache, logits, M.
  split; [exact Hf|]. split; [exact Hlog|]. split; [exact Hsm|]. split; [exact Hlp|].
  split; [|split; [exact Hsum|split; [exact HM|split; [exact Hin|split; [exact Hub|split]]]]].
  - apply Forall_forall. intros q Hq. rewrite Forall_forall in Hpos.
    apply Rlt_le. apply Hpos. exact Hq.
  - rewrite Hp at 1. rewrite map_map. reflexivity.
  - intros text Henc.
    destruct (encode_inv self text x_idx Hwf Henc) as [Hvoc Hl].
    destruct (predict_next_spec self text Hwf) as
      (ch & p' & idxs & cache' & best & Henc' & _ & _ & Hf' & Hpn & _);
      [lia | exact Hvoc |].
    rewrite Henc in Henc'. inversion Henc'; subst idxs.
    rewrite Hf in Hf'. inversion Hf'; subst p'. exists ch. exact Hpn.
Qed.

Lemma C7_witness :
  exists p cache, _forward demo [0; 1]%nat = Ok (p, cache) /\
                  length p = 3%nat /\ py_sum p = 1.
Proof.
  destruct (C7_forward_returns_probability_vector demo [0; 1]%nat)
    as (p & cache & logits & M & Hf & _ & _ & Hl & _ & Hs & _).
  - exact demo_wf.
  - reflexivity.
  - repeat constructor; vm_compute; lia.
  - exists p, cache. split; [exact Hf|]. split; [exact Hl | exact Hs].
Defined.

Lemma nth_error_map_seq {A : Type} (f : nat -> A) (n i : nat) :
  (i < n)%nat -> nth_error (map f (seq 0 n)) i = Some (f i).
Proof.
  intros H. rewrite nth_error_map.
  rewrite (nth_error_nth' (seq 0 n) 0%nat) by (rewrite length_seq; exact H).
  rewrite seq_nth by exact H. reflexivity.
Qed.

(** C8. For a text longer than the context, construction builds
    exactly [len(text) - context] pairs in text order; pair [i] has as
    input the vocabulary indices of [text[i : i + context]], exactly
    [context] of them, and as target the vocabulary index of
    [text[i + context]]. *)
Theorem C8_dataset_is_the_sliding_window :
  forall (rnd : draws) (text : str) (context embed_dim hidden_dim : nat)
         (learning_rate : R),
    (context < length text)%nat ->
    exists m,
      __init__ rnd text context embed_dim hidden_dim learning_rate = Ok m /\
      length (inputs (dataset m)) = (length text - context)%nat /\
      length (targets (dataset m)) = (length text - context)%nat /\
      forall i, (i < length text - context)%nat ->
        exists xs t,
          nth_error (inputs (dataset m)) i = Some xs /\
          nth_error (targets (dataset m)) i = Some t /\
          length xs = context /\
          _encode m (py_slice text i (i + context)) = Ok xs /\
          (forall p, (p < context)%nat ->
             exists v, nth_error xs p = Some v /\
                       nth_error (vocab m) v = Some (nth (i + p) text " "%char)) /\
          dict_get Ascii.eqb (stoi m) (nth (i + context) text " "%char) = Ok t /\
          nth_error (vocab m) t = Some (nth (i + context) text " "%char).
Proof.
  intros rnd text context embed_dim hidden_dim learning_rate Hlen.
  exists (built rnd text context embed_dim hidden_dim learning_rate).
  split; [apply init_ok; exact Hlen|].
  set (voc := sorted (py_set text)).
  set (st := map (fun ic => (snd ic, fst ic)) (enumerate voc)).
  assert (Hidx : forall c, In c text ->
            dict_get Ascii.eqb st c = Ok (index_in st c) /\
            nth_error voc (index_in st c) = Some c /\
            (index_in st c < length voc)%nat).
  { intros c Hc. apply index_in_vocab; [apply vocab_NoDup | apply vocab_In; exact Hc]. }
  unfold built; simpl. fold voc. fold st.
  split; [rewrite length_map, length_seq; reflexivity|].
  split; [rewrite length_map, length_seq; reflexivity|].
  intros i Hi.
  exists (map (index_in st) (py_slice text i (i + context))),
         (index_in st (nth (i + context) text " "%char)).
  split; [apply (nth_error_map_seq
                   (fun i => map (index_in st) (py_slice text i (i + context)))); exact Hi|].
  split; [apply (nth_error_map_seq
                   (fun i => index_in st (nth (i + context) text " "%char))); exact Hi|].
  split; [rewrite length_map; apply length_py_slice; lia|].
  split.
  { unfold _encode; simpl. apply encode_with_ok.
    intros c Hc. exists (index_in st c). apply Hidx. apply In_py_slice in Hc. exact Hc. }
  split.
  { intros p Hp. exists (index_in st (nth (i + p) text " "%char)). split.
    - rewrite nth_error_map.
      rewrite (nth_error_nth' _ " "%char) by (rewrite length_py_slice; lia).
      rewrite nth_py_slice by exact Hp. reflexivity.
    - apply Hidx. apply nth_In. lia. }
  split; apply Hidx; apply nth_In; lia.
Qed.

Lemma C8_witness :
  exists m,
    __init__ (fun _ => 0) demo_text 2 3 6 (3 / 10) = Ok m /\
    length (inputs (dataset m)) = 7%nat /\
    exists xs t, nth_error (inputs (dataset m)) 2 = Some xs /\
                 nth_error (targets (dataset m)) 2 = Some t /\
                 _encode m (list_ascii_of_string "ca") = Ok xs /\
                 nth_error (vocab m) t = Some "b"%char.
Proof.
  destruct (C8_dataset_is_the_sliding_window (fun _ => 0) demo_text 2 3 6 (3 / 10))
    as (m & Hm & Hl & _ & Hpairs).
  - vm_compute. lia.
  - exists m. split; [exact Hm|]. split; [exact Hl|].
    destruct (Hpairs 2%nat) as (xs & t & Hx & Ht & _ & Henc & _ & _ & Hv).
    + vm_compute. lia.
    + exists xs, t. auto.
Defined.

(** C9. On a context of exactly [context] vocabulary characters,
    [predict_next] returns the vocabulary symbol at the least index
    where the returned probability vector attains its maximum: no
    entry exceeds it and every entry at a lower index is strictly
    smaller. *)
Theorem C9_predict_next_returns_first_argmax :
  forall (self : TinyLLM) (context_text : str),
    wf_model self ->
    length context_text = context self ->
    in_vocab self context_text ->
    exists ch p best,
      predict_next self context_text = Ok (ch, p) /\
      nth_error (vocab self) best = Some ch /\
      dict_get Ascii.eqb (stoi self) ch = Ok best /\
      (best < length p)%nat /\
      (forall k, (k < length p)%nat -> nth k p 0 <= nth best p 0) /\
      (forall k, (k < best)%nat -> nth k p 0 < nth best p 0).
Proof.
  intros self context_text Hwf Hlen Hin.
  destruct (predict_next_spec self context_text Hwf Hlen Hin)
    as (ch & p & idxs & cache & best & _ & _ & _ & _ & Hpn & Hch & Hlt & Hmax & Hfst).
  exists ch, p, best. split; [exact Hpn|]. split; [exact Hch|].
  split; [apply (wf_stoi self Hwf); exact Hch|]. auto.
Qed.

Lemma C9_witness :
  exists ch p best,
    predict_next demo (list_ascii_of_string "bc") = Ok (ch, p) /\
    nth_error (vocab demo) best = Some ch /\
    (forall k, (k < best)%nat -> nth k p 0 < nth best p 0).
Proof.
  destruct (C9_predict_next_returns_first_argmax demo (list_ascii_of_string "bc"))
    as (ch & p & best & Hpn & Hch & _ & _ & _ & Hfst).
  - exact demo_wf.
  - reflexivity.
  - vm_compute. repeat apply Forall_cons; try apply Forall_nil; auto 10.
  - exists ch, p, best. auto.
Defined.

Lemma reachable_wf (rnd : draws) (text : str) (ctx embed hid : nat) (lr : R)
    (m : TinyLLM) :
  reachable rnd text ctx embed hid lr m ->
  wf_model m /\ (ctx < length text)%nat /\
  length (inputs (dataset m)) = (length text - ctx)%nat.
Proof.
  induction 1 as [m Hinit | m m' total g Hreach IH Heg Hap].
  - destruct (Nat.le_gt_cases (length text) ctx) as [Hle|Hgt].
    + rewrite init_raises in Hinit by exact Hle. discriminate.
    + split; [apply (init_wf _ _ _ _ _ _ _ Hinit)|]. split; [exact Hgt|].
      rewrite init_ok in Hinit by exact Hgt. inversion Hinit; subst m.
      unfold built; simpl. rewrite length_map, length_seq. reflexivity.
  - destruct IH as (Hwf & Hlen & Hn).
    assert (Hne : inputs (dataset m) <> []).
    { intros Hnil. rewrite Hnil in Hn. simpl in Hn. lia. }
    destruct (epoch_grads_spec m Hwf Hne) as (gs & total' & avg & _ & Hr & Hsh & _).
    rewrite Hr in Heg. inversion Heg; subst total' avg.
    destruct (apply_grads_spec m g Hwf Hsh) as (m'' & Ha & Hframe & Hwf' & _).
    rewrite Ha in Hap. inversion Hap; subst m''.
    split; [exact Hwf'|]. split; [exact Hlen|].
    destruct Hframe as (_ & _ & _ & _ & _ & _ & _ & Hds). rewrite Hds. exact Hn.
Qed.

(** C10. A model built from a text longer than the context, before
    and after any number of updates, has at least one dataset pair;
    the division by the number of pairs in [loss] and the factor
    [1 / num_samples] in [train] are therefore defined, [loss] returns
    a value and the averaging step of an epoch returns the mean
    gradients. *)
Theorem C10_dataset_nonempty_divisions_defined :
  forall (rnd : draws) (text : str) (ctx embed hid : nat) (lr : R) (m : TinyLLM),
    (ctx < length text)%nat ->
    reachable rnd text ctx embed hid lr m ->
    let n := length (inputs (dataset m)) in
    (1 <= n)%nat /\
    n = (length text - ctx)%nat /\
    (forall x, py_div x (INR n) = Ok (x / INR n)) /\
    (exists l, loss m = Ok l) /\
    (exists total avg, epoch_grads m n = Ok (total, avg)).
Proof.
  intros rnd text ctx embed hid lr m Hlen Hreach n.
  destruct (reachable_wf _ _ _ _ _ _ _ Hreach) as (Hwf & _ & Hn).
  fold n in Hn.
  assert (Hne : inputs (dataset m) <> []).
  { intros Hnil. unfold n in Hn. rewrite Hnil in Hn. simpl in Hn. lia. }
  split; [lia|]. split; [exact Hn|]. split; [|split].
  - intros x. unfold py_div. destruct (Req_dec_T (INR n) 0) as [H0|_]; [|reflexivity].
    exfalso. revert H0. apply not_0_INR. lia.
  - apply loss_ok; assumption.
  - destruct (epoch_grads_spec m Hwf Hne) as (gs & total & avg & _ & Hr & _).
    exists total, avg. exact Hr.
Qed.

Lemma C10_witness :
  (1 <= length (inputs (dataset demo)))%nat /\
  (exists l, loss demo = Ok l) /\
  (exists total avg, epoch_grads demo (length (inputs (dataset demo))) = Ok (total, avg)).
Proof.
  destruct (C10_dataset_nonempty_divisions_defined
              (fun _ => 0) demo_text 2 3 6 (3 / 10) demo)
    as (H1 & _ & _ & Hloss & Havg).
  - vm_compute. lia.
  - apply reach_init. apply init_ok. vm_compute. lia.
  - split; [exact H1|]. split; [exact Hloss | exact Havg].
Defined.

(** * Further properties of the model code *)

(** ** Vocabulary order and symbol tables *)

Lemma nat_of_ascii_inj (a b : ascii) : nat_of_ascii a = nat_of_ascii b -> a = b.
Proof.
  intros H. rewrite <- (ascii_nat_embedding a), <- (ascii_nat_embedding b), H.
  reflexivity.
Qed.

Lemma insert_sorted_le (c : ascii) (l : list ascii) :
  StronglySorted (fun a b => char_le a b = true) l ->
  StronglySorted (fun a b => char_le a b = true) (insert_sorted c l).
Proof.
  intros Hs. induction Hs as [|h t Hs IH Hall]; simpl.
  - constructor; constructor.
  - destruct (char_le c h) eqn:Hch.
    + constructor; [constructor; assumption|].
      constructor; [exact Hch|].
      apply Forall_forall. intros x Hx. rewrite Forall_forall in Hall.
      specialize (Hall x Hx). unfold char_le in *.
      apply Nat.leb_le. apply Nat.leb_le in Hch, Hall. lia.
    + constructor; [exact IH|].
      apply Forall_forall. intros x Hx.
      apply (Permutation_in x (insert_sorted_perm c t)) in Hx.
      destruct Hx as [<-|Hx].
      * unfold char_le in *. apply Nat.leb_le. apply Nat.leb_gt in Hch. lia.
      * rewrite Forall_forall in Hall. apply Hall. exact Hx.
Qed.

Lemma sorted_le (l : list ascii) :
  StronglySorted (fun a b => char_le a b = true) (sorted l).
Proof.
  induction l as [|h t IH]; simpl; [constructor | apply insert_sorted_le; exact IH].
Qed.

Lemma sorted_strict (l : list ascii) :
  NoDup l -> StronglySorted (fun a b => char_le a b = true) l -> StronglySorted char_lt l.
Proof.
  intros Hnd Hs. induction Hs as [|h t Hs IH Hall]; [constructor|].
  inversion Hnd as [|? ? Hnot Hnd']; subst.
  constructor; [apply IH; exact Hnd'|].
  apply Forall_forall. intros x Hx. rewrite Forall_forall in Hall.
  specialize (Hall x Hx). unfold char_le, char_lt in *. apply Nat.leb_le in Hall.
  destruct (Nat.eq_dec (nat_of_ascii h) (nat_of_ascii x)) as [Heq|Hne]; [|lia].
  apply nat_of_ascii_inj in Heq. subst x. contradiction.
Qed.

(** X1. The vocabulary [_build_vocab] returns holds exactly the
    characters of the text, in strictly increasing code-point order
    (hence without repetition). *)
Theorem X1_vocabulary_sorted_exact :
  forall (text : str) (vocab : list ascii) (stoi : dict ascii nat) (itos : dict nat ascii),
    _build_vocab text = (vocab, stoi, itos) ->
    (forall c, In c vocab <-> In c text) /\
    StronglySorted char_lt vocab /\
    NoDup vocab /\
    (length vocab <= length text)%nat.
Proof.
  intros text vocab stoi itos H. unfold _build_vocab in H. inversion H; subst. clear H.
  split; [apply vocab_In|]. split; [|split].
  - apply sorted_strict; [apply vocab_NoDup | apply sorted_le].
  - apply vocab_NoDup.
  - apply NoDup_incl_length; [apply vocab_NoDup|].
    intros c Hc. apply vocab_In. exact Hc.
Qed.

Lemma X1_witness :
  StronglySorted char_lt (list_ascii_of_string "belo") /\
  forall c, In c (list_ascii_of_string "belo") <-> In c (list_ascii_of_string "bello").
Proof.
  destruct (X1_vocabulary_sorted_exact (list_ascii_of_string "bello")
              (list_ascii_of_string "belo")
              [("b", 0); ("e", 1); ("l", 2); ("o", 3)]%char%nat
              [(0, "b"); (1, "e"); (2, "l"); (3, "o")]%char%nat)
    as (Hin & Hs & _).
  - vm_compute. reflexivity.
  - split; [exact Hs | exact Hin].
Defined.

Lemma itos_lookup_inv (vocab : list ascii) (c : ascii) (i : nat) :
  dict_get Nat.eqb (enumerate vocab) i = Ok c -> nth_error vocab i = Some c.
Proof.
  intros H. apply (dict_get_In Nat.eqb Nat.eqb_eq) in H. apply In_enumerate. exact H.
Qed.

(** X2. The two symbol tables [_build_vocab] returns are inverse to
    each other and mirror the vocabulary: [stoi[c] = i] exactly when
    [itos[i] = c], exactly when [vocab[i] = c]; a character that is not
    in the text, and an index past the vocabulary, raise [KeyError]. *)
Theorem X2_symbol_tables_inverse :
  forall (text : str) (vocab : list ascii) (stoi : dict ascii nat) (itos : dict nat ascii),
    _build_vocab text = (vocab, stoi, itos) ->
    (forall c i, dict_get Ascii.eqb stoi c = Ok i <-> nth_error vocab i = Some c) /\
    (forall c i, dict_get Nat.eqb itos i = Ok c <-> nth_error vocab i = Some c) /\
    (forall c i, dict_get Ascii.eqb stoi c = Ok i <-> dict_get Nat.eqb itos i = Ok c) /\
    (forall c, ~ In c text -> dict_get Ascii.eqb stoi c = Raise KeyError) /\
    (forall i, (length vocab <= i)%nat -> dict_get Nat.eqb itos i = Raise KeyError).
Proof.
  intros text vocab stoi itos H.
  pose proof (build_vocab_stoi text) as Hb. rewrite H in Hb. destruct Hb as [-> ->].
  assert (Hv : vocab = sorted (py_set text)).
  { unfold _build_vocab in H. inversion H. reflexivity. }
  assert (Hnd : NoDup vocab) by (rewrite Hv; apply vocab_NoDup).
  assert (H1 : forall c i,
             dict_get Ascii.eqb (map (fun ic => (snd ic, fst ic)) (enumerate vocab)) c = Ok i <->
             nth_error vocab i = Some c) by (intros; apply stoi_lookup; exact Hnd).
  assert (H2 : forall c i,
             dict_get Nat.eqb (enumerate vocab) i = Ok c <-> nth_error vocab i = Some c).
  { intros c i. split; [apply itos_lookup_inv | apply itos_lookup]. }
  split; [exact H1|]. split; [exact H2|]. split; [|split].
  - intros c i. rewrite H1, H2. tauto.
  - intros c Hc. apply (dict_get_missing Ascii.eqb Ascii.eqb_eq).
    rewrite map_map. simpl. rewrite map_snd_enumerate. rewrite Hv.
    intros Hin. apply Hc. apply vocab_In. exact Hin.
  - intros i Hi. apply (dict_get_missing Nat.eqb Nat.eqb_eq).
    rewrite map_fst_enumerate. intros Hin. apply in_seq in Hin. lia.
Qed.

Lemma X2_witness :
  dict_get Ascii.eqb (stoi demo) "z"%char = Raise KeyError /\
  (forall c i, dict_get Ascii.eqb (stoi demo) c = Ok i <->
               dict_get Nat.eqb (itos demo) i = Ok c).
Proof.
  destruct (X2_symbol_tables_inverse demo_text (vocab demo) (stoi demo) (itos demo))
    as (_ & _ & Hinv & Hmiss & _).
  - vm_compute. reflexivity.
  - split; [|exact Hinv]. apply Hmiss. vm_compute.
    intros H. repeat (destruct H as [H|H]; [discriminate|]). exact H.
Defined.

Lemma decode_encode (m : TinyLLM) (text : str) (idxs : list nat) :
  wf_model m -> _encode m text = Ok idxs -> decode m idxs = Ok text.
Proof.
  intros Hwf. unfold _encode, encode_with, decode. revert idxs.
  induction text as [|c w IH]; intros idxs; simpl.
  - intros [= <-]. reflexivity.
  - intros H. apply bind_ok in H. destruct H as (i & Hget & H).
    apply bind_ok in H. destruct H as (rest & Hrest & H). inversion H; subst idxs.
    simpl. apply (wf_stoi m Hwf) in Hget.
    rewrite (wf_itos m Hwf c i Hget). simpl. rewrite (IH rest Hrest). reflexivity.
Qed.

Lemma encode_decode (m : TinyLLM) (idxs : list nat) :
  wf_model m -> Forall (fun i => (i < length (vocab m))%nat) idxs ->
  exists text, decode m idxs = Ok text /\ _encode m text = Ok idxs.
Proof.
  intros Hwf Hall. unfold _encode, encode_with, decode.
  induction Hall as [|i idxs Hi Hall IH]; simpl.
  - exists []. auto.
  - destruct IH as (text & Hd & He).
    destruct (nth_error (vocab m) i) as [c|] eqn:Hc.
    2:{ apply nth_error_None in Hc. lia. }
    rewrite (wf_itos m Hwf c i Hc). simpl. rewrite Hd. simpl.
    exists (c :: text). split; [reflexivity|]. simpl.
    assert (Hget : dict_get Ascii.eqb (stoi m) c = Ok i) by (apply (wf_stoi m Hwf); exact Hc).
    rewrite Hget. simpl. rewrite He. reflexivity.
Qed.

(** X3. [_encode] and the [itos] table round-trip: decoding the
    indices [_encode] returns gives back the text, and every list of
    valid indices decodes to a text that encodes to it.  [_encode]
    returns exactly on texts of vocabulary characters, with one index
    below the vocabulary size per character, and raises [KeyError] on
    any other text. *)
Theorem X3_encode_round_trip :
  forall (self : TinyLLM) (text : str) (idxs : list nat),
    wf_model self ->
    (_encode self text = Ok idxs ->
     decode self idxs = Ok text /\ length idxs = length text /\
     Forall (fun i => (i < length (vocab self))%nat) idxs) /\
    (Forall (fun i => (i < length (vocab self))%nat) idxs ->
     exists t, decode self idxs = Ok t /\ _encode self t = Ok idxs) /\
    ((exists r, _encode self text = Ok r) <-> in_vocab self text) /\
    (~ in_vocab self text -> _encode self text = Raise KeyError).
Proof.
  intros self text idxs Hwf. split; [|split; [|split]].
  - intros H. split; [apply decode_encode; assumption|].
    destruct (encode_inv self text idxs Hwf H) as [Hin Hl]. split; [exact Hl|].
    destruct (encode_ok self text Hwf Hin) as (idxs' & H' & _ & Hall).
    rewrite H in H'. inversion H'; subst. exact Hall.
  - apply encode_decode. exact Hwf.
  - split.
    + intros [r Hr]. apply (encode_inv self text r Hwf Hr).
    + intros Hin. destruct (encode_ok self text Hwf Hin) as (r & Hr & _). exists r. exact Hr.
  - apply encode_unknown. exact Hwf.
Qed.

Lemma X3_witness :
  _encode demo (list_ascii_of_string "cab") = Ok [2; 0; 1]%nat /\
  decode demo [2; 0; 1]%nat = Ok (list_ascii_of_string "cab").
Proof.
  destruct (X3_encode_round_trip demo (list_ascii_of_string "cab") [2; 0; 1]%nat demo_wf)
    as (Hrt & _).
  assert (He : _encode demo (list_ascii_of_string "cab") = Ok [2; 0; 1]%nat)
    by (vm_compute; reflexivity).
  split; [exact He | apply Hrt; exact He].
Defined.

(** ** The numeric helpers *)

(** Boolean comparisons in hypotheses, turned into arithmetic. *)
Ltac bool_arith :=
  repeat match goal with
  | H : (_ && _)%bool = true |- _ => apply andb_true_iff in H; destruct H
  | H : (_ && _)%bool = false |- _ => apply andb_false_iff in H; destruct H
  | H : (_ <=? _)%nat = true |- _ => apply Nat.leb_le in H
  | H : (_ <=? _)%nat = false |- _ => apply Nat.leb_gt in H
  | H : (_ <? _)%nat = true |- _ => apply Nat.ltb_lt in H
  | H : (_ <? _)%nat = false |- _ => apply Nat.ltb_ge in H
  end.

Lemma add_inplace_from_spec (src : Vector) (s : nat) (target : Vector) :
  (s + length src <= length target)%nat ->
  exists r,
    for_each (combine (seq s (length src)) src)
      (fun iv tgt => t <- getitem tgt (fst iv) ;; setitem tgt (fst iv) (t + snd iv))
      target = Ok r /\
    length r = length target /\
    forall i, nth i r 0 =
              if ((s <=? i) && (i <? s + length src))%nat
              then nth i target 0 + nth (i - s) src 0
              else nth i target 0.
Proof.
  revert s target. induction src as [|x src IH]; intros s target Hlen.
  - exists target. split; [reflexivity|]. split; [reflexivity|].
    intros i. destruct ((s <=? i) && (i <? s + length (@nil R)))%nat eqn:B; [|reflexivity].
    bool_arith. simpl in *. lia.
  - assert (Hlen' : (s + S (length src) <= length target)%nat) by exact Hlen.
    simpl.
    rewrite (getitem_ok target s 0) by lia. simpl.
    rewrite setitem_ok by lia. simpl.
    destruct (IH (S s) (replace_nth target s (nth s target 0 + x))) as (r & Hr & Hl & Hel).
    + rewrite length_replace_nth. lia.
    + exists r. split; [exact Hr|]. split; [rewrite Hl; apply length_replace_nth|].
      intros i. rewrite Hel.
      destruct ((S s <=? i) && (i <? S s + length src))%nat eqn:B1;
        destruct ((s <=? i) && (i <? s + S (length src)))%nat eqn:B2.
      * bool_arith. rewrite nth_replace_nth_neq by lia.
        replace (i - s)%nat with (S (i - S s)) by lia. reflexivity.
      * exfalso. bool_arith; lia.
      * assert (i = s) by (bool_arith; lia). subst i.
        rewrite nth_replace_nth_eq by lia. rewrite Nat.sub_diag. reflexivity.
      * apply nth_replace_nth_neq. bool_arith; lia.
Qed.

Lemma add_inplace_from_raises (src : Vector) (s : nat) (target : Vector) :
  (s <= length target < s + length src)%nat ->
  for_each (combine (seq s (length src)) src)
    (fun iv tgt => t <- getitem tgt (fst iv) ;; setitem tgt (fst iv) (t + snd iv))
    target = Raise IndexError.
Proof.
  revert s target. induction src as [|x src IH]; intros s target Hlen; simpl in *; [lia|].
  destruct (Nat.eq_dec s (length target)) as [Heq|Hne].
  - rewrite getitem_out by lia. reflexivity.
  - rewrite (getitem_ok target s 0) by lia. simpl.
    rewrite setitem_ok by lia. simpl.
    apply IH. rewrite length_replace_nth. lia.
Qed.

(** X4. [add_inplace(target, src)] adds [src] entry by entry into the
    first [len(src)] entries of [target] and leaves the rest and the
    length alone; it raises [IndexError] exactly when [src] is longer
    than [target]. *)
Theorem X4_add_inplace_adds_prefix_or_raises :
  forall (target src : Vector),
    ((length src <= length target)%nat ->
     exists r, add_inplace target src = Ok r /\
               length r = length target /\
               (forall i, (i < length src)%nat -> nth i r 0 = nth i target 0 + nth i src 0) /\
               (forall i, (length src <= i)%nat -> nth i r 0 = nth i target 0)) /\
    ((length target < length src)%nat -> add_inplace target src = Raise IndexError).
Proof.
  intros target src. split.
  - intros Hlen.
    destruct (add_inplace_from_spec src 0 target) as (r & Hr & Hl & Hel); [simpl; lia|].
    exists r. split; [exact Hr|]. split; [exact Hl|]. split.
    + intros i Hi. rewrite Hel. simpl.
      destruct (Nat.ltb_spec i (length src)); [|lia]. rewrite Nat.sub_0_r. reflexivity.
    + intros i Hi. rewrite Hel. simpl.
      destruct (Nat.ltb_spec i (length src)); [lia | reflexivity].
  - intros Hlen. apply (add_inplace_from_raises src 0 target). simpl. lia.
Qed.

Lemma X4_witness :
  (exists r, add_inplace [1; 2; 3] [10; 20] = Ok r /\ nth 1 r 0 = 2 + 20 /\ nth 2 r 0 = 3) /\
  add_inplace [1] [10; 20] = Raise IndexError.
Proof.
  destruct (X4_add_inplace_adds_prefix_or_raises [1; 2; 3] [10; 20]) as (Hok & _).
  destruct (X4_add_inplace_adds_prefix_or_raises [1] [10; 20]) as (_ & Hbad).
  split.
  - destruct Hok as (r & Hr & _ & Hlo & Hhi); [simpl; lia|].
    exists r. split; [exact Hr|]. split.
    + apply (Hlo 1%nat). simpl. lia.
    + apply (Hhi 2%nat). simpl. lia.
  - apply Hbad. simpl. lia.
Defined.

Lemma fold_max_shift (l : list R) (a c : R) :
  fold_left (fun acc v => if Rlt_dec acc v then v else acc) (map (fun v => v + c) l) (a + c) =
  fold_left (fun acc v => if Rlt_dec acc v then v else acc) l a + c.
Proof.
  revert a. induction l as [|x l IH]; intros a; simpl; [reflexivity|].
  destruct (Rlt_dec (a + c) (x + c)) as [H1|H1]; destruct (Rlt_dec a x) as [H2|H2];
    try lra; apply IH.
Qed.

(** X5. The softmax does not change when a constant is added to every
    logit (the property the subtraction of the maximum relies on); on
    an empty vector both sides raise the [ValueError] of [max]. *)
Theorem X5_softmax_shift_invariant :
  forall (vec : Vector) (c : R),
    softmax (map (fun v => v + c) vec) = softmax vec.
Proof.
  intros vec c. destruct vec as [|x t]; [reflexivity|].
  set (M := fold_left (fun acc v => if Rlt_dec acc v then v else acc) t x).
  assert (Hmax : py_max (map (fun v => v + c) (x :: t)) = Ok (M + c)).
  { simpl. rewrite fold_max_shift. reflexivity. }
  assert (Hmax0 : py_max (x :: t) = Ok M) by reflexivity.
  assert (Hexps : map (fun v => exp (v - (M + c))) (map (fun v => v + c) (x :: t)) =
                  map (fun v => exp (v - M)) (x :: t)).
  { rewrite map_map. apply map_ext. intros v. f_equal. lra. }
  unfold softmax. rewrite Hmax, Hmax0. cbn [bind]. rewrite Hexps. reflexivity.
Qed.

Lemma nth_map_default {A : Type} (f : A -> R) (l : list A) (i : nat) (d : A) :
  (i < length l)%nat -> nth i (map f l) 0 = f (nth i l d).
Proof.
  intros H. rewrite (nth_indep (map f l) 0 (f d)) by (rewrite length_map; exact H).
  apply map_nth.
Qed.



(** ** The layers of the forward pass *)

Lemma mapM_getitem_eq (m : Matrix) (r c : nat) (xs : list nat) :
  shape r c m -> Forall (fun i => (i < r)%nat) xs ->
  mapM (getitem m) xs = Ok (map (fun i => nth i m []) xs).
Proof.
  intros [Hl Hr] Hall. induction Hall as [|x xs Hx Hall IH]; simpl; [reflexivity|].
  rewrite (getitem_ok m x []) by lia. simpl. rewrite IH. reflexivity.
Qed.

Lemma nth_matvec (mat : Matrix) (vec : Vector) (j : nat) :
  (j < length mat)%nat -> nth j (matvec mat vec) 0 = dot (nth j mat []) vec.
Proof.
  intros H. unfold matvec, dot.
  apply (nth_map_default
           (fun row => py_sum (map (fun mv => fst mv * snd mv) (combine row vec)))
           mat j [] H).
Qed.

Lemma nth_relu (vec : Vector) (j : nat) :
  nth j (relu vec) 0 = if Rlt_dec 0 (nth j vec 0) then nth j vec 0 else 0.
Proof.
  unfold relu. destruct (Nat.lt_ge_cases j (length vec)) as [H|H].
  - apply (nth_map_default (fun v => if Rlt_dec 0 v then v else 0) vec j 0 H).
  - rewrite !nth_overflow by (rewrite ?length_map; exact H).
    destruct (Rlt_dec 0 0); reflexivity.
Qed.

Lemma add_inplace_nth (target src : Vector) :
  (length src <= length target)%nat ->
  exists r, add_inplace target src = Ok r /\ length r = length target /\
            forall i, (i < length src)%nat -> nth i r 0 = nth i target 0 + nth i src 0.
Proof.
  intros Hlen.
  destruct (add_inplace_from_spec src 0 target) as (r & Hr & Hl & Hel); [simpl; lia|].
  exists r. split; [exact Hr|]. split; [exact Hl|].
  intros i Hi. rewrite Hel. simpl.
  destruct (Nat.ltb_spec i (length src)); [|lia]. rewrite Nat.sub_0_r. reflexivity.
Qed.

(** X7. The forward pass on valid indices computes, layer by layer:
    the flat input is the concatenation of the embedding rows of the
    indices in order; each hidden pre-activation is the dot product of
    a row of [W1] with the flat input plus its bias; the hidden state
    is its ReLU (never negative); each logit is the dot product of a
    row of [W2] with the hidden state plus its bias; the probabilities
    are the softmax of the logits. *)
Theorem X7_forward_layer_formulas :
  forall (self : TinyLLM) (x_idx : list nat),
    wf_model self ->
    Forall (fun i => (i < length (vocab self))%nat) x_idx ->
    exists p cache logits,
      _forward self x_idx = Ok (p, cache) /\
      x_indices cache = x_idx /\ probs cache = p /\
      x_flat cache = concat (map (fun i => nth i (E self) []) x_idx) /\
      length (hidden_raw cache) = hidden_dim self /\
      (forall j, (j < hidden_dim self)%nat ->
         nth j (hidden_raw cache) 0 =
         dot (nth j (W1 self) []) (x_flat cache) + nth j (b1 self) 0) /\
      hidden cache = relu (hidden_raw cache) /\
      (forall j, 0 <= nth j (hidden cache) 0) /\
      length logits = length (vocab self) /\
      (forall i, (i < length (vocab self))%nat ->
         nth i logits 0 = dot (nth i (W2 self) []) (hidden cache) + nth i (b2 self) 0) /\
      softmax logits = Ok p.
Proof.
  intros self x_idx Hwf Hx.
  destruct Hwf as [Hvoc _ _ HE [HW1 _] Hb1 [HW2 _] Hb2 _ _ _].
  pose proof (mapM_getitem_eq (E self) _ _ x_idx HE Hx) as Hrows.
  set (xf := concat (map (fun i => nth i (E self) []) x_idx)) in *.
  destruct (add_inplace_nth (matvec (W1 self) xf) (b1 self))
    as (hraw & Hhraw & Hlraw & Hraw_lo); [rewrite length_matvec; lia|].
  destruct (add_inplace_nth (matvec (W2 self) (relu hraw)) (b2 self))
    as (logits & Hlogits & Hllog & Hlog_lo); [rewrite length_matvec; lia|].
  rewrite length_matvec in Hlraw, Hllog.
  assert (Hne : logits <> []).
  { intros ->. simpl in Hllog. destruct (vocab self); [congruence | simpl in *; lia]. }
  destruct (softmax_spec logits Hne) as (p & M & Hsm & _).
  exists p, (mkCache x_idx xf (relu hraw) hraw p), logits.
  split.
  { unfold _forward. rewrite Hrows. simpl. fold xf. rewrite Hhraw. simpl.
    rewrite Hlogits. simpl. rewrite Hsm. reflexivity. }
  simpl. split; [reflexivity|]. split; [reflexivity|]. split; [reflexivity|].
  split; [lia|]. split.
  { intros j Hj. rewrite Hraw_lo by lia. rewrite nth_matvec by lia. reflexivity. }
  split; [reflexivity|]. split.
  { intros j. rewrite nth_relu. destruct (Rlt_dec 0 (nth j hraw 0)); lra. }
  split; [lia|]. split; [|exact Hsm].
  intros i Hi. rewrite Hlog_lo by lia. rewrite nth_matvec by lia. reflexivity.
Qed.

Lemma X7_witness :
  exists p cache logits,
    _forward demo [2; 0]%nat = Ok (p, cache) /\
    x_flat cache = nth 2 (E demo) [] ++ nth 0 (E demo) [] /\
    nth 0 logits 0 = dot (nth 0 (W2 demo) []) (hidden cache) + nth 0 (b2 demo) 0 /\
    softmax logits = Ok p.
Proof.
  destruct (X7_forward_layer_formulas demo [2; 0]%nat)
    as (p & cache & logits & Hf & _ & _ & Hxf & _ & _ & _ & _ & _ & Hlog & Hsm).
  - exact demo_wf.
  - repeat constructor; vm_compute; lia.
  - exists p, cache, logits. split; [exact Hf|]. split.
    + rewrite Hxf. cbn [map concat]. rewrite app_nil_r. reflexivity.
    + split; [|exact Hsm]. apply Hlog. vm_compute. lia.
Defined.

(** ** The formulas of the backward pass *)

Lemma py_sum_snoc (l : list R) (x : R) : py_sum (l ++ [x]) = py_sum l + x.
Proof. unfold py_sum. rewrite fold_left_app. reflexivity. Qed.

Lemma py_sum_replace_nth (l : list R) (t : nat) (v : R) :
  (t < length l)%nat -> py_sum (replace_nth l t v) = py_sum l - nth t l 0 + v.
Proof.
  revert t. induction l as [|x l IH]; intros [|t] H; simpl in *; try lia.
  - rewrite !py_sum_cons. lra.
  - rewrite !py_sum_cons, IH by lia. lra.
Qed.

(** The inner loop of a dense-layer gradient, for row [i]: the row of
    the gradient matrix is written and every entry of the running
    vector receives one more term. *)
Lemma dense_row_spec (rows cols i : nat) (a b : Vector) (w : Matrix)
    (f g : R -> R -> R) (m0 : Matrix) (v0 : Vector) :
  length a = rows -> length b = cols -> shape rows cols w ->
  (i < rows)%nat -> shape rows cols m0 -> length v0 = cols ->
  exists gm gv,
    for_range cols
      (fun j st =>
         ai <- getitem a i ;;
         bj <- getitem b j ;;
         gm <- setitem2 (fst st) i j (f ai bj) ;;
         acc <- getitem (snd st) j ;;
         wij <- getitem2 w i j ;;
         gv <- setitem (snd st) j (acc + g wij ai) ;;
         Ok (gm, gv))
      (m0, v0) = Ok (gm, gv) /\
    shape rows cols gm /\ length gv = cols /\
    (forall j, (j < cols)%nat -> el gm i j = f (nth i a 0) (nth j b 0)) /\
    (forall i' j, i' <> i -> el gm i' j = el m0 i' j) /\
    (forall j, (j < cols)%nat -> nth j gv 0 = nth j v0 0 + g (el w i j) (nth i a 0)).
Proof.
  intros Ha Hb Hw Hi Hm0 Hv0.
  pose (P := fun (j : nat) (st : Matrix * Vector) =>
    shape rows cols (fst st) /\ length (snd st) = cols /\
    (forall j', (j' < j)%nat -> el (fst st) i j' = f (nth i a 0) (nth j' b 0)) /\
    (forall i' j', i' <> i -> el (fst st) i' j' = el m0 i' j') /\
    (forall j', (j' < j)%nat -> nth j' (snd st) 0 = nth j' v0 0 + g (el w i j') (nth i a 0)) /\
    (forall j', (j <= j')%nat -> nth j' (snd st) 0 = nth j' v0 0)).
  match goal with
  | |- exists gm gv, for_range cols ?body ?s0 = _ /\ _ =>
      destruct (for_range_inv P body cols s0)
        as ([gm gv] & Hr & Hs & Hl & Hrow & Hoth & Hv & _)
  end.
  - unfold P; simpl. split; [exact Hm0|]. split; [exact Hv0|].
    split; [intros; lia|]. split; [reflexivity|]. split; [intros; lia | reflexivity].
  - intros j [m v] Hj (Hm & Hv & Hrow & Hoth & Hlo & Hhi). simpl in *.
    rewrite (getitem_ok a i 0) by lia. simpl.
    rewrite (getitem_ok b j 0) by lia. simpl.
    rewrite (setitem2_ok rows cols) by assumption. simpl.
    rewrite (getitem_ok v j 0) by lia. simpl.
    rewrite (getitem2_ok rows cols) by assumption. simpl.
    rewrite setitem_ok by lia. simpl.
    eexists. split; [reflexivity|]. unfold P; simpl.
    split; [apply shape_mset; exact Hm|].
    split; [rewrite length_replace_nth; exact Hv|].
    split; [|split; [|split]].
    + intros j' Hj'. destruct (Nat.eq_dec j' j) as [->|Hne].
      * apply (el_mset_same rows cols); assumption.
      * rewrite (el_mset_other rows cols) by (try assumption; congruence).
        apply Hrow. lia.
    + intros i' j' Hne.
      rewrite (el_mset_other rows cols) by (try assumption; congruence).
      apply Hoth. exact Hne.
    + intros j' Hj'. destruct (Nat.eq_dec j' j) as [->|Hne].
      * rewrite nth_replace_nth_eq by lia. rewrite Hhi by lia. reflexivity.
      * rewrite nth_replace_nth_neq by congruence. apply Hlo. lia.
    + intros j' Hj'. rewrite nth_replace_nth_neq by lia. apply Hhi. lia.
  - exists gm, gv. simpl in *. auto 10.
Qed.

(** Both dense-layer loops: the gradient matrix is the outer product
    and the running vector the column sums, added in row order. *)
Lemma dense_loop_spec (rows cols : nat) (a b : Vector) (w : Matrix)
    (f g : R -> R -> R) :
  length a = rows -> length b = cols -> shape rows cols w ->
  exists gm gv,
    for_range rows
      (fun i st =>
         for_range cols
           (fun j st =>
              ai <- getitem a i ;;
              bj <- getitem b j ;;
              gm <- setitem2 (fst st) i j (f ai bj) ;;
              acc <- getitem (snd st) j ;;
              wij <- getitem2 w i j ;;
              gv <- setitem (snd st) j (acc + g wij ai) ;;
              Ok (gm, gv))
           st)
      (zeros rows cols, repeat 0 cols) = Ok (gm, gv) /\
    shape rows cols gm /\ length gv = cols /\
    (forall i j, (i < rows)%nat -> (j < cols)%nat ->
                 el gm i j = f (nth i a 0) (nth j b 0)) /\
    (forall j, (j < cols)%nat ->
       nth j gv 0 = py_sum (map (fun i => g (el w i j) (nth i a 0)) (seq 0 rows))).
Proof.
  intros Ha Hb Hw.
  pose (P := fun (i : nat) (st : Matrix * Vector) =>
    shape rows cols (fst st) /\ length (snd st) = cols /\
    (forall i' j, (i' < i)%nat -> (j < cols)%nat ->
                  el (fst st) i' j = f (nth i' a 0) (nth j b 0)) /\
    (forall j, (j < cols)%nat ->
       nth j (snd st) 0 = py_sum (map (fun i' => g (el w i' j) (nth i' a 0)) (seq 0 i)))).
  match goal with
  | |- exists gm gv, for_range rows ?body ?s0 = _ /\ _ =>
      destruct (for_range_inv P body rows s0) as ([gm gv] & Hr & Hs & Hl & Hm & Hv)
  end.
  - unfold P; simpl. split; [apply shape_zeros|]. split; [apply repeat_length|].
    split; [intros; lia|]. intros j Hj. apply nth_repeat_zero.
  - intros i [m v] Hi (Hm & Hv & Hdone & Hsum). simpl in *.
    destruct (dense_row_spec rows cols i a b w f g m v Ha Hb Hw Hi Hm Hv)
      as (gm & gv & Hr & Hs & Hl & Hrow & Hoth & Hacc).
    exists (gm, gv). split; [exact Hr|]. unfold P; cbn [fst snd].
    split; [exact Hs|]. split; [exact Hl|]. split.
    + intros i' j Hi' Hj. destruct (Nat.eq_dec i' i) as [->|Hne].
      * apply Hrow. exact Hj.
      * rewrite Hoth by exact Hne. apply Hdone; [lia | exact Hj].
    + intros j Hj. rewrite Hacc by exact Hj. rewrite Hsum by exact Hj.
      rewrite seq_S, map_app. cbn [map]. rewrite py_sum_snoc. reflexivity.
  - exists gm, gv. simpl in *. auto.
Qed.

Lemma relu_mask_from_spec (raw : Vector) (s : nat) (gh : Vector) :
  (s + length raw <= length gh)%nat ->
  exists gh',
    for_each (combine (seq s (length raw)) raw)
      (fun jr gh => if Rle_dec (snd jr) 0 then setitem gh (fst jr) 0 else Ok gh)
      gh = Ok gh' /\
    length gh' = length gh /\
    (forall j, (j < s)%nat -> nth j gh' 0 = nth j gh 0) /\
    (forall j, (j < length raw)%nat ->
       nth (s + j) gh' 0 = if Rle_dec (nth j raw 0) 0 then 0 else nth (s + j) gh 0).
Proof.
  revert s gh. induction raw as [|x raw IH]; intros s gh Hlen; simpl.
  - exists gh. split; [reflexivity|]. split; [reflexivity|].
    split; [reflexivity | intros j Hj; simpl in Hj; lia].
  - simpl in Hlen.
    assert (Hstep : forall g1, length g1 = length gh ->
              (forall j, j <> s -> nth j g1 0 = nth j gh 0) ->
              nth s g1 0 = (if Rle_dec x 0 then 0 else nth s gh 0) ->
              exists gh',
                for_each (combine (seq (S s) (length raw)) raw)
                  (fun jr gh => if Rle_dec (snd jr) 0 then setitem gh (fst jr) 0 else Ok gh)
                  g1 = Ok gh' /\
                length gh' = length gh /\
                (forall j, (j < s)%nat -> nth j gh' 0 = nth j gh 0) /\
                (forall j, (j < S (length raw))%nat ->
                   nth (s + j) gh' 0 =
                   if Rle_dec (nth j (x :: raw) 0) 0 then 0 else nth (s + j) gh 0)).
    { intros g1 Hl1 Hoth Hs.
      destruct (IH (S s) g1) as (gh' & Hr & Hl & Hlo & Hhi); [lia|].
      exists gh'. split; [exact Hr|]. split; [lia|]. split.
      - intros j Hj. rewrite Hlo by lia. apply Hoth. lia.
      - intros [|j] Hj.
        + rewrite Nat.add_0_r. rewrite Hlo by lia. exact Hs.
        + replace (s + S j)%nat with (S s + j)%nat by lia.
          rewrite Hhi by lia. simpl.
          rewrite (Hoth (S (s + j))) by lia. reflexivity. }
    destruct (Rle_dec x 0) as [Hle|Hgt].
    + rewrite setitem_ok by lia. simpl. apply Hstep.
      * apply length_replace_nth.
      * intros j Hj. apply nth_replace_nth_neq. congruence.
      * apply nth_replace_nth_eq. lia.
    + simpl. apply Hstep; auto.
Qed.

Lemma backward_dense_closed (self : TinyLLM) (cache : Cache) (target_idx : nat) :
  wf_model self ->
  length (probs cache) = length (vocab self) ->
  length (hidden cache) = hidden_dim self ->
  length (hidden_raw cache) = hidden_dim self ->
  length (x_flat cache) = (context self * embed_dim self)%nat ->
  (target_idx < length (vocab self))%nat ->
  exists gW1 gb1 gW2 gb2 gx,
    backward_dense self cache target_idx = Ok (gW1, gb1, gW2, gb2, gx) /\
    gb2 = replace_nth (probs cache) target_idx (nth target_idx (probs cache) 0 - 1) /\
    (forall i j, (i < length (vocab self))%nat -> (j < hidden_dim self)%nat ->
       el gW2 i j = nth i gb2 0 * nth j (hidden cache) 0) /\
    (forall j, (j < hidden_dim self)%nat ->
       nth j gb1 0 =
       if Rle_dec (nth j (hidden_raw cache) 0) 0 then 0
       else py_sum (map (fun i => el (W2 self) i j * nth i gb2 0)
                      (seq 0 (length (vocab self))))) /\
    (forall j k, (j < hidden_dim self)%nat -> (k < context self * embed_dim self)%nat ->
       el gW1 j k = nth j gb1 0 * nth k (x_flat cache) 0) /\
    (forall k, (k < context self * embed_dim self)%nat ->
       nth k gx 0 =
       py_sum (map (fun j => el (W1 self) j k * nth j gb1 0) (seq 0 (hidden_dim self)))).
Proof.
  intros Hwf Hp Hh Hraw Hx Ht.
  destruct Hwf as [_ _ _ _ HW1 _ HW2 _ _ _ _].
  unfold backward_dense.
  rewrite (getitem_ok (probs cache) target_idx 0) by lia. simpl.
  rewrite setitem_ok by lia. simpl.
  set (gl := replace_nth (probs cache) target_idx (nth target_idx (probs cache) 0 - 1)).
  assert (Hgl : length gl = length (vocab self)).
  { unfold gl. rewrite length_replace_nth. exact Hp. }
  destruct (dense_loop_spec (length (vocab self)) (hidden_dim self) gl (hidden cache)
              (W2 self) Rmult Rmult Hgl Hh HW2) as (gW2 & gh & Hr2 & Hs2 & Hlgh & HelW2 & Hgh).
  rewrite Hr2. simpl.
  destruct (relu_mask_from_spec (hidden_raw cache) 0 gh) as (gh' & Hrm & Hlgh' & _ & Hmask);
    [simpl; lia|].
  unfold enumerate. rewrite Hrm. simpl.
  assert (Hgh' : length gh' = hidden_dim self) by lia.
  destruct (dense_loop_spec (hidden_dim self) (context self * embed_dim self) gh'
              (x_flat cache) (W1 self) Rmult Rmult Hgh' Hx HW1)
    as (gW1 & gx & Hr1 & Hs1 & Hlgx & HelW1 & Hgx).
  rewrite Hr1. simpl.
  exists gW1, gh', gW2, gl, gx.
  split; [reflexivity|]. split; [reflexivity|]. split; [exact HelW2|].
  split; [|split; [exact HelW1 | exact Hgx]].
  intros j Hj. specialize (Hmask j). simpl in Hmask. rewrite Hmask by lia.
  destruct (Rle_dec (nth j (hidden_raw cache) 0) 0); [reflexivity|].
  apply Hgh. exact Hj.
Qed.

(** The forward cache feeds the backward pass: both closed forms at once. *)
Lemma forward_backward_closed (self : TinyLLM) (x_idx : list nat) (target_idx : nat) :
  wf_model self ->
  length x_idx = context self ->
  Forall (fun v => (v < length (vocab self))%nat) x_idx ->
  (target_idx < length (vocab self))%nat ->
  exists p cache gE gW1 gb1 gW2 gb2 gx,
    _forward self x_idx = Ok (p, cache) /\
    probs cache = p /\ py_sum p = 1 /\ length p = length (vocab self) /\
    backward_dense self cache target_idx = Ok (gW1, gb1, gW2, gb2, gx) /\
    _backward self cache target_idx = Ok (gE, gW1, gb1, gW2, gb2) /\
    gb2 = replace_nth p target_idx (nth target_idx p 0 - 1) /\
    (forall i j, (i < length (vocab self))%nat -> (j < hidden_dim self)%nat ->
       el gW2 i j = nth i gb2 0 * nth j (hidden cache) 0) /\
    (forall j, (j < hidden_dim self)%nat ->
       nth j gb1 0 =
       if Rle_dec (nth j (hidden_raw cache) 0) 0 then 0
       else py_sum (map (fun i => el (W2 self) i j * nth i gb2 0)
                      (seq 0 (length (vocab self))))) /\
    (forall j k, (j < hidden_dim self)%nat -> (k < context self * embed_dim self)%nat ->
       el gW1 j k = nth j gb1 0 * nth k (x_flat cache) 0) /\
    (forall k, (k < context self * embed_dim self)%nat ->
       nth k gx 0 =
       py_sum (map (fun j => el (W1 self) j k * nth j gb1 0) (seq 0 (hidden_dim self)))) /\
    (forall v d, (v < length (vocab self))%nat -> (d < embed_dim self)%nat ->
       el gE v d =
       py_sum (map (fun pos => nth (pos * embed_dim self + d) gx 0) (positions_of v x_idx))).
Proof.
  intros Hwf Hlen Hall Ht.
  destruct (forward_spec self x_idx Hwf Hall)
    as (p & cache & logits & M & Hf & Hpc & Hxi & Hxf & Hh & Hraw & _ & _ & _ & _ & _ &
        Hlp & _ & Hsum & _).
  assert (Hp : length (probs cache) = length (vocab self)) by (rewrite Hpc; exact Hlp).
  assert (Hx : length (x_flat cache) = (context self * embed_dim self)%nat)
    by (rewrite Hxf, Hlen; reflexivity).
  destruct (backward_dense_closed self cache target_idx Hwf Hp Hh Hraw Hx Ht)
    as (gW1 & gb1 & gW2 & gb2 & gx & Hd & Hgb2 & HW2 & Hgb1 & HW1 & Hgx).
  destruct (backward_spec self cache target_idx Hwf Hp Hh Hraw Hx)
    as (gE & gW1' & gb1' & gW2' & gb2' & gx' & Hd' & Hb & _ & _ & _ & _ & _ & Hel);
    try assumption; try (rewrite Hxi; assumption).
  rewrite Hd in Hd'. inversion Hd'; subst gW1' gb1' gW2' gb2' gx'.
  rewrite Hpc in Hgb2. rewrite Hxi in Hel.
  exists p, cache, gE, gW1, gb1, gW2, gb2, gx.
  split; [exact Hf|]. split; [exact Hpc|]. split; [exact Hsum|]. split; [exact Hlp|].
  split; [exact Hd|]. split; [exact Hb|]. split; [exact Hgb2|]. split; [exact HW2|].
  split; [exact Hgb1|]. split; [exact HW1|]. split; [exact Hgx | exact Hel].
Qed.

(** X8. Output-layer gradients of [_backward] on a forward cache: the
    gradient of the output bias is the probability vector with one
    subtracted at the target, its entries sum to zero, and the gradient
    of [W2] is its outer product with the hidden state. *)
Theorem X8_output_layer_gradients :
  forall (self : TinyLLM) (x_idx : list nat) (target_idx : nat),
    wf_model self ->
    length x_idx = context self ->
    Forall (fun v => (v < length (vocab self))%nat) x_idx ->
    (target_idx < length (vocab self))%nat ->
    exists p cache gE gW1 gb1 gW2 gb2,
      _forward self x_idx = Ok (p, cache) /\
      _backward self cache target_idx = Ok (gE, gW1, gb1, gW2, gb2) /\
      length gb2 = length (vocab self) /\
      (forall i, (i < length (vocab self))%nat ->
         nth i gb2 0 = nth i p 0 - (if (i =? target_idx)%nat then 1 else 0)) /\
      py_sum gb2 = 0 /\
      (forall i j, (i < length (vocab self))%nat -> (j < hidden_dim self)%nat ->
         el gW2 i j = nth i gb2 0 * nth j (hidden cache) 0).
Proof.
  intros self x_idx target_idx Hwf Hlen Hall Ht.
  destruct (forward_backward_closed self x_idx target_idx Hwf Hlen Hall Ht)
    as (p & cache & gE & gW1 & gb1 & gW2 & gb2 & gx & Hf & _ & Hsum & Hlp & _ & Hb &
        Hgb2 & HW2 & _).
  exists p, cache, gE, gW1, gb1, gW2, gb2.
  split; [exact Hf|]. split; [exact Hb|]. split; [|split; [|split; [|exact HW2]]].
  - rewrite Hgb2, length_replace_nth. exact Hlp.
  - intros i Hi. rewrite Hgb2. destruct (Nat.eqb_spec i target_idx) as [->|Hne].
    + rewrite nth_replace_nth_eq by lia. reflexivity.
    + rewrite nth_replace_nth_neq by congruence. lra.
  - rewrite Hgb2, py_sum_replace_nth by lia. lra.
Qed.

Lemma X8_witness :
  exists p cache gE gW1 gb1 gW2 gb2,
    _forward demo [0; 1]%nat = Ok (p, cache) /\
    _backward demo cache 2 = Ok (gE, gW1, gb1, gW2, gb2) /\
    nth 2 gb2 0 = nth 2 p 0 - 1 /\ py_sum gb2 = 0.
Proof.
  destruct (X8_output_layer_gradients demo [0; 1]%nat 2%nat)
    as (p & cache & gE & gW1 & gb1 & gW2 & gb2 & Hf & Hb & _ & Hgb2 & Hsum & _).
  - exact demo_wf.
  - reflexivity.
  - repeat constructor; vm_compute; lia.
  - vm_compute. lia.
  - exists p, cache, gE, gW1, gb1, gW2, gb2.
    split; [exact Hf|]. split; [exact Hb|]. split; [|exact Hsum].
    apply (Hgb2 2%nat). vm_compute. lia.
Defined.

(** X9. Hidden-layer gradients of [_backward] on a forward cache: the
    gradient of hidden unit [j] is zero when its pre-activation was not
    positive and the [W2]-weighted sum of the output gradients
    otherwise; the gradient of [W1] is its outer product with the flat
    input, so a unit that did not fire has a zero row; the gradient of
    the flat input is the [W1]-weighted sum of the hidden gradients. *)
Theorem X9_hidden_layer_gradients :
  forall (self : TinyLLM) (x_idx : list nat) (target_idx : nat),
    wf_model self ->
    length x_idx = context self ->
    Forall (fun v => (v < length (vocab self))%nat) x_idx ->
    (target_idx < length (vocab self))%nat ->
    exists p cache gE gW1 gb1 gW2 gb2 gx,
      _forward self x_idx = Ok (p, cache) /\
      backward_dense self cache target_idx = Ok (gW1, gb1, gW2, gb2, gx) /\
      _backward self cache target_idx = Ok (gE, gW1, gb1, gW2, gb2) /\
      (forall j, (j < hidden_dim self)%nat ->
         nth j gb1 0 =
         if Rle_dec (nth j (hidden_raw cache) 0) 0 then 0
         else py_sum (map (fun i => el (W2 self) i j * nth i gb2 0)
                        (seq 0 (length (vocab self))))) /\
      (forall j k, (j < hidden_dim self)%nat -> (k < context self * embed_dim self)%nat ->
         el gW1 j k = nth j gb1 0 * nth k (x_flat cache) 0) /\
      (forall j k, (j < hidden_dim self)%nat -> (k < context self * embed_dim self)%nat ->
         nth j (hidden_raw cache) 0 <= 0 -> nth j gb1 0 = 0 /\ el gW1 j k = 0) /\
      (forall k, (k < context self * embed_dim self)%nat ->
         nth k gx 0 =
         py_sum (map (fun j => el (W1 self) j k * nth j gb1 0) (seq 0 (hidden_dim self)))).
Proof.
  intros self x_idx target_idx Hwf Hlen Hall Ht.
  destruct (forward_backward_closed self x_idx target_idx Hwf Hlen Hall Ht)
    as (p & cache & gE & gW1 & gb1 & gW2 & gb2 & gx & Hf & _ & _ & _ & Hd & Hb &
        _ & _ & Hgb1 & HW1 & Hgx & _).
  exists p, cache, gE, gW1, gb1, gW2, gb2, gx.
  split; [exact Hf|]. split; [exact Hd|]. split; [exact Hb|]. split; [exact Hgb1|].
  split; [exact HW1|]. split; [|exact Hgx].
  intros j k Hj Hk Hdead.
  assert (H0 : nth j gb1 0 = 0).
  { rewrite Hgb1 by exact Hj.
    destruct (Rle_dec (nth j (hidden_raw cache) 0) 0); [reflexivity | contradiction]. }
  split; [exact H0|]. rewrite HW1 by assumption. rewrite H0. lra.
Qed.

Lemma X9_witness :
  exists p cache gE gW1 gb1 gW2 gb2 gx,
    _forward demo [0; 1]%nat = Ok (p, cache) /\
    backward_dense demo cache 2 = Ok (gW1, gb1, gW2, gb2, gx) /\
    _backward demo cache 2 = Ok (gE, gW1, gb1, gW2, gb2) /\
    nth 5 gx 0 = py_sum (map (fun j => el (W1 demo) j 5 * nth j gb1 0) (seq 0 6)).
Proof.
  destruct (X9_hidden_layer_gradients demo [0; 1]%nat 2%nat)
    as (p & cache & gE & gW1 & gb1 & gW2 & gb2 & gx & Hf & Hd & Hb & _ & _ & _ & Hgx).
  - exact demo_wf.
  - reflexivity.
  - repeat constructor; vm_compute; lia.
  - vm_compute. lia.
  - exists p, cache, gE, gW1, gb1, gW2, gb2, gx.
    split; [exact Hf|]. split; [exact Hd|]. split; [exact Hb|].
    apply (Hgx 5%nat). vm_compute. lia.
Defined.

Lemma positions_of_absent (v : nat) (xs : list nat) :
  ~ In v xs -> positions_of v xs = [].
Proof.
  intros Hn. destruct (positions_of v xs) as [|p l] eqn:Hp; [reflexivity|].
  exfalso. apply Hn.
  assert (Hin : In p (positions_of v xs)) by (rewrite Hp; left; reflexivity).
  apply positions_of_In in Hin. apply nth_error_In in Hin. exact Hin.
Qed.

(** X10. Only the embedding rows of symbols that occur in the context
    window receive gradient: for a vocabulary index that is not in the
    window, the row of [grad_E] returned by [_backward] is all zeros. *)
Theorem X10_absent_symbols_get_zero_embedding_gradient :
  forall (self : TinyLLM) (x_idx : list nat) (target_idx : nat),
    wf_model self ->
    length x_idx = context self ->
    Forall (fun v => (v < length (vocab self))%nat) x_idx ->
    (target_idx < length (vocab self))%nat ->
    exists p cache gE gW1 gb1 gW2 gb2,
      _forward self x_idx = Ok (p, cache) /\
      _backward self cache target_idx = Ok (gE, gW1, gb1, gW2, gb2) /\
      forall v d, (v < length (vocab self))%nat -> (d < embed_dim self)%nat ->
                  ~ In v x_idx -> el gE v d = 0.
Proof.
  intros self x_idx target_idx Hwf Hlen Hall Ht.
  destruct (forward_backward_closed self x_idx target_idx Hwf Hlen Hall Ht)
    as (p & cache & gE & gW1 & gb1 & gW2 & gb2 & gx & Hf & _ & _ & _ & _ & Hb &
        _ & _ & _ & _ & _ & Hel).
  exists p, cache, gE, gW1, gb1, gW2, gb2.
  split; [exact Hf|]. split; [exact Hb|].
  intros v d Hv Hd Hn. rewrite Hel by assumption.
  rewrite positions_of_absent by exact Hn. reflexivity.
Qed.

Lemma X10_witness :
  exists p cache gE gW1 gb1 gW2 gb2,
    _forward demo [0; 1]%nat = Ok (p, cache) /\
    _backward demo cache 0 = Ok (gE, gW1, gb1, gW2, gb2) /\
    el gE 2 0 = 0.
Proof.
  destruct (X10_absent_symbols_get_zero_embedding_gradient demo [0; 1]%nat 0%nat)
    as (p & cache & gE & gW1 & gb1 & gW2 & gb2 & Hf & Hb & Hz).
  - exact demo_wf.
  - reflexivity.
  - repeat constructor; vm_compute; lia.
  - vm_compute. lia.
  - exists p, cache, gE, gW1, gb1, gW2, gb2.
    split; [exact Hf|]. split; [exact Hb|].
    apply (Hz 2%nat 0%nat); vm_compute; lia.
Defined.

(** ** Training as a whole *)

Lemma steps_frame (n : nat) (m m' : TinyLLM) :
  wf_model m -> steps n m m' -> same_frame m m' /\ wf_model m'.
Proof.
  intros Hwf Hs. induction Hs as [m | n m1 m2 m3 Hstep Hrest IH].
  - split; [unfold same_frame; tauto | exact Hwf].
  - destruct Hstep as (gs & _ & Hf & Hwf2 & _).
    destruct (IH Hwf2) as [Hf' Hwf3]. split; [|exact Hwf3].
    unfold same_frame in *.
    destruct Hf as (a1 & a2 & a3 & a4 & a5 & a6 & a7 & a8).
    destruct Hf' as (c1 & c2 & c3 & c4 & c5 & c6 & c7 & c8).
    repeat split; congruence.
Qed.

Lemma steps_app (a b : nat) (m m1 m2 : TinyLLM) :
  steps a m m1 -> steps b m1 m2 -> steps (a + b) m m2.
Proof.
  intros Ha Hb. induction Ha as [m | n x y z Hstep Hrest IH]; simpl.
  - exact Hb.
  - econstructor; [exact Hstep | apply IH; exact Hb].
Qed.

(** X11. Training keeps the model usable: on a model with a non-empty
    dataset and a non-zero reporting period, [train] returns a model
    with the same vocabulary, symbol tables, dataset and
    hyper-parameters and with tensors of the same shapes; [loss] still
    returns on it and [predict_next] still answers every context of
    vocabulary characters of the right length. *)
Theorem X11_train_preserves_frame_and_shapes :
  forall (self : TinyLLM) (epochs report_every : Z),
    wf_model self ->
    inputs (dataset self) <> [] ->
    report_every <> 0%Z ->
    exists m',
      train self epochs report_every = Ok m' /\
      same_frame self m' /\
      wf_model m' /\
      (exists l, loss m' = Ok l) /\
      (forall text, length text = context self -> in_vocab self text ->
                    exists ch p, predict_next m' text = Ok (ch, p)).
Proof.
  intros self epochs report_every Hwf Hne Hre.
  destruct (train_spec self epochs report_every Hwf Hne Hre) as (m' & Hr & Hwf' & Hs & Hds).
  destruct (steps_frame _ _ _ Hwf Hs) as [Hframe _].
  exists m'. split; [exact Hr|]. split; [exact Hframe|]. split; [exact Hwf'|]. split.
  - apply loss_ok; [exact Hwf' | rewrite Hds; exact Hne].
  - intros text Hlen Hin.
    destruct Hframe as (Hc & _ & _ & _ & Hv & _).
    destruct (predict_next_spec m' text Hwf') as (ch & p & _ & _ & _ & _ & _ & _ & _ & Hpn & _).
    + rewrite Hc. exact Hlen.
    + unfold in_vocab in *. rewrite Hv. exact Hin.
    + exists ch, p. exact Hpn.
Qed.

Lemma X11_witness :
  exists m', train demo 5 1 = Ok m' /\ vocab m' = vocab demo /\
             exists ch p, predict_next m' (list_ascii_of_string "ca") = Ok (ch, p).
Proof.
  destruct (X11_train_preserves_frame_and_shapes demo 5 1)
    as (m' & Hr & Hframe & _ & _ & Hpn).
  - exact demo_wf.
  - vm_compute. discriminate.
  - lia.
  - exists m'. split; [exact Hr|]. split; [apply Hframe|].
    apply Hpn; [reflexivity|].
    vm_compute. repeat apply Forall_cons; try apply Forall_nil; auto 10.
Defined.

(** X12. Training composes: with a non-zero reporting period, training
    for [a + b] epochs gives the same model as training for [a] epochs
    and then for [b] more (only the epoch numbers in the progress lines
    differ); and a call with [epochs <= 0] returns the model unchanged,
    whatever the reporting period. *)
Theorem X12_train_composes :
  forall (self : TinyLLM) (a b report_every : Z),
    wf_model self ->
    inputs (dataset self) <> [] ->
    report_every <> 0%Z ->
    (0 <= a)%Z -> (0 <= b)%Z ->
    train self (a + b) report_every =
    (m1 <- train self a report_every ;; train m1 b report_every) /\
    (forall e r, (e <= 0)%Z -> train self e r = Ok self).
Proof.
  intros self a b report_every Hwf Hne Hre Ha Hb. split.
  - destruct (train_spec self a report_every Hwf Hne Hre) as (m1 & Hr1 & Hwf1 & Hs1 & Hds1).
    destruct (train_spec m1 b report_every Hwf1) as (m2 & Hr2 & _ & Hs2 & _);
      [rewrite Hds1; exact Hne | exact Hre |].
    destruct (train_spec self (a + b) report_every Hwf Hne Hre) as (m3 & Hr3 & _ & Hs3 & _).
    rewrite Hr3, Hr1. simpl. rewrite Hr2. f_equal.
    replace (Z.to_nat (a + b)) with (Z.to_nat a + Z.to_nat b)%nat in Hs3 by lia.
    apply (steps_unique _ _ _ _ Hs3 (steps_app _ _ _ _ _ Hs1 Hs2)).
  - intros e r He. unfold train. replace (Z.to_nat e) with 0%nat by lia. reflexivity.
Qed.

Lemma X12_witness :
  train demo (2 + 3) 20 = (m1 <- train demo 2 20 ;; train m1 3 20).
Proof.
  apply (X12_train_composes demo 2 3 20).
  - exact demo_wf.
  - vm_compute. discriminate.
  - lia.
  - lia.
  - lia.
Defined.

Lemma frozen_step (m m' : TinyLLM) :
  wf_model m -> learning_rate m = 0 -> full_batch_step m m' -> m' = m.
Proof.
  intros Hwf Hlr (gs & _ & Hf & Hwf' & He).
  assert (Heq : forall s, in_range m s -> param_at m' s = param_at m s).
  { intros s Hs. rewrite He by exact Hs. rewrite Hlr. lra. }
  destruct Hf as (Hc & Hd & Hh & Hl & Hv & Hs & Hi & Hds).
  destruct Hwf as [_ _ _ HE HW1 Hb1 HW2 Hb2 _ _ _].
  destruct Hwf' as [_ _ _ HE' HW1' Hb1' HW2' Hb2' _ _ _].
  rewrite Hc, Hd, Hh, Hv in *.
  assert (E m' = E m).
  { apply (shape_ext _ _ _ _ HE' HE). intros i j Hi' Hj.
    apply (Heq (in_E i j)). simpl. auto. }
  assert (W1 m' = W1 m).
  { apply (shape_ext _ _ _ _ HW1' HW1). intros i j Hi' Hj.
    apply (Heq (in_W1 i j)). simpl. auto. }
  assert (W2 m' = W2 m).
  { apply (shape_ext _ _ _ _ HW2' HW2). intros i j Hi' Hj.
    apply (Heq (in_W2 i j)). simpl. auto. }
  assert (b1 m' = b1 m).
  { apply (nth_ext _ _ 0 0); [lia|]. intros i Hi'.
    apply (Heq (in_b1 i)). simpl. lia. }
  assert (b2 m' = b2 m).
  { apply (nth_ext _ _ 0 0); [lia|]. intros i Hi'.
    apply (Heq (in_b2 i)). simpl. lia. }
  destruct m, m'; simpl in *. congruence.
Qed.

(** X13. With a learning rate of zero training changes nothing:
    [train] returns the model it was given, for any number of epochs. *)
Theorem X13_zero_learning_rate_freezes_model :
  forall (self : TinyLLM) (epochs report_every : Z),
    wf_model self ->
    inputs (dataset self) <> [] ->
    report_every <> 0%Z ->
    learning_rate self = 0 ->
    train self epochs report_every = Ok self.
Proof.
  intros self epochs report_every Hwf Hne Hre Hlr.
  destruct (train_spec self epochs report_every Hwf Hne Hre) as (m' & Hr & _ & Hs & _).
  rewrite Hr. f_equal.
  clear Hr. induction Hs as [m | n m1 m2 m3 Hstep Hrest IH]; [reflexivity|].
  assert (m2 = m1) by (apply frozen_step; assumption). subst m2.
  apply IH; assumption.
Qed.

Lemma X13_witness :
  train (built (fun _ => 0) demo_text 2 3 6 0) 7 3 =
  Ok (built (fun _ => 0) demo_text 2 3 6 0).
Proof.
  apply X13_zero_learning_rate_freezes_model.
  - apply built_wf. vm_compute. lia.
  - vm_compute. discriminate.
  - lia.
  - reflexivity.
Defined.

(** X14. A reporting period of zero makes [train] raise: on a model
    with a non-empty dataset, any call with [epochs > 0] and
    [report_every = 0] ends in [ZeroDivisionError].  The error comes
    from the modulo of the progress report: the mean gradients of the
    first epoch and the parameter update before it succeed and make one
    full-batch step. *)
Theorem X14_zero_report_period_raises :
  forall (self : TinyLLM) (epochs : Z),
    wf_model self ->
    inputs (dataset self) <> [] ->
    (0 < epochs)%Z ->
    train self epochs 0 = Raise ZeroDivisionError /\
    exists total g m1,
      epoch_grads self (length (inputs (dataset self))) = Ok (total, g) /\
      _apply_grads self g = Ok m1 /\
      full_batch_step self m1 /\
      py_mod 1 0 = Raise ZeroDivisionError.
Proof.
  intros self epochs Hwf Hne Hpos.
  split; [apply train_report_zero; assumption|].
  destruct (train_epoch_spec self 1 1 Hwf Hne) as (m1 & Hr & _ & Hstep); [lia|].
  destruct (epoch_grads_spec self Hwf Hne) as (gs & total & avg & _ & Hg & Hsh & _).
  destruct (apply_grads_spec self avg Hwf Hsh) as (m' & Ha & _).
  exists total, avg, m'. split; [exact Hg|]. split; [exact Ha|]. split; [|reflexivity].
  unfold train_epoch in Hr. rewrite Hg in Hr. simpl in Hr. rewrite Ha in Hr. simpl in Hr.
  destruct (py_div total (INR (length (inputs (dataset self))))); simpl in Hr;
    [|discriminate].
  inversion Hr; subst m1. exact Hstep.
Qed.

Lemma X14_witness :
  train demo 40 0 = Raise ZeroDivisionError.
Proof.
  apply (X14_zero_report_period_raises demo 40).
  - exact demo_wf.
  - vm_compute. discriminate.
  - lia.
Defined.

(** ** Initial parameters *)

Lemma random_row_spec (rnd : draws) (cols : nat) (scale : R) (k : nat) :
  snd (random_row rnd cols scale k) = (k + cols)%nat /\
  forall j, (j < cols)%nat ->
    nth j (fst (random_row rnd cols scale k)) 0 =
    - scale + (scale - - scale) * rnd (k + j)%nat.
Proof.
  revert k. induction cols as [|c IH]; intros k; simpl.
  - split; [lia | intros; lia].
  - specialize (IH (S k)). destruct (random_row rnd c scale (S k)) as [xs k2].
    simpl in *. destruct IH as [Hk Hel]. split; [lia|].
    intros [|j] Hj.
    + rewrite Nat.add_0_r. reflexivity.
    + rewrite Hel by lia. replace (k + S j)%nat with (S (k + j)) by lia. reflexivity.
Qed.

Lemma random_matrix_spec (rnd : draws) (rows cols : nat) (scale : R) (k : nat) :
  snd (random_matrix rnd rows cols scale k) = (k + rows * cols)%nat /\
  forall i j, (i < rows)%nat -> (j < cols)%nat ->
    el (fst (random_matrix rnd rows cols scale k)) i j =
    - scale + (scale - - scale) * rnd (k + i * cols + j)%nat.
Proof.
  revert k. induction rows as [|r IH]; intros k; simpl.
  - split; [lia | intros; lia].
  - pose proof (random_row_spec rnd cols scale k) as [Hk1 Hrow].
    destruct (random_row rnd cols scale k) as [row k1]. simpl in Hk1, Hrow.
    specialize (IH k1). destruct (random_matrix rnd r cols scale k1) as [rest k2].
    simpl in *. destruct IH as [Hk2 Hel]. split; [lia|].
    intros [|i] j Hi Hj; unfold el; simpl.
    + rewrite Hrow by exact Hj. rewrite Nat.add_0_r. reflexivity.
    + fold (el rest i j). rewrite Hel by lia. f_equal. f_equal. f_equal. lia.
Qed.

(** X15. The parameters [__init__] leaves: with a generator whose
    values lie in [0, 1), every entry of [E] lies in [-0.5, 0.5) and
    every entry of [W1] and [W2] in [-0.1, 0.1); entry [(i, j)] of each
    matrix is drawn in row-major order, [E] first, then [W1], then
    [W2]; both bias vectors are zero. *)
Theorem X15_initial_parameters :
  forall (rnd : draws) (text : str) (ctx embed hid : nat) (lr : R) (m : TinyLLM),
    __init__ rnd text ctx embed hid lr = Ok m ->
    (forall n, 0 <= rnd n < 1) ->
    let V := length (vocab m) in
    (forall i j, (i < V)%nat -> (j < embed)%nat ->
       el (E m) i j = - (5 / 10) + (5 / 10 - - (5 / 10)) * rnd (i * embed + j)%nat /\
       - (5 / 10) <= el (E m) i j < 5 / 10) /\
    (forall i j, (i < hid)%nat -> (j < ctx * embed)%nat ->
       el (W1 m) i j =
       - (1 / 10) + (1 / 10 - - (1 / 10)) * rnd (V * embed + i * (ctx * embed) + j)%nat /\
       - (1 / 10) <= el (W1 m) i j < 1 / 10) /\
    (forall i j, (i < V)%nat -> (j < hid)%nat ->
       el (W2 m) i j =
       - (1 / 10) + (1 / 10 - - (1 / 10)) *
                    rnd (V * embed + hid * (ctx * embed) + i * hid + j)%nat /\
       - (1 / 10) <= el (W2 m) i j < 1 / 10) /\
    b1 m = repeat 0 hid /\ b2 m = repeat 0 V.
Proof.
  intros rnd text ctx embed hid lr m Hinit Hrnd V.
  destruct (Nat.le_gt_cases (length text) ctx) as [Hle|Hgt].
  { rewrite init_raises in Hinit by exact Hle. discriminate. }
  rewrite init_ok in Hinit by exact Hgt. inversion Hinit; subst m. clear Hinit.
  unfold built in *; simpl in *.
  set (voc := sorted (py_set text)) in *.
  pose proof (random_matrix_spec rnd (length voc) embed (5 / 10) 0) as [Hk1 HE].
  set (r1 := random_matrix rnd (length voc) embed (5 / 10) 0) in *.
  pose proof (random_matrix_spec rnd hid (ctx * embed) (1 / 10) (snd r1)) as [Hk2 HW1].
  set (r2 := random_matrix rnd hid (ctx * embed) (1 / 10) (snd r1)) in *.
  pose proof (random_matrix_spec rnd (length voc) hid (1 / 10) (snd r2)) as [_ HW2].
  split; [|split; [|split; [|split; reflexivity]]].
  - intros i j Hi Hj. rewrite HE by assumption. split; [reflexivity|].
    pose proof (Hrnd (0 + i * embed + j)%nat). lra.
  - intros i j Hi Hj. rewrite HW1 by assumption. rewrite Hk1. split; [reflexivity|].
    pose proof (Hrnd (0 + length voc * embed + i * (ctx * embed) + j)%nat). lra.
  - intros i j Hi Hj. rewrite HW2 by assumption. rewrite Hk2, Hk1. split; [reflexivity|].
    pose proof (Hrnd (0 + length voc * embed + hid * (ctx * embed) + i * hid + j)%nat). lra.
Qed.

Lemma X15_witness :
  - (5 / 10) <= el (E demo) 2 1 < 5 / 10 /\ b1 demo = repeat 0 6%nat.
Proof.
  destruct (X15_initial_parameters (fun _ => 0) demo_text 2 3 6 (3 / 10) demo)
    as (HE & _ & _ & Hb1 & _).
  - apply init_ok. vm_compute. lia.
  - intros n. lra.
  - split; [|exact Hb1]. apply (HE 2%nat 1%nat); vm_compute; lia.
Defined.

(** ** The dataset as a sliding window *)

Lemma nth_tl {A : Type} (l : list A) (p : nat) (d : A) : nth p (tl l) d = nth (S p) l d.
Proof. destruct l; [destruct p; reflexivity | reflexivity]. Qed.

Lemma length_tl {A : Type} (l : list A) : length (tl l) = (length l - 1)%nat.
Proof. destruct l; simpl; lia. Qed.

(** X16. Consecutive training pairs overlap as a sliding window
    should: for a positive context, the input of pair [i + 1] is the
    input of pair [i] without its first index, followed by the target
    of pair [i]. *)
Theorem X16_dataset_windows_slide :
  forall (rnd : draws) (text : str) (ctx embed hid : nat) (lr : R) (m : TinyLLM) (i : nat),
    __init__ rnd text ctx embed hid lr = Ok m ->
    (0 < ctx)%nat ->
    (S i < length (inputs (dataset m)))%nat ->
    nth (S i) (inputs (dataset m)) [] =
    tl (nth i (inputs (dataset m)) []) ++ [nth i (targets (dataset m)) 0%nat].
Proof.
  intros rnd text ctx embed hid lr m i Hinit Hctx Hi.
  destruct (Nat.le_gt_cases (length text) ctx) as [Hle|Hgt].
  { rewrite init_raises in Hinit by exact Hle. discriminate. }
  rewrite init_ok in Hinit by exact Hgt. inversion Hinit; subst m. clear Hinit.
  unfold built in *; simpl in *.
  set (st := map (fun ic => (snd ic, fst ic)) (enumerate (sorted (py_set text)))) in *.
  rewrite length_map, length_seq in Hi.
  assert (Hin : forall k, (k < length text - ctx)%nat ->
            nth k (map (fun i => map (index_in st) (py_slice text i (i + ctx)))
                     (seq 0 (length text - ctx))) [] =
            map (index_in st) (py_slice text k (k + ctx))).
  { intros k Hk.
    pose proof (nth_error_map_seq
                  (fun i => map (index_in st) (py_slice text i (i + ctx)))
                  (length text - ctx) k Hk) as H.
    apply nth_error_nth. exact H. }
  assert (Htg : nth i (map (fun i => index_in st (nth (i + ctx) text " "%char))
                         (seq 0 (length text - ctx))) 0%nat =
                index_in st (nth (i + ctx) text " "%char)).
  { pose proof (nth_error_map_seq
                  (fun i => index_in st (nth (i + ctx) text " "%char))
                  (length text - ctx) i) as H.
    apply nth_error_nth. apply H. lia. }
  rewrite !Hin by lia. rewrite Htg.
  apply (nth_ext _ _ 0%nat 0%nat).
  - rewrite length_app, length_tl, !length_map, !length_py_slice by lia. simpl. lia.
  - intros p Hp. rewrite length_map, length_py_slice in Hp by lia.
    rewrite (nth_indep _ 0%nat (index_in st " "%char))
      by (rewrite length_map, length_py_slice; lia).
    rewrite map_nth, nth_py_slice by exact Hp.
    destruct (Nat.eq_dec p (ctx - 1)) as [->|Hne].
    + rewrite app_nth2 by (rewrite length_tl, length_map, length_py_slice; lia).
      rewrite length_tl, length_map, length_py_slice by lia.
      rewrite Nat.sub_diag. simpl. f_equal. f_equal. lia.
    + rewrite app_nth1 by (rewrite length_tl, length_map, length_py_slice; lia).
      rewrite nth_tl.
      rewrite (nth_indep _ 0%nat (index_in st " "%char))
        by (rewrite length_map, length_py_slice; lia).
      rewrite map_nth, nth_py_slice by lia. f_equal. f_equal. lia.
Qed.

Lemma X16_witness :
  nth 3 (inputs (dataset demo)) [] =
  tl (nth 2 (inputs (dataset demo)) []) ++ [nth 2 (targets (dataset demo)) 0%nat].
Proof.
  apply (X16_dataset_windows_slide (fun _ => 0) demo_text 2 3 6 (3 / 10) demo 2).
  - apply init_ok. vm_compute. lia.
  - lia.
  - vm_compute. lia.
Defined.

(** ** Sampling: stopping and growth *)

(** X17. What [sample] appends: on a model with a positive context and
    a window of vocabulary characters, the characters generated after
    the initial window are all vocabulary characters, at most
    [max_new] of them; fewer than [max_new] are generated only when
    the last one is a newline, and no newline occurs before the last
    generated character. *)
Theorem X17_sample_stops_at_newline_or_limit :
  forall (self : TinyLLM) (seed : str) (max_new : Z),
    wf_model self -> (0 < context self)%nat ->
    in_vocab self (initial_window self seed) ->
    exists suffix,
      sample self seed max_new = Ok (initial_window self seed ++ suffix) /\
      (length suffix <= Z.to_nat max_new)%nat /\
      in_vocab self suffix /\
      ((length suffix < Z.to_nat max_new)%nat -> exists body, suffix = body ++ [newline]) /\
      (forall k, (S k < length suffix)%nat -> nth k suffix newline <> newline).
Proof.
  intros self seed max_new Hwf Hpos Hin. rewrite sample_unfold.
  destruct (sample_loop_spec self (Z.to_nat max_new) Hwf Hpos (initial_window self seed))
    as (suffix & Hr & Hl & Hv & _ & Hnl & Hno).
  - rewrite length_initial_window by exact Hpos. lia.
  - rewrite py_last_pos by exact Hpos. rewrite length_initial_window by exact Hpos.
    rewrite Nat.sub_diag. exact Hin.
  - exists suffix. auto.
Qed.

Lemma X17_witness :
  exists suffix,
    sample demo (list_ascii_of_string "ab") 4 = Ok (list_ascii_of_string "ab" ++ suffix) /\
    (length suffix <= 4)%nat /\ in_vocab demo suffix.
Proof.
  destruct (X17_sample_stops_at_newline_or_limit demo (list_ascii_of_string "ab") 4)
    as (suffix & Hr & Hl & Hv & _).
  - exact demo_wf.
  - vm_compute. lia.
  - vm_compute. repeat apply Forall_cons; try apply Forall_nil; auto 10.
  - exists suffix. split; [exact Hr|]. split; [exact Hl | exact Hv].
Defined.

Lemma sample_loop_S (m : TinyLLM) (n : nat) (g : str) :
  sample_loop m (S n) g =
  (' (next_ch, _) <- predict_next m (py_last (context m) g) ;;
   if Ascii.eqb next_ch newline then Ok (g ++ [next_ch])
   else sample_loop m n (g ++ [next_ch])).
Proof. reflexivity. Qed.

Lemma sample_loop_grows (m : TinyLLM) (n : nat) :
  wf_model m -> (0 < context m)%nat ->
  forall (g s : str),
    (context m <= length g)%nat -> in_vocab m (py_last (context m) g) ->
    sample_loop m n g = Ok s ->
    exists ext, sample_loop m (S n) g = Ok (s ++ ext).
Proof.
  intros Hwf Hpos. induction n as [|n IH]; intros g s Hlen Hin Hs.
  - simpl in Hs. inversion Hs; subst s.
    destruct (sample_loop_spec m 1 Hwf Hpos g Hlen Hin) as (suffix & Hr & _).
    exists suffix. exact Hr.
  - destruct (predict_next_spec m (py_last (context m) g) Hwf)
      as (ch & p & idxs & cache & best & _ & _ & _ & _ & Hpn & Hch & _); [|exact Hin|].
    { apply length_py_last. lia. }
    apply nth_error_In in Hch.
    rewrite sample_loop_S in Hs. rewrite sample_loop_S.
    rewrite Hpn in *. cbn [bind] in *.
    destruct (Ascii.eqb ch newline).
    + inversion Hs; subst s. exists []. rewrite app_nil_r. reflexivity.
    + apply IH; [rewrite last_length; lia | | exact Hs].
      apply py_last_snoc; [lia | exact Hin | exact Hch].
Qed.

(** X18. Asking for more characters only extends the result: on a
    model with a positive context and a window of vocabulary
    characters, the string [sample] returns for [max_new = a] is a
    prefix of the one it returns for any [b >= a]. *)
Theorem X18_sample_monotone_in_max_new :
  forall (self : TinyLLM) (seed : str) (a b : Z),
    wf_model self -> (0 < context self)%nat ->
    in_vocab self (initial_window self seed) ->
    (a <= b)%Z ->
    exists s ext,
      sample self seed a = Ok s /\ sample self seed b = Ok (s ++ ext).
Proof.
  intros self seed a b Hwf Hpos Hin Hab. rewrite !sample_unfold.
  assert (Hlen : (context self <= length (initial_window self seed))%nat)
    by (rewrite length_initial_window by exact Hpos; lia).
  assert (Hwin : in_vocab self (py_last (context self) (initial_window self seed))).
  { rewrite py_last_pos by exact Hpos. rewrite length_initial_window by exact Hpos.
    rewrite Nat.sub_diag. exact Hin. }
  destruct (sample_loop_spec self (Z.to_nat a) Hwf Hpos _ Hlen Hwin) as (suffix & Hr & _).
  exists (initial_window self seed ++ suffix).
  assert (G : forall d, exists ext,
            sample_loop self (Z.to_nat a + d) (initial_window self seed) =
            Ok ((initial_window self seed ++ suffix) ++ ext)).
  { induction d as [|d [ext IHd]].
    - exists []. rewrite Nat.add_0_r, app_nil_r. exact Hr.
    - destruct (sample_loop_grows self (Z.to_nat a + d) Hwf Hpos _ _ Hlen Hwin IHd)
        as [ext' He].
      exists (ext ++ ext'). rewrite Nat.add_succ_r, app_assoc. exact He. }
  destruct (G (Z.to_nat b - Z.to_nat a)%nat) as [ext He].
  exists ext. split; [exact Hr|].
  replace (Z.to_nat b) with (Z.to_nat a + (Z.to_nat b - Z.to_nat a))%nat by lia. exact He.
Qed.

Lemma X18_witness :
  exists s ext,
    sample demo (list_ascii_of_string "bc") 2 = Ok s /\
    sample demo (list_ascii_of_string "bc") 6 = Ok (s ++ ext).
Proof.
  apply (X18_sample_monotone_in_max_new demo (list_ascii_of_string "bc") 2 6).
  - exact demo_wf.
  - vm_compute. lia.
  - vm_compute. repeat apply Forall_cons; try apply Forall_nil; auto 10.
  - lia.
Defined.

(** ** Probabilities and the loss *)

Lemma py_sum_le_bound (l : list R) (c : R) :
  Forall (fun x => x <= c) l -> py_sum l <= INR (length l) * c.
Proof.
  induction 1 as [|x l Hx Hall IH].
  - unfold py_sum; simpl. lra.
  - rewrite py_sum_cons. cbn [length]. rewrite S_INR. lra.
Qed.

Lemma py_sum_ge_elem (l : list R) (i : nat) :
  Forall (fun x => 0 < x) l -> (i < length l)%nat -> nth i l 0 <= py_sum l.
Proof.
  intros Hall. revert i. induction Hall as [|x l Hx Hall IH]; intros i Hi; simpl in Hi.
  - lia.
  - rewrite py_sum_cons. destruct i as [|i]; simpl.
    + assert (0 <= py_sum l).
      { destruct l as [|y l']; [unfold py_sum; simpl; lra|].
        apply Rlt_le. apply py_sum_pos; [discriminate | exact Hall]. }
      lra.
    + specialize (IH i). assert (nth i l 0 <= py_sum l) by (apply IH; lia). lra.
Qed.

(** X19. The symbol [predict_next] returns carries at least the
    uniform share of probability: its entry in the returned vector is
    at least [1 / vocab_size] (and at most one), and the symbol is a
    character of the vocabulary. *)
Theorem X19_predicted_symbol_has_uniform_share :
  forall (self : TinyLLM) (context_text : str),
    wf_model self ->
    length context_text = context self ->
    in_vocab self context_text ->
    exists ch p best,
      predict_next self context_text = Ok (ch, p) /\
      nth_error (vocab self) best = Some ch /\
      In ch (vocab self) /\
      1 / INR (length (vocab self)) <= nth best p 0 <= 1.
Proof.
  intros self context_text Hwf Hlen Hin.
  destruct (predict_next_spec self context_text Hwf Hlen Hin)
    as (ch & p & idxs & cache & best & _ & _ & Hall & Hf & Hpn & Hch & Hlt & Hmax & _).
  destruct (forward_spec self idxs Hwf Hall)
    as (p' & cache' & logits & M & Hf' & _ & _ & _ & _ & _ & _ & _ & _ & _ & _ &
        Hlp & Hpos & Hsum & _).
  rewrite Hf in Hf'. inversion Hf'; subst p' cache'. clear Hf'.
  exists ch, p, best. split; [exact Hpn|]. split; [exact Hch|].
  split; [apply nth_error_In in Hch; exact Hch|].
  assert (HV : 0 < INR (length (vocab self))).
  { apply lt_0_INR. lia. }
  split.
  - assert (Hb : py_sum p <= INR (length p) * nth best p 0).
    { apply py_sum_le_bound. apply Forall_forall. intros x Hx.
      destruct (In_nth p x 0 Hx) as (k & Hk & <-). apply Hmax. exact Hk. }
    rewrite Hsum, Hlp in Hb.
    apply (Rmult_le_reg_l (INR (length (vocab self)))); [exact HV|].
    replace (INR (length (vocab self)) * (1 / INR (length (vocab self)))) with 1
      by (field; lra).
    exact Hb.
  - rewrite <- Hsum. apply py_sum_ge_elem; assumption.
Qed.

Lemma X19_witness :
  exists ch p best,
    predict_next demo (list_ascii_of_string "ab") = Ok (ch, p) /\
    nth_error (vocab demo) best = Some ch /\
    1 / INR 3 <= nth best p 0 <= 1.
Proof.
  destruct (X19_predicted_symbol_has_uniform_share demo (list_ascii_of_string "ab"))
    as (ch & p & best & Hpn & Hch & _ & Hb).
  - exact demo_wf.
  - reflexivity.
  - vm_compute. repeat apply Forall_cons; try apply Forall_nil; auto 10.
  - exists ch, p, best. split; [exact Hpn|]. split; [exact Hch | exact Hb].
Defined.

Lemma ln_mono (x y : R) : 0 < x -> x <= y -> ln x <= ln y.
Proof.
  intros Hx [Hlt|Heq]; [apply Rlt_le; apply ln_increasing; assumption | subst; lra].
Qed.

Lemma loss_loop_bounds (self : TinyLLM) (pairs : list (list nat * nat)) (acc : R) :
  wf_model self -> Forall (valid_pair self) pairs ->
  exists total,
    for_each pairs
      (fun xt total_loss =>
         ' (probs, _) <- _forward self (fst xt) ;;
         p <- getitem probs (snd xt) ;;
         l <- py_log (p + eps) ;;
         Ok (total_loss + - l))
      acc = Ok total /\
    acc + INR (length pairs) * - ln (1 + eps) <= total <=
    acc + INR (length pairs) * - ln eps.
Proof.
  intros Hwf Hall. revert acc.
  induction Hall as [|xt pairs Hxt Hall IH]; intros acc.
  - exists acc. split; [reflexivity|]. simpl. lra.
  - destruct Hxt as (_ & Hx & Ht).
    destruct (forward_spec self (fst xt) Hwf Hx)
      as (p & cache & logits & M & Hf & _ & _ & _ & _ & _ & _ & _ & _ & _ & _ &
          Hlp & Hpos & Hsum & _).
    assert (Hp0 : 0 < nth (snd xt) p 0).
    { rewrite Forall_forall in Hpos. apply Hpos. apply nth_In. lia. }
    assert (Hp1 : nth (snd xt) p 0 <= 1).
    { rewrite <- Hsum. apply py_sum_ge_elem; [exact Hpos | lia]. }
    pose proof eps_pos as He.
    assert (Hlo : ln eps <= ln (nth (snd xt) p 0 + eps)) by (apply ln_mono; lra).
    assert (Hhi : ln (nth (snd xt) p 0 + eps) <= ln (1 + eps)) by (apply ln_mono; lra).
    destruct (IH (acc + - ln (nth (snd xt) p 0 + eps))) as (total & Hr & Hb).
    exists total. split.
    + cbn [for_each]. rewrite Hf. cbn [bind fst snd].
      rewrite (getitem_ok p (snd xt) 0) by lia. cbn [bind].
      unfold py_log.
      destruct (Rlt_dec 0 (nth (snd xt) p 0 + eps)) as [_|Hn]; [|lra].
      cbn [bind]. exact Hr.
    + cbn [length]. rewrite S_INR. lra.
Qed.

(** X20. The epsilon guard bounds the loss: on a model with a
    non-empty dataset [loss] returns a value between [-ln(1 + 1e-12)]
    and [-ln(1e-12)]; in particular the logarithm is never taken of a
    non-positive number. *)
Theorem X20_loss_is_bounded :
  forall (self : TinyLLM),
    wf_model self ->
    inputs (dataset self) <> [] ->
    exists l, loss self = Ok l /\ - ln (1 + eps) <= l <= - ln eps.
Proof.
  intros self Hwf Hne.
  destruct (loss_loop_bounds self (dataset_pairs self) 0 Hwf (wf_valid_pairs self Hwf))
    as (total & Hr & Hb).
  rewrite (length_dataset_pairs self Hwf) in Hb.
  set (n := INR (length (inputs (dataset self)))) in *.
  assert (Hn : 0 < n).
  { unfold n. apply lt_0_INR. destruct (inputs (dataset self)); [congruence | simpl; lia]. }
  exists (total / n). split.
  - unfold loss. fold (dataset_pairs self). rewrite Hr. cbn [bind].
    unfold py_div. fold n. destruct (Req_dec_T n 0) as [H0|_]; [lra | reflexivity].
  - assert (Ht : total = total / n * n) by (field; lra).
    split.
    + apply (Rmult_le_reg_r n); [exact Hn|]. rewrite <- Ht. lra.
    + apply (Rmult_le_reg_r n); [exact Hn|]. rewrite <- Ht. lra.
Qed.

Lemma X20_witness :
  exists l, loss demo = Ok l /\ - ln (1 + eps) <= l <= - ln eps.
Proof.
  apply (X20_loss_is_bounded demo).
  - exact demo_wf.
  - vm_compute. discriminate.
Defined.

(** ** Windows of the wrong length *)

Lemma for_range_from_raise {St : Type} (P : nat -> St -> Prop)
    (body : nat -> St -> result St) (e : exn) (k : nat) :
  forall (n start : nat) (s0 : St),
    (k < n)%nat ->
    P start s0 ->
    (forall i s, (start <= i < start + k)%nat -> P i s ->
                 exists s', body i s = Ok s' /\ P (S i) s') ->
    (forall s, P (start + k)%nat s -> body (start + k)%nat s = Raise e) ->
    for_range_from start n body s0 = Raise e.
Proof.
  induction k as [|k IH]; intros n start s0 Hk H0 Hstep Hraise.
  - destruct n as [|n]; [lia|]. simpl.
    rewrite Nat.add_0_r in Hraise. rewrite (Hraise s0 H0). reflexivity.
  - destruct n as [|n]; [lia|]. simpl.
    destruct (Hstep start s0) as (s1 & Hb & H1); [lia | exact H0 |].
    rewrite Hb. simpl. apply IH.
    + lia.
    + exact H1.
    + intros i s Hi Hs. apply Hstep; [lia | exact Hs].
    + intros s Hs. replace (S start + k)%nat with (start + S k)%nat in * by lia.
      apply Hraise. exact Hs.
Qed.

Lemma for_each_app {A St : Type} (l1 l2 : list A) (body : A -> St -> result St) (s : St) :
  for_each (l1 ++ l2) body s = (s' <- for_each l1 body s ;; for_each l2 body s').
Proof.
  revert s. induction l1 as [|x l1 IH]; intros s; simpl; [reflexivity|].
  destruct (body x s) as [s1|e]; simpl; [apply IH | reflexivity].
Qed.

Lemma combine_seq_app {A : Type} (l1 l2 : list A) (s : nat) :
  combine (seq s (length (l1 ++ l2))) (l1 ++ l2) =
  combine (seq s (length l1)) l1 ++ combine (seq (s + length l1) (length l2)) l2.
Proof.
  revert s. induction l1 as [|x l1 IH]; intros s; simpl.
  - rewrite Nat.add_0_r. reflexivity.
  - rewrite IH. replace (S s + length l1)%nat with (s + S (length l1))%nat by lia.
    reflexivity.
Qed.

(** The second dense loop stops with [IndexError] when the cached
    flat input is shorter than [context * embed_dim]. *)
Lemma dense_loop_short_input (rows cols : nat) (a b : Vector) (w : Matrix)
    (f g : R -> R -> R) :
  length a = rows -> (0 < rows)%nat -> (length b < cols)%nat -> shape rows cols w ->
  for_range rows
    (fun i st =>
       for_range cols
         (fun j st =>
            ai <- getitem a i ;;
            bj <- getitem b j ;;
            gm <- setitem2 (fst st) i j (f ai bj) ;;
            acc <- getitem (snd st) j ;;
            wij <- getitem2 w i j ;;
            gv <- setitem (snd st) j (acc + g wij ai) ;;
            Ok (gm, gv))
         st)
    (zeros rows cols, repeat 0 cols) = Raise IndexError.
Proof.
  intros Ha Hrows Hb Hw.
  pose (Q := fun (_ : nat) (st : Matrix * Vector) =>
               shape rows cols (fst st) /\ length (snd st) = cols).
  unfold for_range at 1.
  apply (for_range_from_raise Q _ IndexError 0); [exact Hrows | | intros; lia |].
  - split; simpl; [apply shape_zeros | apply repeat_length].
  - intros st HQ. simpl. unfold for_range.
    apply (for_range_from_raise Q _ IndexError (length b)); [exact Hb | exact HQ | |].
    + intros j [m v] Hj [Hm Hv]. simpl in *.
      rewrite (getitem_ok a 0 0) by lia. simpl.
      rewrite (getitem_ok b j 0) by lia. simpl.
      rewrite (setitem2_ok rows cols) by (try assumption; lia). simpl.
      rewrite (getitem_ok v j 0) by lia. simpl.
      rewrite (getitem2_ok rows cols) by (try assumption; lia). simpl.
      rewrite setitem_ok by lia. simpl.
      eexists. split; [reflexivity|]. split; simpl.
      * apply shape_mset. exact Hm.
      * rewrite length_replace_nth. exact Hv.
    + intros [m v] [Hm Hv]. simpl.
      rewrite (getitem_ok a 0 0) by lia. simpl.
      rewrite getitem_out by lia. reflexivity.
Qed.

(** The dense loops read only the first [cols] entries of [b]. *)
Lemma dense_loop_long (rows cols : nat) (a b : Vector) (w : Matrix)
    (f g : R -> R -> R) :
  length a = rows -> (cols <= length b)%nat -> shape rows cols w ->
  exists gm gv,
    for_range rows
      (fun i st =>
         for_range cols
           (fun j st =>
              ai <- getitem a i ;;
              bj <- getitem b j ;;
              gm <- setitem2 (fst st) i j (f ai bj) ;;
              acc <- getitem (snd st) j ;;
              wij <- getitem2 w i j ;;
              gv <- setitem (snd st) j (acc + g wij ai) ;;
              Ok (gm, gv))
           st)
      (zeros rows cols, repeat 0 cols) = Ok (gm, gv) /\
    length gv = cols.
Proof.
  intros Ha Hb Hw.
  pose (Q := fun st : Matrix * Vector => shape rows cols (fst st) /\ length (snd st) = cols).
  match goal with
  | |- exists gm gv, for_range rows ?body ?s0 = _ /\ _ =>
      destruct (for_range_preserve Q body rows s0) as [[gm gv] [Hr [Hs Hl]]]
  end.
  - split; simpl; [apply shape_zeros | apply repeat_length].
  - intros i st Hi HQ.
    apply (for_range_preserve Q); [exact HQ|].
    intros j [m v] Hj [Hm Hv]. simpl in *.
    rewrite (getitem_ok a i 0) by lia. simpl.
    rewrite (getitem_ok b j 0) by lia. simpl.
    rewrite (setitem2_ok rows cols) by assumption. simpl.
    rewrite (getitem_ok v j 0) by lia. simpl.
    rewrite (getitem2_ok rows cols) by assumption. simpl.
    rewrite setitem_ok by lia. simpl.
    eexists. split; [reflexivity|]. split; simpl.
    + apply shape_mset. exact Hm.
    + rewrite length_replace_nth. exact Hv.
  - exists gm, gv. auto.
Qed.

(** The scatter loop stops with [IndexError] at the first position
    past the context. *)
Lemma embedding_grad_long_window (self : TinyLLM) (xs : list nat) (gx : Vector) :
  Forall (fun v => (v < length (vocab self))%nat) xs ->
  (0 < embed_dim self)%nat ->
  (context self < length xs)%nat ->
  length gx = (context self * embed_dim self)%nat ->
  embedding_grad self xs gx = Raise IndexError.
Proof.
  intros Hall HD Hlen Hgx. unfold embedding_grad, enumerate.
  rewrite <- (firstn_skipn (context self) xs) at 1 2.
  rewrite combine_seq_app, for_each_app.
  assert (Hl1 : length (firstn (context self) xs) = context self)
    by (rewrite length_firstn; lia).
  assert (Hall1 : Forall (fun v => (v < length (vocab self))%nat) (firstn (context self) xs)).
  { apply Forall_forall. intros v Hv. rewrite Forall_forall in Hall. apply Hall.
    rewrite <- (firstn_skipn (context self) xs). apply in_or_app. left. exact Hv. }
  destruct (scatter_from_spec self gx (firstn (context self) xs) 0
              (zeros (length (vocab self)) (embed_dim self))
              (shape_zeros _ _) Hall1) as (g1 & Hr1 & Hs1 & _).
  { rewrite Hl1, Hgx. simpl. lia. }
  rewrite Hr1. cbn [bind]. rewrite Hl1.
  destruct (skipn (context self) xs) as [|v rest] eqn:Hsk.
  { exfalso. assert (length (skipn (context self) xs) = 0%nat) by (rewrite Hsk; reflexivity).
    rewrite length_skipn in H. lia. }
  assert (Hv : (v < length (vocab self))%nat).
  { rewrite Forall_forall in Hall. apply Hall.
    rewrite <- (firstn_skipn (context self) xs), Hsk. apply in_or_app. right. left.
    reflexivity. }
  cbn [length seq combine for_each fst snd].
  destruct (embed_dim self) as [|D] eqn:HeD; [lia|].
  unfold for_range. cbn [for_range_from].
  rewrite (getitem2_ok (length (vocab self)) (S D)) by (try assumption; lia).
  cbn [bind]. rewrite getitem_out by (rewrite Hgx; lia). reflexivity.
Qed.

(** X21. [_forward] does not check the length of its index list, but
    [_backward] depends on it: on a model with positive [embed_dim]
    and [hidden_dim], the forward pass succeeds on any list of valid
    indices, and the backward pass on its cache raises [IndexError]
    whenever the list does not have exactly [context] elements. *)
Theorem X21_backward_needs_context_many_indices :
  forall (self : TinyLLM) (x_idx : list nat) (target_idx : nat),
    wf_model self ->
    (0 < embed_dim self)%nat -> (0 < hidden_dim self)%nat ->
    Forall (fun v => (v < length (vocab self))%nat) x_idx ->
    (target_idx < length (vocab self))%nat ->
    length x_idx <> context self ->
    exists p cache,
      _forward self x_idx = Ok (p, cache) /\
      _backward self cache target_idx = Raise IndexError.
Proof.
  intros self x_idx target_idx Hwf HD HH Hall Ht Hlen.
  destruct (forward_spec self x_idx Hwf Hall)
    as (p & cache & logits & M & Hf & Hpc & Hxi & Hxf & Hh & Hraw & _ & _ & _ & _ & _ &
        Hlp & _).
  exists p, cache. split; [exact Hf|].
  assert (Hp : length (probs cache) = length (vocab self)) by (rewrite Hpc; exact Hlp).
  destruct (Nat.lt_ge_cases (length x_idx) (context self)) as [Hshort|Hlong].
  - unfold _backward, backward_dense.
    rewrite (getitem_ok (probs cache) target_idx 0) by lia. simpl.
    rewrite setitem_ok by lia. simpl.
    set (gl := replace_nth (probs cache) target_idx (nth target_idx (probs cache) 0 - 1)).
    assert (Hgl : length gl = length (vocab self)).
    { unfold gl. rewrite length_replace_nth. exact Hp. }
    destruct Hwf as [_ _ _ _ HW1 _ HW2 _ _ _ _].
    destruct (dense_loop_ok (length (vocab self)) (hidden_dim self) gl (hidden cache)
                (W2 self) Rmult Rmult Hgl Hh HW2) as (gW2 & gh & Hr2 & Hs2 & Hlgh).
    rewrite Hr2. simpl.
    destruct (relu_mask_from_ok (hidden_raw cache) 0 gh) as (gh' & Hrm & Hlgh');
      [simpl; lia|].
    unfold enumerate. rewrite Hrm. simpl.
    rewrite (dense_loop_short_input (hidden_dim self) (context self * embed_dim self) gh'
               (x_flat cache) (W1 self) Rmult Rmult); [reflexivity | lia | lia | | exact HW1].
    rewrite Hxf. apply Nat.mul_lt_mono_pos_r; assumption.
  - assert (Hgt : (context self < length x_idx)%nat) by lia.
    pose proof HD as HD'.
    unfold _backward.
    assert (Hdense : exists gW1 gb1 gW2 gb2 gx,
              backward_dense self cache target_idx = Ok (gW1, gb1, gW2, gb2, gx) /\
              length gx = (context self * embed_dim self)%nat).
    { unfold backward_dense.
      rewrite (getitem_ok (probs cache) target_idx 0) by lia. simpl.
      rewrite setitem_ok by lia. simpl.
      set (gl := replace_nth (probs cache) target_idx (nth target_idx (probs cache) 0 - 1)).
      assert (Hgl : length gl = length (vocab self)).
      { unfold gl. rewrite length_replace_nth. exact Hp. }
      destruct Hwf as [_ _ _ _ HW1 _ HW2 _ _ _ _].
      destruct (dense_loop_ok (length (vocab self)) (hidden_dim self) gl (hidden cache)
                  (W2 self) Rmult Rmult Hgl Hh HW2) as (gW2 & gh & Hr2 & Hs2 & Hlgh).
      rewrite Hr2. simpl.
      destruct (relu_mask_from_ok (hidden_raw cache) 0 gh) as (gh' & Hrm & Hlgh');
        [simpl; lia|].
      unfold enumerate. rewrite Hrm. simpl.
      assert (Hgh' : length gh' = hidden_dim self) by lia.
      destruct (dense_loop_long (hidden_dim self) (context self * embed_dim self) gh'
                  (x_flat cache) (W1 self) Rmult Rmult Hgh') as (gW1 & gx & Hr1 & Hlgx);
        [rewrite Hxf; nia | exact HW1 |].
      rewrite Hr1. simpl. exists gW1, gh', gW2, gl, gx. split; [reflexivity | exact Hlgx]. }
    destruct Hdense as (gW1 & gb1 & gW2 & gb2 & gx & Hd & Hlgx).
    rewrite Hd. cbn [bind].
    rewrite embedding_grad_long_window; try assumption; [reflexivity | |].
    + rewrite Hxi. exact Hall.
    + rewrite Hxi. exact Hgt.
Qed.

Lemma X21_witness :
  (exists p cache, _forward demo [0]%nat = Ok (p, cache) /\
                   _backward demo cache 1 = Raise IndexError) /\
  (exists p cache, _forward demo [0; 1; 2]%nat = Ok (p, cache) /\
                   _backward demo cache 1 = Raise IndexError).
Proof.
  split.
  - apply (X21_backward_needs_context_many_indices demo [0]%nat 1%nat).
    + exact demo_wf.
    + vm_compute. lia.
    + vm_compute. lia.
    + repeat constructor; vm_compute; lia.
    + vm_compute. lia.
    + vm_compute. lia.
  - apply (X21_backward_needs_context_many_indices demo [0; 1; 2]%nat 1%nat).
    + exact demo_wf.
    + vm_compute. lia.
    + vm_compute. lia.
    + repeat constructor; vm_compute; lia.
    + vm_compute. lia.
    + vm_compute. lia.
Defined.


